(** * m3u8-downloader: the segment acquisition pipeline

    A shallow embedding of the Go sources

      - [internal/validator/ts_validator.go]  (ValidateTS)
      - [internal/downloader/downloader.go]   (downloadFile, downloadSegments,
                                               mergeSegments, Download)
      - [internal/downloader/parser.go]       (ParseSegments)
      - [pkg/utils/http.go]                   (ResolveURL)

    Go strings are [string]s, file contents are lists of [byte]s, the file
    system is a finite map from paths to contents, and every call that can
    fail in Go (a system call, an HTTP exchange) reads its outcome from an
    explicit environment record, so that each Go function becomes an
    executable Rocq function of the environment and of the file system. *)

From Stdlib Require Import ZArith Lia Strings.Byte String Ascii.
From stdpp Require Import gmap strings list fin_maps pretty.
From Equations Require Import Equations.

Abbreviation bytes := (list byte).

#[global] Instance byte_eq_dec : EqDecision byte.
Proof.
  intros a b. destruct (Byte.eqb a b) eqn:E.
  - left. by apply Byte.byte_dec_bl.
  - right. intros H. apply Byte.byte_dec_lb in H. congruence.
Defined.

#[global] Instance byte_inhabited : Inhabited byte := populate x00.

(** ** Errors

    Go's [error] values.  [nil] is [None] of [option error]; the constructors
    follow the [fmt.Errorf] calls of the sources, and [ErrSys op path] stands
    for an error handed back by the operating system or the HTTP client. *)

Inductive error : Type :=
| ErrSys (op : string) (path : string)
| ErrHTTPStatus (code : Z)                 (* "HTTP status code: %d" *)
| ErrTooSmall                              (* "file too small to be a valid TS segment" *)
| ErrNoSync                                (* "no valid TS sync patterns found" *)
| ErrMissing (n : Z)                       (* "segment %d failed to download after all retries" *)
| ErrCannotAccess (n : Z) (cause : error)  (* "cannot access segment file %d: %w" *)
| ErrEmpty (n : Z)                         (* "segment file %d is empty (0 bytes)" *)
| ErrIntegrity (n : Z) (cause : error)     (* "segment file %d failed integrity check: %w" *)
| ErrSegmentFileMissing (file : string)    (* "segment file missing: %s" *)
| ErrRemoveExisting (cause : error)        (* "failed to remove existing output file: %w" *)
| ErrRenameTemp (cause : error)            (* "failed to rename temporary file: %w" *)
| ErrTooLong                               (* bufio.ErrTooLong *)
| ErrNoSegments                            (* "no segments found in playlist" *)
| ErrWrap (context : string) (cause : error).

(** ** The Integrity Validator: [validator.ValidateTS] *)

Module Validator.

(** What the operating system answers during one call of [ValidateTS]. *)
Record env : Type := {
  open_err : bool;   (* os.Open fails although the file exists *)
  read_err : bool    (* file.Read fails with an error other than io.EOF *)
}.

(** The size of the [header] buffer, [188*3]: three packets of 188 bytes. *)
Definition header_size : nat := 188 * 3.

(** [for i := 0; i < n; i += 188 { if i+188 <= n && header[i] == 0x47 {
    validSyncBytes++ } }], started at [i] with the counter [validSyncBytes]. *)
Equations sync_scan (header : bytes) (n i validSyncBytes : nat) : nat
  by wf (n - i) lt :=
  sync_scan header n i validSyncBytes with decide (i < n) => {
    | left _ =>
        sync_scan header n (i + 188)
          (if decide (i + 188 <= n)
           then if decide (header !!! i = x47)
                then S validSyncBytes else validSyncBytes
           else validSyncBytes)
    | right _ => validSyncBytes
  }.
Next Obligation. lia. Qed.

(** [file.Read(header)] on a regular file: the first [header_size] bytes of
    the file (all of it when it is shorter) land at the start of the zeroed
    buffer; the count [n] is returned with it. *)
Definition read_header (content : bytes) : bytes * nat :=
  let n := min header_size (length content) in
  (take n content ++ replicate (header_size - n) x00, n).

Definition ValidateTS (e : env) (fileName : string) (fs : gmap string bytes)
  : option error :=
  match fs !! fileName with
  | None => Some (ErrSys "open" fileName)
  | Some content =>
      if open_err e then Some (ErrSys "open" fileName) else
      let '(header, n) := read_header content in
      if read_err e then Some (ErrSys "read" fileName) else
      if decide (n < 188) then Some ErrTooSmall else
      let validSyncBytes := sync_scan header n 0 0 in
      if decide (validSyncBytes = 0) then Some ErrNoSync else None
  end.

End Validator.

(** ** The Go library

    Functions of Go's standard library that the sources call and whose
    results the pipeline only passes along.  They are an interface here; the
    properties below hold for every implementation of it. *)

Class GoLib : Type := {
  url_URL : Type;                                   (* *url.URL *)
  url_Parse : string -> option url_URL;             (* None: an error *)
  url_ResolveReference : url_URL -> url_URL -> url_URL;
  url_String : url_URL -> string;
  strings_TrimSpace : string -> string;
  filepath_Join : string -> string -> string;
  (** [path_within dir p]: the path [p] names [dir] or something below it,
      which is what [os.RemoveAll dir] deletes. *)
  path_within : string -> string -> bool
}.

(** ** A small implementation of the library interface

    Enough of the Go library to run the pipeline on sample inputs: URLs are
    their text ("%" alone does not parse), resolution appends the reference to
    the base, [TrimSpace] trims the ASCII white space and paths are joined
    with a slash. *)

Module Sample.
Definition is_space (c : ascii) : bool :=
  bool_decide (c = " "%char) || bool_decide (c = "009"%char) ||
  bool_decide (c = "010"%char) || bool_decide (c = "011"%char) ||
  bool_decide (c = "012"%char) || bool_decide (c = "013"%char).
Fixpoint trim_left (s : string) : string :=
  match s with
  | String c rest => if is_space c then trim_left rest else s
  | EmptyString => s
  end.
Definition trim (s : string) : string :=
  String.rev (trim_left (String.rev (trim_left s))).
#[global] Instance lib : GoLib := {|
  url_URL := string;
  url_Parse := fun s => if bool_decide (s = "%") then None else Some s;
  url_ResolveReference := fun base rel => base +:+ rel;
  url_String := fun u => u;
  strings_TrimSpace := trim;
  filepath_Join := fun dir name => dir +:+ "/" +:+ name;
  path_within := fun dir p => bool_decide (p = dir) || String.prefix (dir +:+ "/") p
|}.
(** A playlist of one line of 65536 bytes. *)
Definition long_line : string := string_of_list_ascii (replicate (N.to_nat 65536) "a"%char).
End Sample.

(** ** The file system

    A map from paths to file contents.  Each operation takes the fault the
    environment injects into this call; without a fault it behaves as POSIX
    does on regular files. *)

Module OS.

Definition Create (name : string) (fs : gmap string bytes) : gmap string bytes :=
  <[name := []]> fs.

(** Bytes written through an open handle are appended to the file. *)
Definition Append (name : string) (data : bytes) (fs : gmap string bytes)
  : gmap string bytes :=
  alter (fun old => old ++ data) name fs.

Definition Remove (fault : bool) (name : string) (fs : gmap string bytes)
  : option error * gmap string bytes :=
  if fault then (Some (ErrSys "remove" name), fs)
  else match fs !! name with
       | Some _ => (None, delete name fs)
       | None => (Some (ErrSys "remove" name), fs)
       end.

(** [os.Rename]: replaces the target when it exists. *)
Definition Rename (fault : bool) (oldpath newpath : string)
    (fs : gmap string bytes) : option error * gmap string bytes :=
  if fault then (Some (ErrSys "rename" oldpath), fs)
  else match fs !! oldpath with
       | Some content => (None, <[newpath := content]> (delete oldpath fs))
       | None => (Some (ErrSys "rename" oldpath), fs)
       end.

(** [os.Stat]: the size of the file, or an error. *)
Definition Stat (fault : bool) (name : string) (fs : gmap string bytes)
  : Z + error :=
  match fs !! name with
  | Some content =>
      if fault then inr (ErrSys "stat" name) else inl (Z.of_nat (length content))
  | None => inr (ErrSys "stat" name)
  end.

(** [os.IsNotExist] of the error of [os.Stat]. *)
Definition NotExist (name : string) (fs : gmap string bytes) : bool :=
  bool_decide (fs !! name = None).

End OS.

(** ** The Playlist Resolver: [ParseSegments] and [utils.ResolveURL] *)

Module Parser.
Section with_lib.
Context `{GoLib}.

(** [utils.ResolveURL] *)
Definition ResolveURL (baseURL relURL : string) : string :=
  match url_Parse baseURL with
  | None => relURL
  | Some base =>
      match url_Parse relURL with
      | None => relURL
      | Some rel => url_String (url_ResolveReference base rel)
      end
  end.

(** [bufio.MaxScanTokenSize], the limit of a [bufio.Scanner] that was given
    no buffer of its own. *)
Definition MaxScanTokenSize : N := 64 * 1024.

Definition newline : ascii := "010"%char.
Definition carriage_return : ascii := "013"%char.

(** The input cut at each newline; the newlines are dropped and a last piece
    with no newline after it is a line when it is not empty. *)
Fixpoint raw_lines_from (line : string) (s : string) : list string :=
  match s with
  | EmptyString => if decide (line = "") then [] else [String.rev line]
  | String c rest =>
      if decide (c = newline) then String.rev line :: raw_lines_from "" rest
      else raw_lines_from (String c line) rest
  end.

Definition raw_lines (s : string) : list string := raw_lines_from "" s.

(** [dropCR] of [bufio.ScanLines]: one carriage return at the end goes. *)
Definition dropCR (line : string) : string :=
  match String.rev line with
  | String c rest => if decide (c = carriage_return) then String.rev rest else line
  | EmptyString => line
  end.

Definition HasPrefix (s prefix : string) : bool := String.prefix prefix s.

(** The [for scanner.Scan()] loop over the lines still to come.  A line of
    [MaxScanTokenSize] bytes or more does not fit the scanner's buffer:
    [Scan] returns false there and [scanner.Err()] is [bufio.ErrTooLong]. *)
Fixpoint scan_loop (baseURL : string) (lines : list string)
    (segments : list string) : list string * option error :=
  match lines with
  | [] => (segments, None)
  | raw :: rest =>
      if (MaxScanTokenSize <=? N.of_nat (String.length raw))%N
      then (segments, Some ErrTooLong)
      else
        let line := dropCR raw in
        let line := strings_TrimSpace line in
        if bool_decide (line = "") || HasPrefix line "#"
        then scan_loop baseURL rest segments
        else
          let line := if negb (HasPrefix line "http")
                      then ResolveURL baseURL line else line in
          scan_loop baseURL rest (segments ++ [line])
  end.

Definition ParseSegments (content baseURL : string)
  : list string * option error :=
  let '(segments, err) := scan_loop baseURL (raw_lines content) [] in
  match err with
  | Some e => ([], Some e)
  | None => (segments, None)
  end.

(** A line the scanner's buffer can hold. *)
Definition short (raw : string) : Prop :=
  (N.of_nat (String.length raw) < MaxScanTokenSize)%N.

(** What one line of the playlist contributes, in the words of the
    specification: nothing when it is empty or a comment; itself when it
    begins with "http"; else its resolution against the base URL. *)
Definition segment_of_line (baseURL raw : string) : option string :=
  let line := strings_TrimSpace (dropCR raw) in
  if bool_decide (line = "") || HasPrefix line "#" then None
  else if HasPrefix line "http" then Some line
  else Some (ResolveURL baseURL line).

End with_lib.
End Parser.

(** ** The downloader: [internal/downloader/downloader.go] *)

Module Downloader.

Definition downloadBufferSize : nat := 4 * 1024 * 1024.
Definition mergeBufferSize : nat := 1 * 1024 * 1024.

(** [config.Config] *)
Record Config : Type := {
  URL : string;
  OutputDir : string;
  Output : string;
  MaxRetry : Z;
  Threads : Z; Timeout : Z;
  ValidateFiles : bool
}.

(** What the network and the operating system answer during one call of
    [downloadFile]. *)
Record fetch_env : Type := {
  request_err : bool;      (* http.NewRequestWithContext fails *)
  do_err : bool;           (* client.Do fails: no connection, deadline exceeded *)
  status : Z;              (* resp.StatusCode *)
  body : bytes;            (* the response body *)
  create_err : bool;       (* os.Create(tempFileName) fails *)
  copy_err : option nat;   (* io.Copy fails once this many bytes are in the file *)
  flush_err : option nat;  (* Flush fails once this many bytes are in the file *)
  rename_err : bool;       (* os.Rename fails *)
  remove_err : bool        (* os.Remove(tempFileName) fails *)
}.

(** What the operating system answers during one call of [mergeSegments];
    the answers about an input file are indexed by its position in the
    list. *)
Record merge_env : Type := {
  m_create_err : bool;            (* os.Create(tempOutputFile) fails *)
  m_open_err : nat -> bool;       (* os.Open of an input fails *)
  m_read_err : nat -> option nat; (* reader.Read fails at this chunk of an input *)
  m_write_err : nat -> option nat;(* bufferedWriter.Write fails at this chunk *)
  m_flush_err : nat -> bool;      (* the Flush after an input fails *)
  m_final_flush_err : bool;       (* the Flush after the loop fails *)
  m_stat_output_err : bool;       (* os.Stat(Output) fails on an existing file *)
  m_remove_output_err : bool;     (* os.Remove(Output) fails *)
  m_rename_err : bool;            (* os.Rename(tempOutputFile, Output) fails *)
  m_remove_temp_err : bool        (* os.Remove(tempOutputFile) fails *)
}.

(** The environment of one run of the pipeline. *)
Record Env : Type := {
  (** the call of [downloadFile] for ordinal [i] in round [retryCount]
      (round 0 is the first download attempt) *)
  fetch : Z -> nat -> fetch_env;
  (** the order in which the workers of a round, launched for the given
      ordinals, get to record their outcome under [mu] *)
  completion : Z -> list nat -> list nat;
  stat_err : nat -> bool;           (* os.Stat of slot [i] in the verify loop *)
  validate : nat -> Validator.env;  (* ValidateTS of slot [i] *)
  merge : merge_env;
  cleanup_remove_err : nat -> bool; (* os.Remove(file) of the clean-up loop *)
  removeall_keeps : string -> bool  (* paths os.RemoveAll fails to delete *)
}.

(** The effects of the scheduler besides the file system. *)
Inductive event : Type :=
| Sleep (seconds : Z)                                (* time.Sleep *)
| Fetch (retryCount : Z) (i : nat) (err : option error).
                                                     (* a call of downloadFile returned *)

(** The variables of [downloadSegments] that its workers share, with the file
    system and the effects so far.  [progress] and [errorOccurred] only
    steer what is printed and are left out with the printing. *)
Record state : Type := {
  files : gmap string bytes;
  trace : list event;
  segmentFiles : list string;
  failedSegments : list nat
}.

(** *** [downloadFile] *)

Definition downloadFile (e : fetch_env) (url fileName : string)
    (fs : gmap string bytes) : option error * gmap string bytes :=
  if request_err e then (Some (ErrSys "request" url), fs) else
  if do_err e then (Some (ErrSys "do" url), fs) else
  if negb (status e =? 200)%Z then (Some (ErrHTTPStatus (status e)), fs) else
  let tempFileName := fileName +:+ ".tmp" in
  if create_err e then (Some (ErrSys "create" tempFileName), fs) else
  let fs := OS.Create tempFileName fs in
  match copy_err e with
  | Some k =>
      let fs := OS.Append tempFileName (take k (body e)) fs in
      (Some (ErrSys "copy" tempFileName),
       (OS.Remove (remove_err e) tempFileName fs).2)
  | None =>
      match flush_err e with
      | Some k =>
          let fs := OS.Append tempFileName (take k (body e)) fs in
          (Some (ErrSys "flush" tempFileName),
           (OS.Remove (remove_err e) tempFileName fs).2)
      | None =>
          let fs := OS.Append tempFileName (body e) fs in
          match OS.Rename (rename_err e) tempFileName fileName fs with
          | (Some err, fs) =>
              (Some err, (OS.Remove (remove_err e) tempFileName fs).2)
          | (None, fs) => (None, fs)
          end
      end
  end.

(** The environment lets this call of [downloadFile] succeed. *)
Definition fetch_ok (e : fetch_env) : bool :=
  negb (request_err e) && negb (do_err e) && (status e =? 200)%Z &&
  negb (create_err e) && bool_decide (copy_err e = None) &&
  bool_decide (flush_err e = None) && negb (rename_err e).

(** *** The calls of [downloadFile] to the operating system *)

(** The calls [downloadFile] makes to the operating system. *)
Inductive os_call : Type :=
| CallCreate (name : string)                  (* os.Create *)
| CallWrite (name : string) (data : bytes)    (* the bytes that reach the file
                                                 through bufferedWriter, by
                                                 io.Copy and Flush *)
| CallRename (oldpath newpath : string)       (* os.Rename *)
| CallRemove (name : string).                 (* os.Remove *)

(** What a call does to the file system under the faults of [e]. *)
Definition do_call (e : fetch_env) (fs : gmap string bytes) (c : os_call)
  : gmap string bytes :=
  match c with
  | CallCreate name => if create_err e then fs else OS.Create name fs
  | CallWrite name data => OS.Append name data fs
  | CallRename oldpath newpath => (OS.Rename (rename_err e) oldpath newpath fs).2
  | CallRemove name => (OS.Remove (remove_err e) name fs).2
  end.

(** The calls of [downloadFile] to the operating system, in the order of the
    source: nothing before the response is there with status 200; then the
    temporary file is created and written; a failed copy or flush ends with
    the removal of the temporary file; else comes the rename, and the removal
    when the rename fails. *)
Definition downloadFile_calls (e : fetch_env) (fileName : string)
  : list os_call :=
  if request_err e then [] else
  if do_err e then [] else
  if negb (status e =? 200)%Z then [] else
  let tempFileName := fileName +:+ ".tmp" in
  if create_err e then [CallCreate tempFileName] else
  match copy_err e with
  | Some k =>
      [CallCreate tempFileName; CallWrite tempFileName (take k (body e));
       CallRemove tempFileName]
  | None =>
      match flush_err e with
      | Some k =>
          [CallCreate tempFileName; CallWrite tempFileName (take k (body e));
           CallRemove tempFileName]
      | None =>
          [CallCreate tempFileName; CallWrite tempFileName (body e);
           CallRename tempFileName fileName] ++
          (if rename_err e then [CallRemove tempFileName] else [])
      end
  end.

Section with_config.
Context `{GoLib}.
Variable cfg : Config.
Variable E : Env.

(** [fmt.Sprintf("segment_%05d.ts", i)] *)
Definition segment_name (i : nat) : string :=
  let digits := pretty i in
  "segment_" +:+ String.concat "" (replicate (5 - String.length digits) "0")
             +:+ digits +:+ ".ts".

(** [filepath.Join(d.config.OutputDir, fmt.Sprintf("segment_%05d.ts", i))] *)
Definition segment_path (i : nat) : string :=
  filepath_Join (OutputDir cfg) (segment_name i).

(** *** [downloadSegments] *)

(** The body of a worker goroutine from the moment it holds its semaphore
    slot, for ordinal [i] in round [retryCount].  What it does to the shared
    variables happens under [mu]; its file operations touch the paths of its
    own ordinal only, so a worker is run here as one step, at the position
    [completion] gives it.  [ctx_done] is what [<-ctx.Done()] finds. *)
Definition worker (ctx_done : bool) (segments : list string)
    (retryCount : Z) (st : state) (i : nat) : state :=
  if ctx_done then st else
  let fileName := segment_path i in
  let '(err, fs) :=
    downloadFile (fetch E retryCount i) (segments !!! i) fileName (files st) in
  match err with
  | None =>
      {| files := fs;
         trace := trace st ++ [Fetch retryCount i err];
         segmentFiles := <[i := fileName]> (segmentFiles st);
         failedSegments := failedSegments st |}
  | Some _ =>
      {| files := fs;
         trace := trace st ++ [Fetch retryCount i err];
         segmentFiles := segmentFiles st;
         failedSegments := failedSegments st ++ [i] |}
  end.

(** One round: a worker per ordinal of [tasks], then [Wait].  The workers
    append to a failure list that starts empty ([failedSegments] in the first
    pass, [stillFailedSegments] in a retry round, which the loop then assigns
    to [failedSegments]).  [cancel] is only deferred to the return of
    [downloadSegments], so no worker finds the context done. *)
Definition run_round (segments : list string) (retryCount : Z)
    (tasks : list nat) (st : state) : state :=
  foldl (worker false segments retryCount)
    {| files := files st; trace := trace st;
       segmentFiles := segmentFiles st; failedSegments := [] |}
    (completion E retryCount tasks).

(** [time.Sleep(time.Duration(retryCount) * time.Second)] *)
Definition sleep (retryCount : Z) (st : state) : state :=
  {| files := files st; trace := trace st ++ [Sleep retryCount];
     segmentFiles := segmentFiles st; failedSegments := failedSegments st |}.

(** [for retryCount := 1; retryCount <= d.config.MaxRetry; retryCount++],
    entered at [retryCount]. *)
Equations retry_loop (segments : list string) (retryCount : Z) (st : state)
  : state by wf (Z.to_nat (MaxRetry cfg + 1 - retryCount)) lt :=
  retry_loop segments retryCount st
    with decide (retryCount <= MaxRetry cfg)%Z => {
    | right _ => st
    | left _ =>
        if bool_decide (length (failedSegments st) = 0) then st
        else retry_loop segments (retryCount + 1)
               (run_round segments retryCount (failedSegments st)
                  (sleep retryCount st))
  }.
Next Obligation. lia. Qed.

(** The loop "Verify all segments", at slot [i] with the slots from [i] on.
    The ordinals in its errors are [i+1]. *)
Fixpoint verify_loop (fs : gmap string bytes) (i : nat) (slots : list string)
  : option error :=
  match slots with
  | [] => None
  | file :: rest =>
      if bool_decide (file = "") then Some (ErrMissing (Z.of_nat i + 1)) else
      match OS.Stat (stat_err E i) file fs with
      | inr err => Some (ErrCannotAccess (Z.of_nat i + 1) err)
      | inl size =>
          if (size =? 0)%Z then Some (ErrEmpty (Z.of_nat i + 1)) else
          if ValidateFiles cfg then
            match Validator.ValidateTS (validate E i) file fs with
            | Some err => Some (ErrIntegrity (Z.of_nat i + 1) err)
            | None => verify_loop fs (S i) rest
            end
          else verify_loop fs (S i) rest
      end
  end.

(** The checks of the verify loop on slot [i]: the error the loop returns
    at this slot, if any. *)
Definition check_slot (fs : gmap string bytes) (i : nat) (file : string)
  : option error :=
  if bool_decide (file = "") then Some (ErrMissing (Z.of_nat i + 1)) else
  match OS.Stat (stat_err E i) file fs with
  | inr err => Some (ErrCannotAccess (Z.of_nat i + 1) err)
  | inl size =>
      if (size =? 0)%Z then Some (ErrEmpty (Z.of_nat i + 1)) else
      if ValidateFiles cfg then
        match Validator.ValidateTS (validate E i) file fs with
        | Some err => Some (ErrIntegrity (Z.of_nat i + 1) err)
        | None => None
        end
      else None
  end.

(** The first download attempt: the shared variables as [downloadSegments]
    declares them, then one worker per segment. *)
Definition first_pass (segments : list string) (fs : gmap string bytes)
  : state :=
  run_round segments 0 (seq 0 (length segments))
    {| files := fs; trace := [];
       segmentFiles := replicate (length segments) "";
       failedSegments := [] |}.

(** The two download phases of [downloadSegments], up to the verify loop, as
    they run when [Threads] is positive.  With [Threads] at zero or below no
    worker gets to its [downloadFile]; [downloadSegments] below tells that
    case apart. *)
Definition download_phases (segments : list string) (fs : gmap string bytes)
  : state :=
  retry_loop segments 1 (first_pass segments fs).

(** [downloadSegments].  [None]: the call does not return.
    [make(chan struct{}, Threads)] panics on a negative size, and on a channel
    of size 0 every worker blocks in [semaphore <- struct{}{}] for ever. *)
Definition downloadSegments (segments : list string) (fs : gmap string bytes)
  : option (list string * option error * state) :=
  if decide (Threads cfg < 0)%Z then None
  else if decide (Threads cfg = 0%Z /\ segments <> []) then None
  else
    let st := download_phases segments fs in
    match verify_loop (files st) 0 (segmentFiles st) with
    | Some err => Some ([], Some err, st)
    | None => Some (segmentFiles st, None, st)
    end.

(** *** [mergeSegments] *)

Definition tempOutputFile : string := Output cfg +:+ ".tmp".

(** [out.Close(); os.Remove(tempOutputFile); return err] *)
Definition discard_temp (err : error) (fs : gmap string bytes)
  : option error * gmap string bytes :=
  (Some err, (OS.Remove (m_remove_temp_err (merge E)) tempOutputFile fs).2).

(** The inner [for] of the merge, at chunk [k] of input [i]: [reader.Read]
    fills [buffer] with the next [mergeBufferSize] bytes of what remains of
    the input, the loop ends on an empty read, and each chunk goes through
    [bufferedWriter] to the temporary output.  The bytes the writer still
    buffers are counted as part of the file; they differ from it only until
    the next [Flush]. *)
Equations copy_chunks (file : string) (i k : nat) (remaining : bytes)
    (fs : gmap string bytes)
  : option error * gmap string bytes by wf (length remaining) lt :=
  copy_chunks file i k remaining fs
    with decide (m_read_err (merge E) i = Some k) => {
    | left _ => (Some (ErrSys "read" file), fs)
    | right _ with decide (take mergeBufferSize remaining = []) => {
      | left _ => (None, fs)
      | right _ with decide (m_write_err (merge E) i = Some k) => {
        | left _ => (Some (ErrSys "write" tempOutputFile), fs)
        | right _ =>
            copy_chunks file i (S k) (drop mergeBufferSize remaining)
              (OS.Append tempOutputFile (take mergeBufferSize remaining) fs)
        }
      }
  }.
Next Obligation.
  rewrite length_drop. revert n0. generalize mergeBufferSize.
  intros [|m]; [by rewrite take_0|]. destruct remaining; [done|]. simpl. lia.
Qed.

(** The outer [for i, file := range segmentFiles], at input [i]. *)
Fixpoint merge_loop (i : nat) (inputs : list string) (fs : gmap string bytes)
  : option error * gmap string bytes :=
  match inputs with
  | [] => (None, fs)
  | file :: rest =>
      if OS.NotExist file fs
      then discard_temp (ErrSegmentFileMissing file) fs else
      match (if m_open_err (merge E) i then None else fs !! file) with
      | None => discard_temp (ErrSys "open" file) fs
      | Some content =>
          match copy_chunks file i 0 content fs with
          | (Some err, fs) => discard_temp err fs
          | (None, fs) =>
              if m_flush_err (merge E) i
              then discard_temp (ErrSys "flush" tempOutputFile) fs
              else merge_loop (S i) rest fs
          end
      end
  end.

Definition mergeSegments (segmentFiles : list string) (fs : gmap string bytes)
  : option error * gmap string bytes :=
  if m_create_err (merge E) then (Some (ErrSys "create" tempOutputFile), fs) else
  let fs := OS.Create tempOutputFile fs in
  match merge_loop 0 segmentFiles fs with
  | (Some err, fs) => (Some err, fs)
  | (None, fs) =>
      if m_final_flush_err (merge E)
      then discard_temp (ErrSys "flush" tempOutputFile) fs else
      let remove_existing :=
        match OS.Stat (m_stat_output_err (merge E)) (Output cfg) fs with
        | inl _ => OS.Remove (m_remove_output_err (merge E)) (Output cfg) fs
        | inr _ => (None, fs)
        end in
      match remove_existing with
      | (Some err, fs) =>
          (Some (ErrRemoveExisting err),
           (OS.Remove (m_remove_temp_err (merge E)) tempOutputFile fs).2)
      | (None, fs) =>
          match OS.Rename (m_rename_err (merge E)) tempOutputFile (Output cfg) fs with
          | (Some err, fs) =>
              (Some (ErrRenameTemp err),
               (OS.Remove (m_remove_temp_err (merge E)) tempOutputFile fs).2)
          | (None, fs) => (None, fs)
          end
      end
  end.

(** *** [Download]

    The part of [Download] from [ParseSegments] on.  The lines before it fetch
    the playlist (and the variant playlist of a master playlist) over HTTP and
    leave the file system alone; [playlistContent] and [baseURL] are what they
    hand over.  The whole of [Download], with these lines, is [Run.Download]
    below. *)

(** [for _, file := range segmentFiles { os.Remove(file) }], at index [i]. *)
Fixpoint remove_segments (i : nat) (segmentFiles : list string)
    (fs : gmap string bytes) : gmap string bytes :=
  match segmentFiles with
  | [] => fs
  | file :: rest =>
      remove_segments (S i) rest (OS.Remove (cleanup_remove_err E i) file fs).2
  end.

(** [os.RemoveAll(d.config.OutputDir)] *)
Definition RemoveAll (dir : string) (fs : gmap string bytes)
  : gmap string bytes :=
  filter (fun kv => negb (path_within dir kv.1) || removeall_keeps E kv.1 = true) fs.

Definition Download (playlistContent baseURL : string) (fs : gmap string bytes)
  : option (option error * gmap string bytes * list event) :=
  match Parser.ParseSegments playlistContent baseURL with
  | (_, Some err) => Some (Some (ErrWrap "error parsing segments" err), fs, [])
  | (segments, None) =>
      if bool_decide (length segments = 0) then Some (Some ErrNoSegments, fs, [])
      else
        match downloadSegments segments fs with
        | None => None
        | Some (_, Some err, st) =>
            Some (Some (ErrWrap "error downloading segments" err),
                  files st, trace st)
        | Some (segmentFiles, None, st) =>
            match mergeSegments segmentFiles (files st) with
            | (Some err, fs) =>
                Some (Some (ErrWrap "error merging segments" err), fs, trace st)
            | (None, fs) =>
                let fs := remove_segments 0 segmentFiles fs in
                let fs := RemoveAll (OutputDir cfg) fs in
                Some (None, fs, trace st)
            end
        end
  end.

(** *** Notions the properties are stated with *)

(** The workers of a round record their outcomes in some order: [completion]
    permutes the ordinals the round was launched for. *)
Definition fair_completion : Prop :=
  forall retryCount tasks, completion E retryCount tasks ≡ₚ tasks.

(** The error [downloadFile] returns for ordinal [i] in round [retryCount]
    (it does not depend on the file system). *)
Definition attempt_error (segments : list string) (retryCount : Z) (i : nat)
  : option error :=
  (downloadFile (fetch E retryCount i) (segments !!! i) (segment_path i) ∅).1.

(** The staging paths of the first [n] ordinals: the segment files and their
    temporary files. *)
Definition segment_paths (n : nat) : list string :=
  segment_path <$> seq 0 n.
Definition segment_temp_paths (n : nat) : list string :=
  (fun i => segment_path i +:+ ".tmp") <$> seq 0 n.

(** No fault of the operating system during the merge. *)
Definition merge_runs_clean : Prop :=
  m_create_err (merge E) = false /\
  (forall i, m_open_err (merge E) i = false /\ m_read_err (merge E) i = None /\
             m_write_err (merge E) i = None /\ m_flush_err (merge E) i = false) /\
  m_final_flush_err (merge E) = false /\
  m_remove_output_err (merge E) = false /\
  m_rename_err (merge E) = false.

(** The removals of temporary files work. *)
Definition removals_work : Prop :=
  (forall retryCount i, remove_err (fetch E retryCount i) = false) /\
  m_remove_temp_err (merge E) = false.

(** The slots after the worker of ordinal [i] in round [retryCount]. *)
Definition fill (retryCount : Z) (slots : list string) (i : nat) : list string :=
  if fetch_ok (fetch E retryCount i) then <[i := segment_path i]> slots else slots.

(** What holds of the slots between rounds, for [n] segments: there are [n]
    of them, each is empty or holds the path of its own ordinal, and the slot
    of an ordinal whose download succeeded is filled. *)
Definition sched_inv (n : nat) (st : state) : Prop :=
  length (segmentFiles st) = n /\
  (forall j x, segmentFiles st !! j = Some x -> x = "" \/ x = segment_path j) /\
  (forall r j, Fetch r j None ∈ trace st -> j < n ->
     segmentFiles st !! j = Some (segment_path j)).

(** A failure set: ordinals of the playlist, each once. *)
Definition tasks_ok (n : nat) (tasks : list nat) : Prop :=
  NoDup tasks /\ forall j, j ∈ tasks -> j < n.

(** What the download phases do to the file system [fs0] they start from:
    paths outside the staging paths are untouched, and a temporary staging
    path is gone or as it was once the removals work. *)
Definition files_inv (n : nat) (fs0 fs : gmap string bytes) : Prop :=
  (forall p, p ∉ segment_paths n -> p ∉ segment_temp_paths n ->
     fs !! p = fs0 !! p) /\
  (removals_work -> forall q, q ∈ segment_temp_paths n ->
     q ∉ segment_paths n -> fs !! q = None \/ fs !! q = fs0 !! q).

(** A slot passes the checks of the verify loop: it is filled, its file is
    there and not empty, and it validates when validation is on. *)
Definition slot_passes (fs : gmap string bytes) (i : nat) (file : string) : Prop :=
  file <> "" /\
  exists content,
    fs !! file = Some content /\ stat_err E i = false /\ content <> [] /\
    (ValidateFiles cfg = true ->
       Validator.ValidateTS (validate E i) file fs = None).

(** The output path and its temporary path are no staging paths, and no
    temporary staging path is the path of a segment file. *)
Definition separate_paths (n : nat) : Prop :=
  (Output cfg ∉ segment_paths n) /\ (Output cfg ∉ segment_temp_paths n) /\
  (tempOutputFile ∉ segment_paths n) /\ (tempOutputFile ∉ segment_temp_paths n) /\
  Forall (fun q => q ∉ segment_paths n) (segment_temp_paths n).

(** The seconds slept, in order. *)
Definition sleeps (tr : list event) : list Z :=
  omap (fun ev => match ev with Sleep d => Some d | Fetch _ _ _ => None end) tr.

(** Whether an event is a call of [downloadFile] for ordinal [i]. *)
Definition fetches (i : nat) (ev : event) : Prop :=
  match ev with Fetch _ j _ => j = i | Sleep _ => False end.

(** In the effects [tr] a successful download of an ordinal is the last call
    for that ordinal, and the ordinal is not in the failure set. *)
Definition success_last (tr : list event) (failed : list nat) : Prop :=
  forall tr1 r i tr2, tr = tr1 ++ Fetch r i None :: tr2 ->
    Forall (fun ev => ~ fetches i ev) tr2 /\ i ∉ failed.

(** Every call in [tr] is for an ordinal below [n]. *)
Definition fetches_below (n : nat) (tr : list event) : Prop :=
  forall r i e, Fetch r i e ∈ tr -> i < n.

(** What holds of the scheduler between rounds. *)
Definition run_inv (n : nat) (st : state) : Prop :=
  sched_inv n st /\ tasks_ok n (failedSegments st) /\
  success_last (trace st) (failedSegments st) /\
  fetches_below n (trace st).

(** The retry phase in the words of the specification, from round
    [retryCount] on with the failure set [failed]: it stops when the failure
    set is empty or the rounds are used up; otherwise it sleeps [retryCount]
    seconds, re-attempts the ordinals of the failure set in some order, and
    goes on with those that failed again.  It relates the effects of the
    phase and the failure set it ends with. *)
Inductive retry_rounds (segments : list string)
  : Z -> list nat -> list event -> list nat -> Prop :=
| retry_stop_empty retryCount :
    retry_rounds segments retryCount [] [] []
| retry_stop_budget retryCount failed :
    (MaxRetry cfg < retryCount)%Z ->
    retry_rounds segments retryCount failed [] failed
| retry_round retryCount failed order tr failed' :
    (retryCount <= MaxRetry cfg)%Z ->
    failed <> [] ->
    order ≡ₚ failed ->
    retry_rounds segments (retryCount + 1)
      (filter (fun i => fetch_ok (fetch E retryCount i) = false) order)
      tr failed' ->
    retry_rounds segments retryCount failed
      (Sleep retryCount ::
       ((fun i => Fetch retryCount i (attempt_error segments retryCount i))
          <$> order) ++ tr)
      failed'.

End with_config.
End Downloader.

(** ** The worker pool of [downloadSegments]

    The goroutines of [downloadSegments] as a transition system: which workers
    exist, where each of them stands in its body, how many tokens the
    [semaphore] channel holds, whether the context is cancelled.  The first
    pass and every retry round launch their workers into this one pool: the
    channel is made once, before the first [go]. *)

Module Pool.

(** Where a worker stands in
    [semaphore <- struct{}{}; defer func() { <-semaphore }();
     select { case <-ctx.Done(): return; default: }; ... downloadFile ...]. *)
Inductive pc : Type :=
| Queued     (* launched, at the send [semaphore <- struct{}{}] *)
| Acquired   (* its token is in the channel, at the [select] *)
| Fetching   (* past the [select]: in [downloadFile] or recording its outcome *)
| Finished.  (* returned; the deferred [<-semaphore] took a token back *)

#[global] Instance pc_eq_dec : EqDecision pc.
Proof. solve_decision. Defined.

Record pool : Type := {
  capacity : nat;          (* cap(semaphore) = Threads *)
  tokens : nat;            (* len(semaphore) *)
  ctx_done : bool;         (* ctx.Done() is closed *)
  workers : list pc
}.

(** [semaphore := make(chan struct{}, Threads)]; [make] panics on a negative
    size. *)
Definition start (Threads : Z) : option pool :=
  if decide (Threads < 0)%Z then None
  else Some {| capacity := Z.to_nat Threads; tokens := 0;
               ctx_done := false; workers := [] |}.

Inductive action : Type :=
| Launch            (* a [go func(...)] statement of either loop *)
| Cancel            (* [cancel()] *)
| Step (w : nat).   (* worker [w] moves on to its next point *)

Definition set_worker (p : pool) (w : nat) (c : pc) (tokens' : nat) : pool :=
  {| capacity := capacity p; tokens := tokens';
     ctx_done := ctx_done p; workers := <[w := c]> (workers p) |}.

(** One move of worker [w]; [None] when it has none (it is blocked in its
    send on the full channel, or it has returned, or it does not exist). *)
Definition step_worker (p : pool) (w : nat) : option pool :=
  match workers p !! w with
  | Some Queued =>
      if decide (tokens p < capacity p)
      then Some (set_worker p w Acquired (S (tokens p)))
      else None
  | Some Acquired =>
      if ctx_done p
      then Some (set_worker p w Finished (pred (tokens p)))
      else Some (set_worker p w Fetching (tokens p))
  | Some Fetching => Some (set_worker p w Finished (pred (tokens p)))
  | Some Finished | None => None
  end.

(** A move of the pool.  [Cancel] is free here: the pool alone does not say
    when [cancel()] is called.  The runs of [downloadSegments], where it is
    called on return only, are in [Program] below. *)
Definition exec (p : pool) (a : action) : option pool :=
  match a with
  | Launch =>
      Some {| capacity := capacity p; tokens := tokens p;
              ctx_done := ctx_done p; workers := workers p ++ [Queued] |}
  | Cancel =>
      Some {| capacity := capacity p; tokens := tokens p;
              ctx_done := true; workers := workers p |}
  | Step w => step_worker p w
  end.

Fixpoint run (p : pool) (acts : list action) : option pool :=
  match acts with
  | [] => Some p
  | a :: rest =>
      match exec p a with
      | Some p' => run p' rest
      | None => None
      end
  end.

Definition count_at (c : pc) (p : pool) : nat :=
  length (filter (fun x => x = c) (workers p)).

(** The fetch operations in flight. *)
Definition in_flight (p : pool) : nat := count_at Fetching p.

(** The workers whose token is in the channel. *)
Definition holds_slot (c : pc) : Prop := c = Acquired \/ c = Fetching.

#[global] Instance holds_slot_dec c : Decision (holds_slot c).
Proof. unfold holds_slot. apply _. Defined.

Definition holders (p : pool) : nat := length (filter holds_slot (workers p)).

(** The invariant of the pool: the channel holds one token per worker between
    its send and its deferred receive, and no more than its capacity. *)
Definition pool_inv (p : pool) : Prop :=
  tokens p = holders p /\ tokens p <= capacity p.

(** The points a worker can be at when it never fetches. *)
Definition skipping (c : pc) : Prop := c = Queued \/ c = Acquired \/ c = Finished.

(** Two pools whose context is cancelled: a free channel and a queued
    worker; a full channel, its holder still fetching, and a queued worker. *)
Definition cancelled_pool : pool :=
  {| capacity := 1; tokens := 0; ctx_done := true; workers := [Queued] |}.
Definition busy_cancelled_pool : pool :=
  {| capacity := 1; tokens := 1; ctx_done := true;
     workers := [Fetching; Queued] |}.

End Pool.

(** ** [downloadSegments] and its goroutines

    The pool together with the point [downloadSegments] itself has reached:
    which statements launch workers, where it waits for them, and when it
    raises the cancellation signal. *)

Module Program.
Import Pool.

(** Where [downloadSegments] itself stands, as far as its goroutines go. *)
Inductive main_pc : Type :=
| Launching (k : nat)  (* in the [for] loop of a round, [k] [go] statements
                          still to come, then the [Wait()] of the round *)
| Between              (* past a [Wait()]: at the head of the retry loop, or
                          past it in the verify loop *)
| Returned.            (* [downloadSegments] has returned and the deferred
                          [cancel()] has run *)

Inductive move : Type :=
| Go              (* a [go func(...)] statement *)
| Wait            (* [wg.Wait()] or [retryWg.Wait()] returns *)
| Round (k : nat) (* the retry loop enters a round for [k] failed segments *)
| Return          (* a [return] of [downloadSegments], with [cancel()] *)
| Work (w : nat). (* worker [w] moves on to its next point *)

(** One move.  A [Wait()] returns when every worker that was launched has
    called [Done], which is deferred to its return; [cancel()] is only
    deferred to the return of [downloadSegments]. *)
Definition exec_main (s : main_pc * pool) (m : move)
  : option (main_pc * pool) :=
  match m, s.1 with
  | Go, Launching (S k) => (fun p => (Launching k, p)) <$> exec s.2 Launch
  | Wait, Launching 0 =>
      if decide (Forall (eq Finished) (workers s.2)) then Some (Between, s.2)
      else None
  | Round k, Between => Some (Launching k, s.2)
  | Return, Between => (fun p => (Returned, p)) <$> exec s.2 Cancel
  | Work w, pc => (fun p => (pc, p)) <$> exec s.2 (Step w)
  | _, _ => None
  end.

Fixpoint run_main (s : main_pc * pool) (ms : list move)
  : option (main_pc * pool) :=
  match ms with
  | [] => Some s
  | m :: rest =>
      match exec_main s m with
      | Some s' => run_main s' rest
      | None => None
      end
  end.

(** [downloadSegments] on [n] segments: the channel is made, then the first
    pass launches [n] workers. *)
Definition start_main (Threads : Z) (n : nat) : option (main_pc * pool) :=
  (fun p => (Launching n, p)) <$> start Threads.

(** What holds of the two together: a worker that has not returned keeps
    [downloadSegments] before the [Wait()] of its round, and the signal is
    raised exactly when [downloadSegments] has returned. *)
Definition main_inv (s : main_pc * pool) : Prop :=
  (ctx_done s.2 = true <-> s.1 = Returned) /\
  (s.1 = Between \/ s.1 = Returned -> Forall (eq Finished) (workers s.2)).

End Program.

(** ** Sample runs

    Configurations, environments and file systems on which the pipeline is
    run below. *)

Module Inputs.
Import Downloader.

(** A transport-stream packet. *)
Definition packet : bytes := x47 :: replicate 187 x00.

(** A media playlist of two segments, the second one relative. *)
Definition playlist : string := "#EXTM3U
http://host/dir/0.ts
1.ts
".
Definition base : string := "http://host/dir/".
Definition segments : list string :=
  ["http://host/dir/0.ts"; "http://host/dir/1.ts"].

Definition cfg (maxRetry : Z) (validateFiles : bool) : Config :=
  {| URL := "http://host/dir/list.m3u8"; OutputDir := "downloads";
     Output := "output.ts"; MaxRetry := maxRetry; Threads := 2; Timeout := 30;
     ValidateFiles := validateFiles |}.

(** A call of [downloadFile] in which everything works and the server sends
    [content]. *)
Definition fetch_ok (content : bytes) : fetch_env :=
  {| request_err := false; do_err := false; status := 200; body := content;
     create_err := false; copy_err := None; flush_err := None;
     rename_err := false; remove_err := false |}.

(** The connection fails. *)
Definition fetch_refused : fetch_env :=
  {| request_err := false; do_err := true; status := 0; body := [];
     create_err := false; copy_err := None; flush_err := None;
     rename_err := false; remove_err := false |}.

(** The body breaks off after its first byte. *)
Definition fetch_cut (content : bytes) : fetch_env :=
  {| request_err := false; do_err := false; status := 200; body := content;
     create_err := false; copy_err := Some 1; flush_err := None;
     rename_err := false; remove_err := false |}.

Definition merge_ok : merge_env :=
  {| m_create_err := false; m_open_err := fun _ => false;
     m_read_err := fun _ => None; m_write_err := fun _ => None;
     m_flush_err := fun _ => false; m_final_flush_err := false;
     m_stat_output_err := false; m_remove_output_err := false;
     m_rename_err := false; m_remove_temp_err := false |}.

(** An environment without faults of the operating system, with the given
    answers of the network and the given completion orders. *)
Definition env (answers : Z -> nat -> fetch_env)
    (order : Z -> list nat -> list nat) : Env :=
  {| fetch := answers; completion := order;
     stat_err := fun _ => false;
     validate := fun _ => {| Validator.open_err := false;
                             Validator.read_err := false |};
     merge := merge_ok;
     cleanup_remove_err := fun _ => false;
     removeall_keeps := fun _ => false |}.


(** The workers of a round complete in the reverse of their launch order. *)
Definition reversed : Z -> list nat -> list nat := fun _ tasks => reverse tasks.

(** The server refuses the second segment in the rounds before [upto] and
    sends a packet otherwise. *)
Definition second_refused (upto : Z) : Z -> nat -> fetch_env :=
  fun retryCount i =>
    if bool_decide (i = 1) && bool_decide (retryCount < upto)%Z
    then fetch_refused else fetch_ok packet.

(** The server sends an empty body for the first segment and refuses the
    others. *)
Definition first_empty : Z -> nat -> fetch_env :=
  fun _ i => if bool_decide (i = 0) then fetch_ok [] else fetch_refused.

End Inputs.

(** ** The variant selector: [IsMasterPlaylist], [parseBandwidth] and
    [SelectVariantStream] of [parser.go] *)

Module Master.
Import Parser.

(** The error of [SelectVariantStream]. *)
Inductive select_error : Type :=
| ErrNoValidStreams.      (* "no valid streams found in master playlist" *)

(** [strings.Index]: the byte offset of the first occurrence. *)
Definition strings_Index (s substr : string) : option nat :=
  String.index 0 substr s.

Definition strings_Contains (s substr : string) : bool :=
  match strings_Index s substr with Some _ => true | None => false end.

(** [s[n:]] *)
Definition slice_from (n : nat) (s : string) : string :=
  String.substring n (String.length s - n) s.

(** [IsMasterPlaylist] *)
Definition IsMasterPlaylist (content : string) : bool :=
  strings_Contains content "#EXT-X-STREAM-INF".

(** The variables of the loop of [SelectVariantStream]. *)
Record selection : Type := {
  highestBandwidth : Z;
  selectedURL : string;
  streamInfo : string
}.

Section with_lib.
Context `{GoLib}.

(** [fmt.Sscanf(part, "%d", &n)]: the number read, or [None] when the call
    returns an error and leaves [n] alone. *)
Variable Sscanf_d : string -> option Z.

(** [parseBandwidth] *)
Definition parseBandwidth (streamInfo : string) : Z :=
  match strings_Index streamInfo "BANDWIDTH=" with
  | Some idx =>
      let part := slice_from (idx + 10) streamInfo in
      match Sscanf_d part with
      | Some bandwidth => bandwidth
      | None => 0
      end
  | None => 0
  end.

(** The [for scanner.Scan()] loop of [SelectVariantStream] over the lines
    still to come.  [Scan] returns false at a line the scanner's buffer
    cannot hold; [SelectVariantStream] never looks at [scanner.Err()]. *)
Fixpoint select_loop (lines : list string) (st : selection) : selection :=
  match lines with
  | [] => st
  | raw :: rest =>
      if (MaxScanTokenSize <=? N.of_nat (String.length raw))%N then st
      else
        let line := dropCR raw in
        if HasPrefix line "#EXT-X-STREAM-INF"
        then select_loop rest
               {| highestBandwidth := highestBandwidth st;
                  selectedURL := selectedURL st; streamInfo := line |}
        else if negb (bool_decide (streamInfo st = "")) &&
                negb (HasPrefix line "#")
        then
          let bandwidth := parseBandwidth (streamInfo st) in
          if (highestBandwidth st <? bandwidth)%Z
          then select_loop rest
                 {| highestBandwidth := bandwidth; selectedURL := line;
                    streamInfo := "" |}
          else select_loop rest
                 {| highestBandwidth := highestBandwidth st;
                    selectedURL := selectedURL st; streamInfo := "" |}
        else select_loop rest st
  end.

(** [SelectVariantStream] *)
Definition SelectVariantStream (content baseURL : string)
  : string * option select_error :=
  let st := select_loop (raw_lines content)
              {| highestBandwidth := 0; selectedURL := ""; streamInfo := "" |} in
  if bool_decide (selectedURL st = "") then ("", Some ErrNoValidStreams)
  else
    let selectedURL :=
      if negb (HasPrefix (selectedURL st) "http")
      then ResolveURL baseURL (selectedURL st) else selectedURL st in
    (selectedURL, None).

(** *** Notions the properties are stated with *)

(** The variants of a master playlist as the loop reads them, with the lines
    still to come and the stream information [info] pending: a line that is
    no tag, paired with the stream-information line before it when nothing
    but other tags stands between the two. *)
Fixpoint variants (lines : list string) (info : string)
  : list (string * string) :=
  match lines with
  | [] => []
  | raw :: rest =>
      if (MaxScanTokenSize <=? N.of_nat (String.length raw))%N then []
      else
        let line := dropCR raw in
        if HasPrefix line "#EXT-X-STREAM-INF" then variants rest line
        else if HasPrefix line "#" then variants rest info
        else if bool_decide (info = "") then variants rest ""
        else (info, line) :: variants rest ""
  end.

(** The better of the best variant so far and the variant [v]: [v] has to
    have the strictly higher bandwidth. *)
Definition pick (best : Z * string) (v : string * string) : Z * string :=
  if (best.1 <? parseBandwidth v.1)%Z then (parseBandwidth v.1, v.2) else best.

(** [(info, uri)] is the first variant of the highest bandwidth among [vs],
    and that bandwidth is above [floor]. *)
Definition first_highest (floor : Z) (vs : list (string * string))
    (info uri : string) : Prop :=
  exists vs1 vs2,
    vs = vs1 ++ (info, uri) :: vs2 /\
    (floor < parseBandwidth info)%Z /\
    (forall v, v ∈ vs1 -> (parseBandwidth v.1 < parseBandwidth info)%Z) /\
    (forall v, v ∈ vs2 -> (parseBandwidth v.1 <= parseBandwidth info)%Z).

End with_lib.

(** Enough of [Sscanf] to run the selector on sample inputs: an unsigned
    decimal number at the start of the text. *)
Fixpoint sample_digits (s : string) (n : option Z) : option Z :=
  match s with
  | String c rest =>
      let d := (Z.of_N (N_of_ascii c) - 48)%Z in
      if decide (0 <= d <= 9)%Z
      then sample_digits rest (Some (10 * default 0 n + d)%Z)
      else n
  | EmptyString => n
  end.
Definition sample_Sscanf_d (s : string) : option Z := sample_digits s None.

(** A master playlist of two variants, the better one second. *)
Definition sample_playlist : string := "#EXTM3U
#EXT-X-STREAM-INF:BANDWIDTH=1280000,RESOLUTION=640x360
low/index.m3u8
#EXT-X-STREAM-INF:AVERAGE-BANDWIDTH=2000000,BANDWIDTH=2560000
http://cdn/high/index.m3u8
".

End Master.

(** ** The work left in the pool *)

Module Progress.
Import Pool.

(** The moves a worker still has before it returns: acquire, fetch or skip,
    release. *)
Definition moves_left (c : pc) : nat :=
  match c with Queued => 3 | Acquired => 2 | Fetching => 1 | Finished => 0 end.

Definition work_left (p : pool) : nat :=
  foldr (fun c n => moves_left c + n) 0 (workers p).

(** The worker moves and the launches among [acts]. *)
Fixpoint moves (acts : list action) : nat :=
  match acts with
  | [] => 0
  | Step _ :: rest => S (moves rest)
  | _ :: rest => moves rest
  end.
Fixpoint launches (acts : list action) : nat :=
  match acts with
  | [] => 0
  | Launch :: rest => S (launches rest)
  | _ :: rest => launches rest
  end.

End Progress.

(** ** The outcome of the download phases in closed form *)

Module Outcome.
Import Downloader.
Section with_config.
Context `{GoLib}.
Variable cfg : Config.
Variable E : Env.

(** Some call for ordinal [i] in the rounds [0 .. rounds-1] works. *)
Definition succeeds_by (i : nat) (rounds : nat) : bool :=
  existsb (fun k => fetch_ok (fetch E (Z.of_nat k) i)) (seq 0 rounds).

(** The calls the scheduler may make for one ordinal: the first attempt and
    [MaxRetry] retries. *)
Definition attempts_allowed : nat := S (Z.to_nat (MaxRetry cfg)).

#[global] Instance fetches_dec i ev : Decision (fetches i ev).
Proof. destruct ev; simpl; apply _. Defined.

(** The calls of [downloadFile] made for ordinal [i]. *)
Definition calls_for (i : nat) (tr : list event) : nat :=
  length (filter (fetches i) tr).

(** The rounds among [0 .. rounds-1] in which ordinal [i] is still to be
    downloaded. *)
Definition rounds_needed (i : nat) (rounds : nat) : nat :=
  length (filter (fun k => succeeds_by i k = false) (seq 0 rounds)).

(** The scheduler at the head of the retry loop, about to enter round [r]:
    the failure set holds the ordinals no call has worked for, the slots of
    the others are filled, and each ordinal was called for once in every
    round it was still to be downloaded in. *)
Definition closed_form (n : nat) (r : Z) (st : state) : Prop :=
  (1 <= r)%Z /\ (r <= Z.max 1 (MaxRetry cfg + 1))%Z /\
  NoDup (failedSegments st) /\
  (forall i, i ∈ failedSegments st -> i < n) /\
  length (segmentFiles st) = n /\
  forall i, i < n ->
    (i ∈ failedSegments st <-> succeeds_by i (Z.to_nat r) = false) /\
    segmentFiles st !! i =
      Some (if succeeds_by i (Z.to_nat r) then segment_path cfg i else "") /\
    calls_for i (trace st) = rounds_needed i (Z.to_nat r).

(** The body the server sent in the call that worked for ordinal [i], the
    last one made for it. *)
Definition delivered (i : nat) : bytes :=
  body (fetch E (Z.of_nat (rounds_needed i attempts_allowed - 1)) i).

(** The segment files of different ordinals have different paths. *)
Definition distinct_paths (n : nat) : Prop := NoDup (segment_paths cfg n).

(** At the head of the retry loop, about to enter round [r], the file of an
    ordinal that was downloaded holds the body of the call that worked. *)
Definition content_inv (n : nat) (r : Z) (st : state) : Prop :=
  forall i, i < n -> succeeds_by i (Z.to_nat r) = true ->
    files st !! segment_path cfg i =
      Some (body (fetch E (Z.of_nat (rounds_needed i (Z.to_nat r) - 1)) i)).

(** No fault of the operating system while the merge copies its inputs. *)
Definition copies_clean : Prop :=
  forall i, m_open_err (merge E) i = false /\ m_read_err (merge E) i = None /\
            m_write_err (merge E) i = None /\ m_flush_err (merge E) i = false.

End with_config.
End Outcome.

(** ** Sample environments with faults of the operating system *)

Module Faults.
Import Downloader.

(** The removal of an output file that is already there fails. *)
Definition merge_remove_fails : merge_env :=
  {| m_create_err := false; m_open_err := fun _ => false;
     m_read_err := fun _ => None; m_write_err := fun _ => None;
     m_flush_err := fun _ => false; m_final_flush_err := false;
     m_stat_output_err := false; m_remove_output_err := true;
     m_rename_err := false; m_remove_temp_err := false |}.

(** The rename of the temporary output to the output path fails. *)
Definition merge_rename_fails : merge_env :=
  {| m_create_err := false; m_open_err := fun _ => false;
     m_read_err := fun _ => None; m_write_err := fun _ => None;
     m_flush_err := fun _ => false; m_final_flush_err := false;
     m_stat_output_err := false; m_remove_output_err := false;
     m_rename_err := true; m_remove_temp_err := false |}.

(** An environment in which every download works and the merge meets [m]. *)
Definition merging (m : merge_env) : Env :=
  {| fetch := fun _ _ => Inputs.fetch_ok Inputs.packet;
     completion := Inputs.reversed;
     stat_err := fun _ => false;
     validate := fun _ => {| Validator.open_err := false;
                             Validator.read_err := false |};
     merge := m;
     cleanup_remove_err := fun _ => false;
     removeall_keeps := fun _ => false |}.

(** Two segment files in the staging directory and an output of an earlier
    run. *)
Definition staged : gmap string bytes :=
  {[ "downloads/segment_00000.ts" := Inputs.packet;
     "downloads/segment_00001.ts" := Inputs.packet;
     "output.ts" := [x00] ]}.

End Faults.

(** ** The whole of [Download], with [utils.GetBaseURL] and [utils.FetchURL] *)

Module Run.
Import Downloader.

(** The part of [net/url] that [GetBaseURL] uses besides [url.Parse] and
    [String]: the field [Path] of a parsed URL, read and assigned. *)
Class GoURLPath `{GoLib} : Type := {
  url_Path : url_URL -> string;
  url_set_Path : url_URL -> string -> url_URL
}.

(** [path.Split]: the path up to and with its last slash, and what follows
    it; without a slash the first part is empty. *)
Fixpoint path_Split (p : string) : string * string :=
  match p with
  | EmptyString => ("", "")
  | String c rest =>
      let '(dir, file) := path_Split rest in
      if bool_decide (dir = "") then
        if bool_decide (c = "/"%char) then ("/", file) else ("", String c file)
      else (String c dir, file)
  end.

(** What the network answers to one call of [FetchURL]. *)
Record page_env : Type := {
  p_request_err : bool;   (* http.NewRequestWithContext fails *)
  p_do_err : bool;        (* client.Do fails: no connection, deadline exceeded *)
  p_status : Z;           (* resp.StatusCode *)
  p_read_err : bool;      (* io.ReadAll fails *)
  p_body : string         (* string(body) *)
}.

(** The errors of [Download], one for each [fmt.Errorf] of its own. *)
Inductive run_error : Type :=
| ErrBaseURL (cause : error)         (* "error parsing base URL: %w" *)
| ErrFetchPlaylist (cause : error)   (* "error fetching M3U8 playlist: %w" *)
| ErrSelectVariant (cause : Master.select_error)
                                     (* "error selecting variant stream: %w" *)
| ErrVariantBaseURL (cause : error)  (* "error parsing variant base URL: %w" *)
| ErrFetchVariant (cause : error)    (* "error fetching variant playlist: %w" *)
| ErrPipeline (err : error).         (* the errors from [ParseSegments] on,
                                        as [Downloader.Download] has them *)

(** [utils.FetchURL] *)
Definition FetchURL (e : page_env) (urlStr : string) : string + error :=
  if p_request_err e then inr (ErrSys "request" urlStr) else
  if p_do_err e then inr (ErrSys "do" urlStr) else
  if negb (p_status e =? 200)%Z then inr (ErrHTTPStatus (p_status e)) else
  if p_read_err e then inr (ErrSys "read" urlStr) else
  inl (p_body e).

(** [d.config.URL = variantURL] *)
Definition set_URL (cfg : Config) (url : string) : Config :=
  {| URL := url; OutputDir := OutputDir cfg; Output := Output cfg;
     MaxRetry := MaxRetry cfg; Threads := Threads cfg; Timeout := Timeout cfg;
     ValidateFiles := ValidateFiles cfg |}.

Section with_config.
Context `{GoURLPath}.
Variable Sscanf_d : string -> option Z.
Variable cfg : Config.
Variable E : Env.
(** the answers to the first and to the second call of [FetchURL] *)
Variable pages : nat -> page_env.

(** [utils.GetBaseURL] *)
Definition GetBaseURL (urlStr : string) : string + error :=
  match url_Parse urlStr with
  | None => inr (ErrSys "parse" urlStr)
  | Some parsedURL =>
      let '(dir, _) := path_Split (url_Path parsedURL) in
      inl (url_String (url_set_Path parsedURL dir))
  end.

(** The lines of [Download] from [ParseSegments] on. *)
Definition pipeline (cfg : Config) (playlistContent baseURL : string)
    (fs : gmap string bytes)
  : option (option run_error * gmap string bytes * list event) :=
  match Downloader.Download cfg E playlistContent baseURL fs with
  | None => None
  | Some (err, fs, tr) => Some (ErrPipeline <$> err, fs, tr)
  end.

(** [Download].  [None]: the call does not return. *)
Definition Download (fs : gmap string bytes)
  : option (option run_error * gmap string bytes * list event) :=
  match GetBaseURL (URL cfg) with
  | inr err => Some (Some (ErrBaseURL err), fs, [])
  | inl baseURL =>
      match FetchURL (pages 0) (URL cfg) with
      | inr err => Some (Some (ErrFetchPlaylist err), fs, [])
      | inl playlistContent =>
          if Master.IsMasterPlaylist playlistContent then
            match Master.SelectVariantStream Sscanf_d playlistContent baseURL with
            | (_, Some err) => Some (Some (ErrSelectVariant err), fs, [])
            | (variantURL, None) =>
                let cfg := set_URL cfg variantURL in
                match GetBaseURL variantURL with
                | inr err => Some (Some (ErrVariantBaseURL err), fs, [])
                | inl baseURL =>
                    match FetchURL (pages 1) variantURL with
                    | inr err => Some (Some (ErrFetchVariant err), fs, [])
                    | inl playlistContent =>
                        pipeline cfg playlistContent baseURL fs
                    end
                end
            end
          else pipeline cfg playlistContent baseURL fs
      end
  end.

End with_config.

(** URLs as their text: the path of a URL is the whole of it. *)
#[global] Instance sample_paths : @GoURLPath Sample.lib := {|
  url_Path := fun u : @url_URL Sample.lib => u;
  url_set_Path := fun (u : @url_URL Sample.lib) (p : string) => p
|}.

(** The server sends [content] with status 200. *)
Definition page (content : string) : page_env :=
  {| p_request_err := false; p_do_err := false; p_status := 200;
     p_read_err := false; p_body := content |}.

End Run.

(** * Properties *)

(** ** The Integrity Validator *)

Section validator_facts.
Import Validator.

(** The scan only ever adds to its counter. *)
Lemma sync_scan_ge header n i v : v <= sync_scan header n i v.
Proof.
  funelim (sync_scan header n i v); [|lia].
  repeat case_decide; lia.
Qed.

(** The counter is still zero at the end exactly when it started at zero and
    no complete window at [i], [i+188], ... begins with the sync byte. *)
Lemma sync_scan_zero header n i v :
  sync_scan header n i v = 0 <->
  v = 0 /\ forall j, i + 188 * j + 188 <= n -> header !!! (i + 188 * j) <> x47.
Proof.
  funelim (sync_scan header n i v).
  - rewrite H. clear H Heq Heqcall. split.
    + intros [Hv Hj]. repeat case_decide; try discriminate; try lia.
      * split; [done|]. intros [|j] Hle.
        -- by rewrite Nat.mul_0_r, Nat.add_0_r.
        -- specialize (Hj j). replace (i + 188 * S j) with (i + 188 + 188 * j) by lia.
           apply Hj. lia.
      * split; [done|]. intros j Hle. lia.
    + intros [-> Hj]. split.
      * repeat case_decide; try done.
        exfalso. apply (Hj 0); [lia|]. by rewrite Nat.mul_0_r, Nat.add_0_r.
      * intros j Hle. replace (i + 188 + 188 * j) with (i + 188 * S j) by lia.
        apply Hj. lia.
  - split; [|tauto]. intros ->. split; [done|]. intros j Hle. lia.
Qed.

(** A positive counter at the end was positive at the start, or some complete
    window begins with the sync byte. *)
Lemma sync_scan_pos header n i v :
  sync_scan header n i v <> 0 ->
  v <> 0 \/ exists j, i + 188 * j + 188 <= n /\ header !!! (i + 188 * j) = x47.
Proof.
  funelim (sync_scan header n i v); [|by left].
  clear Heq Heqcall. intros Hne. destruct (H Hne) as [Hv|(j & Hj & Hx)].
  - repeat case_decide; try (by left).
    right. exists 0. by rewrite Nat.mul_0_r, Nat.add_0_r.
  - right. exists (S j). replace (i + 188 * S j) with (i + 188 + 188 * j) by lia.
    split; [lia|done].
Qed.

Lemma read_header_lookup content k :
  k < min header_size (length content) ->
  (read_header content).1 !!! k = content !!! k.
Proof.
  unfold read_header, header_size. intros Hk. cbn [fst].
  rewrite lookup_total_app_l by (rewrite length_take; lia).
  rewrite !list_lookup_total_alt, lookup_take_lt by lia. done.
Qed.

(** C3.  A segment file that opens and reads: with [n] the number of bytes read
    into the 3*188-byte header, the validator answers "too small" when
    [n < 188]; otherwise it accepts exactly when some complete 188-byte window
    of the bytes read begins with 0x47, and its only other answer is "no
    valid sync pattern". *)
Theorem ValidateTS_accepts_iff_sync e fileName fs content :
  fs !! fileName = Some content ->
  open_err e = false -> read_err e = false ->
  let n := min (3 * 188) (length content) in
  (n < 188 -> ValidateTS e fileName fs = Some ErrTooSmall) /\
  (188 <= n ->
     (ValidateTS e fileName fs = None <->
        exists k, 188 * k + 188 <= n /\ content !! (188 * k) = Some x47) /\
     (ValidateTS e fileName fs <> None ->
        ValidateTS e fileName fs = Some ErrNoSync)).
Proof.
  intros Hfs Ho Hr n. unfold ValidateTS. rewrite Hfs, Ho.
  destruct (read_header content) as [header m] eqn:Hh. rewrite Hr.
  assert (m = n) as -> by (unfold read_header, header_size in Hh; by inversion Hh).
  assert (forall k, k < n -> header !!! k = content !!! k) as Hlook.
  { intros k Hk. replace header with (read_header content).1 by (by rewrite Hh).
    apply read_header_lookup. unfold header_size. lia. }
  split.
  - intros Hn. by rewrite decide_True.
  - intros Hn. rewrite decide_False by lia.
    pose proof (sync_scan_zero header n 0 0) as Hz.
    destruct (decide (sync_scan header n 0 0 = 0)) as [Hs|Hs].
    + split; [|done]. split; [done|]. intros (k & Hk & Hx).
      apply Hz in Hs as [_ Hs]. exfalso. apply (Hs k); [lia|].
      rewrite Hlook by lia. by rewrite list_lookup_total_alt, Nat.add_0_l, Hx.
    + split; [|done]. split; [|done]. intros _.
      destruct (sync_scan_pos _ _ _ _ Hs) as [?|(j & Hj & Hx)]; [done|].
      exists j. split; [lia|].
      rewrite Hlook in Hx by lia. rewrite list_lookup_total_alt in Hx.
      rewrite Nat.add_0_l in Hx.
      destruct (content !! (188 * j)) as [b|] eqn:Hb.
      * simpl in Hx. by subst.
      * apply lookup_ge_None in Hb. lia.
Qed.

(** The three sample files of the specification. *)
Example ValidateTS_short_file :
  ValidateTS {| open_err := false; read_err := false |} "s.ts"
    {[ "s.ts" := replicate 187 x47 ]} = Some ErrTooSmall.
Proof. vm_compute. reflexivity. Qed.

Example ValidateTS_first_packet_only :
  ValidateTS {| open_err := false; read_err := false |} "s.ts"
    {[ "s.ts" := x47 :: replicate 563 x00 ]} = None.
Proof. vm_compute. reflexivity. Qed.

Example ValidateTS_no_sync :
  ValidateTS {| open_err := false; read_err := false |} "s.ts"
    {[ "s.ts" := replicate 564 x00 ]} = Some ErrNoSync.
Proof. vm_compute. reflexivity. Qed.

Lemma ValidateTS_accepts_iff_sync_witness :
  ValidateTS {| open_err := false; read_err := false |} "s.ts"
    {[ "s.ts" := replicate 188 x00 ++ x47 :: replicate 187 x00 ]} = None.
Proof.
  pose proof (ValidateTS_accepts_iff_sync
    {| open_err := false; read_err := false |} "s.ts"
    {[ "s.ts" := replicate 188 x00 ++ x47 :: replicate 187 x00 ]}
    (replicate 188 x00 ++ x47 :: replicate 187 x00)
    eq_refl eq_refl eq_refl) as [_ H].
  apply H; [vm_compute; lia|]. exists 1. split; [vm_compute; lia|reflexivity].
Defined.

End validator_facts.

(** ** The worker pool *)

Section pool_facts.
Import Pool.

Lemma filter_length_insert {A} (P : A -> Prop) `{!forall x, Decision (P x)}
    (l : list A) (w : nat) (old new : A) :
  l !! w = Some old ->
  length (filter P (<[w := new]> l)) + (if decide (P old) then 1 else 0) =
  length (filter P l) + (if decide (P new) then 1 else 0).
Proof.
  revert w. induction l as [|x l IH]; intros [|w] Hw; simplify_eq/=.
  - rewrite !filter_cons. destruct (decide (P new)), (decide (P old)); simpl; lia.
  - rewrite !filter_cons. specialize (IH _ Hw). destruct (decide (P x)); simpl; lia.
Qed.

Lemma in_flight_le_holders p : in_flight p <= holders p.
Proof.
  unfold in_flight, count_at, holders. induction (workers p) as [|x l IH]; [done|].
  rewrite !filter_cons. unfold holds_slot in *.
  repeat case_decide; simpl; try lia. naive_solver.
Qed.

Lemma step_worker_inv p w p' :
  pool_inv p -> step_worker p w = Some p' -> pool_inv p' /\ capacity p' = capacity p.
Proof.
  intros [Ht Hc]. unfold step_worker.
  destruct (workers p !! w) as [[]|] eqn:Hw; [| | |done|done].
  - case_decide; [|done]. intros [= <-]. unfold pool_inv, holders. simpl.
    pose proof (filter_length_insert holds_slot _ _ _ Acquired Hw) as Hf.
    unfold holders in Ht. rewrite decide_False in Hf by (intros [?|?]; discriminate).
    rewrite decide_True in Hf by (by left). split; [|done]. lia.
  - pose proof (filter_length_insert holds_slot _ _ _ Finished Hw) as Hf.
    pose proof (filter_length_insert holds_slot _ _ _ Fetching Hw) as Hg.
    unfold holders in Ht.
    rewrite decide_True in Hf, Hg by (by left).
    rewrite decide_False in Hf by (intros [?|?]; discriminate).
    rewrite decide_True in Hg by (by right).
    destruct (ctx_done p); intros [= <-]; unfold pool_inv, holders; simpl; (split; [|done]); lia.
  - pose proof (filter_length_insert holds_slot _ _ _ Finished Hw) as Hf.
    unfold holders in Ht.
    rewrite decide_True in Hf by (by right).
    rewrite decide_False in Hf by (intros [?|?]; discriminate).
    intros [= <-]; unfold pool_inv, holders; simpl; (split; [|done]); lia.
Qed.

Lemma pool_exec_inv p a p' :
  pool_inv p -> exec p a = Some p' -> pool_inv p' /\ capacity p' = capacity p.
Proof.
  intros Hinv. destruct a; simpl.
  - intros [= <-]. destruct Hinv as [Ht Hc]. unfold pool_inv, holders in *. simpl.
    rewrite filter_app, length_app, filter_cons, decide_False by (intros [?|?]; discriminate).
    simpl. split; [|done]. lia.
  - intros [= <-]. done.
  - by apply step_worker_inv.
Qed.

Lemma pool_run_inv acts : forall p p',
  pool_inv p -> run p acts = Some p' -> pool_inv p' /\ capacity p' = capacity p.
Proof.
  induction acts as [|a acts IH]; intros p p' Hinv; simpl.
  - by intros [= <-].
  - destruct (exec p a) as [q|] eqn:Hq; [|done]. intros Hrun.
    destruct (pool_exec_inv _ _ _ Hinv Hq) as [Hinv' Hcap].
    destruct (IH _ _ Hinv' Hrun) as [? ?]. split; [done|congruence].
Qed.

(** C7.  In every state the pool reaches from [make(chan struct{}, Threads)],
    whatever the launches of the first pass and of the retry rounds, the
    cancellations and the moves of the workers: the fetch operations in
    flight are at most the tokens in the one semaphore channel, which holds
    exactly one token per worker between its send and its deferred receive,
    and the tokens are at most [Threads]. *)
Theorem in_flight_never_exceeds_threads (Threads : Z) (acts : list action) p0 p :
  start Threads = Some p0 ->
  run p0 acts = Some p ->
  tokens p = holders p /\
  (Z.of_nat (in_flight p) <= Z.of_nat (tokens p) <= Threads)%Z.
Proof.
  unfold start. case_decide; [done|]. intros [= <-] Hrun.
  assert (pool_inv {| capacity := Z.to_nat Threads; tokens := 0;
                      ctx_done := false; workers := [] |}) as Hinv.
  { split; simpl; [done|lia]. }
  destruct (pool_run_inv acts _ _ Hinv Hrun) as [[Ht Hc] Hcap].
  simpl in *. pose proof (in_flight_le_holders p). split; [done|]. lia.
Qed.

Lemma exec_skipping p a p' w c :
  ctx_done p = true -> workers p !! w = Some c -> skipping c ->
  exec p a = Some p' ->
  ctx_done p' = true /\ exists c', workers p' !! w = Some c' /\ skipping c'.
Proof.
  intros Hd Hw Hc. destruct a as [| |w']; simpl.
  - intros [= <-]. simpl. split; [done|]. exists c.
    split; [|done]. by apply lookup_app_l_Some.
  - intros [= <-]. simpl. eauto.
  - unfold step_worker. destruct (decide (w' = w)) as [->|Hne].
    + rewrite Hw, Hd. destruct Hc as [->|[->| ->]]; [| |done].
      * case_decide; [|done]. intros [= <-]. simpl. split; [done|].
        exists Acquired. split; [|unfold skipping; tauto].
        apply list_lookup_insert_eq. by eapply lookup_lt_Some.
      * intros [= <-]. simpl. split; [done|].
        exists Finished. split; [|unfold skipping; tauto].
        apply list_lookup_insert_eq. by eapply lookup_lt_Some.
    + assert (forall c' t, ctx_done (set_worker p w' c' t) = true /\
                exists c'', workers (set_worker p w' c' t) !! w = Some c'' /\
                            skipping c'') as Hset.
      { intros c' t. simpl. split; [done|]. exists c.
        by rewrite list_lookup_insert_ne. }
      destruct (workers p !! w') as [[]|]; [| | |done|done].
      * case_decide; [|done]. intros [= <-]. apply Hset.
      * rewrite Hd. intros [= <-]. apply Hset.
      * intros [= <-]. apply Hset.
Qed.

Lemma run_skipping acts : forall p p' w c,
  ctx_done p = true -> workers p !! w = Some c -> skipping c ->
  run p acts = Some p' ->
  ctx_done p' = true /\ exists c', workers p' !! w = Some c' /\ skipping c'.
Proof.
  induction acts as [|a acts IH]; intros p p' w c Hd Hw Hc; simpl.
  - intros [= <-]. eauto.
  - destruct (exec p a) as [q|] eqn:Hq; [|done]. intros Hrun.
    destruct (exec_skipping _ _ _ _ _ Hd Hw Hc Hq) as (Hd' & c' & Hw' & Hc').
    eapply IH; eauto.
Qed.

(** The worker body with the signal raised, in the pool alone, where the
    signal may be raised at any time (no run of [downloadSegments] does
    that, see below): a worker still queued never reaches its fetch; its one
    move is the send, which puts a token into the channel, and its next move
    returns with the token taken back; and a worker that holds a token moves
    to its return and takes its token back. *)
Lemma cancelled_worker_skips_fetch (Threads : Z) acts0 p0 p w :
  start Threads = Some p0 -> run p0 acts0 = Some p ->
  ctx_done p = true ->
  (workers p !! w = Some Queued ->
     (forall acts p', run p acts = Some p' -> workers p' !! w <> Some Fetching) /\
     (forall q, exec p (Step w) = Some q ->
        workers q !! w = Some Acquired /\ tokens q = S (tokens p) /\
        exists q', exec q (Step w) = Some q' /\
                   workers q' !! w = Some Finished /\ tokens q' = tokens p)) /\
  (workers p !! w = Some Acquired \/ workers p !! w = Some Fetching ->
     exists q, exec p (Step w) = Some q /\
               workers q !! w = Some Finished /\ S (tokens q) = tokens p).
Proof.
  intros Hstart Hrun Hd.
  assert (pool_inv p) as Hinv.
  { unfold start in Hstart. case_decide; [done|]. injection Hstart as <-.
    eapply pool_run_inv; [|done]. split; simpl; [done|lia]. }
  split.
  - intros Hw. split.
    + intros acts p' Hrun' Hf.
      destruct (run_skipping acts p p' w Queued Hd Hw (or_introl eq_refl) Hrun')
        as (_ & c' & Hw' & Hc').
      rewrite Hw' in Hf. injection Hf as ->. by destruct Hc' as [?|[?|?]].
    + simpl. unfold step_worker. rewrite Hw. case_decide; [|done].
      intros q [= <-]. pose proof (lookup_lt_Some _ _ _ Hw) as Hlt. simpl.
      rewrite list_lookup_insert_eq by done. split; [done|]. split; [done|].
      rewrite Hd. eexists. split; [done|]. simpl.
      rewrite list_lookup_insert_eq by (by rewrite length_insert). done.
  - intros Hw. destruct Hinv as [Ht _].
    assert (0 < holders p) as Hpos.
    { unfold holders.
      assert (exists c, workers p !! w = Some c /\ holds_slot c) as (c & Hc & Hh)
        by (destruct Hw; eexists; split; eauto; unfold holds_slot; tauto).
      assert (c ∈ filter holds_slot (workers p)) as Hin.
      { apply list_elem_of_filter. split; [done|]. by eapply list_elem_of_lookup_2. }
      destruct (filter holds_slot (workers p)); [by apply not_elem_of_nil in Hin|simpl; lia]. }
    simpl. unfold step_worker.
    destruct Hw as [Hw|Hw]; rewrite Hw; [rewrite Hd|];
      (eexists; split; [done|]; simpl;
       rewrite list_lookup_insert_eq by (by eapply lookup_lt_Some);
       split; [done|lia]).
Qed.

(** In the pool alone the move of a queued worker under a raised signal is
    its send, which takes a slot, and while the channel is full the worker
    cannot move at all: the [select] stands after the send.  The two pools
    are no states of a run of [downloadSegments]. *)
Lemma cancelled_worker_takes_slot :
  ~ (forall p w q, ctx_done p = true -> workers p !! w = Some Queued ->
       exec p (Step w) = Some q -> tokens q = tokens p) /\
  exec busy_cancelled_pool (Step 1) = None.
Proof.
  split; [|reflexivity].
  intros Hclaim.
  specialize (Hclaim cancelled_pool 0 _ eq_refl eq_refl eq_refl). discriminate.
Qed.

Lemma in_flight_never_exceeds_threads_witness :
  (Z.of_nat (in_flight busy_cancelled_pool) <= 1)%Z.
Proof.
  pose proof (in_flight_never_exceeds_threads 1
    [Launch; Launch; Step 0; Step 0; Cancel] _ busy_cancelled_pool
    eq_refl eq_refl) as [_ H].
  lia.
Defined.

End pool_facts.

(** ** The cancellation signal *)

Section program_facts.
Import Pool Program.

Lemma step_worker_finished p w p' :
  step_worker p w = Some p' ->
  ctx_done p' = ctx_done p /\
  (Forall (eq Finished) (workers p) -> False).
Proof.
  unfold step_worker. destruct (workers p !! w) as [c|] eqn:Hw; [|done].
  intros Hs. split.
  - destruct c; [case_decide; [|done]|destruct (ctx_done p) eqn:Hd| |done];
      injection Hs as <-; simpl; done.
  - intros Hall. eapply Forall_lookup_1 in Hall; [|done]. subst c. done.
Qed.

Lemma exec_main_inv s m s' :
  main_inv s -> pool_inv s.2 -> exec_main s m = Some s' ->
  main_inv s' /\ pool_inv s'.2.
Proof.
  destruct s as [pc p]. unfold main_inv, exec_main. cbn [fst snd].
  intros [Hd Hfin] Hp.
  assert (pc <> Returned -> ctx_done p = false) as Hnot.
  { intros Hpc. destruct (ctx_done p); [|done]. exfalso. apply Hpc. by apply Hd. }
  destruct m as [| |k| |w].
  - destruct pc as [[|k]| |]; try done. simpl. intros [= <-]. cbn [fst snd].
    split; [|by apply (pool_exec_inv p Launch)].
    split; [|by intros [|]]. simpl. rewrite Hnot by done. done.
  - destruct pc as [[|k]| |]; try done. case_decide as Hall; [|done].
    intros [= <-]. cbn [fst snd]. split; [|done]. split; [|done].
    rewrite Hnot by done. done.
  - destruct pc; try done. intros [= <-]. cbn [fst snd]. split; [|done].
    split; [|by intros [|]]. rewrite Hnot by done. done.
  - destruct pc; try done. simpl. intros [= <-]. cbn [fst snd].
    split; [|by apply (pool_exec_inv p Cancel)]. split; [done|]. simpl.
    intros _. apply Hfin. by left.
  - simpl. destruct (step_worker p w) as [q|] eqn:Hs; [|done]. simpl.
    intros [= <-]. cbn [fst snd].
    destruct (step_worker_finished _ _ _ Hs) as [Hctx Hno].
    split; [|by apply (pool_exec_inv p (Step w))]. split; [by rewrite Hctx|].
    intros Hpc. exfalso. by apply Hno, Hfin.
Qed.

Lemma run_main_inv ms : forall s s',
  main_inv s -> pool_inv s.2 -> run_main s ms = Some s' ->
  main_inv s' /\ pool_inv s'.2.
Proof.
  induction ms as [|m ms IH]; intros s s' Hi Hp; simpl.
  - by intros [= <-].
  - destruct (exec_main s m) as [q|] eqn:He; [|done].
    destruct (exec_main_inv _ _ _ Hi Hp He). by apply IH.
Qed.


End program_facts.

(** ** The Playlist Resolver *)

Section parser_facts.
Context `{GoLib}.
Import Parser.

Lemma scan_loop_short baseURL lines : forall segments,
  Forall short lines ->
  scan_loop baseURL lines segments =
    (segments ++ omap (segment_of_line baseURL) lines, None).
Proof.
  induction lines as [|raw lines IH]; intros segments Hs; simpl.
  - by rewrite app_nil_r.
  - inversion Hs as [|? ? Hraw Hrest]; subst. unfold short in Hraw.
    destruct (N.leb_spec MaxScanTokenSize (N.of_nat (String.length raw))); [lia|].
    unfold segment_of_line.
    destruct (bool_decide _ || _); [by apply IH|].
    rewrite IH by done. destruct (HasPrefix _ "http"); simpl; by rewrite <- app_assoc.
Qed.

Lemma scan_loop_long baseURL lines : forall segments,
  Exists (fun raw => ~ short raw) lines ->
  exists segments', scan_loop baseURL lines segments = (segments', Some ErrTooLong).
Proof.
  induction lines as [|raw lines IH]; intros segments Hs; [by inversion Hs|].
  simpl. destruct (N.leb_spec MaxScanTokenSize (N.of_nat (String.length raw))); [eauto|].
  inversion Hs as [? ? Hraw|? ? Hrest]; subst; [by unfold short in Hraw|].
  destruct (bool_decide _ || _); by apply IH.
Qed.

(** C10 as amended.  On a playlist whose lines are all shorter than 65536 bytes
    [ParseSegments] returns no error and, in order, for each line that is
    neither empty nor a comment once trimmed, the trimmed line itself when it
    begins with "http" and its resolution against the base URL otherwise; on
    a playlist with a longer line it returns [bufio.ErrTooLong] and no
    segments; and [ResolveURL] returns the reference unchanged when the base
    or the reference does not parse. *)
Theorem ParseSegments_resolves_short_lines content baseURL :
  (Forall short (raw_lines content) ->
     ParseSegments content baseURL =
       (omap (segment_of_line baseURL) (raw_lines content), None)) /\
  (Exists (fun raw => ~ short raw) (raw_lines content) ->
     ParseSegments content baseURL = ([], Some ErrTooLong)) /\
  (forall relURL, url_Parse baseURL = None \/ url_Parse relURL = None ->
     ResolveURL baseURL relURL = relURL).
Proof.
  split; [|split].
  - intros Hs. unfold ParseSegments. by rewrite scan_loop_short.
  - intros Hl. unfold ParseSegments.
    destruct (scan_loop_long baseURL _ [] Hl) as [segs ->]. done.
  - intros relURL [Hb|Hr]; unfold ResolveURL.
    + by rewrite Hb.
    + rewrite Hr. by destruct (url_Parse baseURL).
Qed.
End parser_facts.

(** C10 as stated fails: a playlist with a line of 65536 bytes makes
    [ParseSegments] return an error. *)
Lemma ParseSegments_fails_on_long_line :
  Parser.ParseSegments Sample.long_line "http://host/dir/" = ([], Some ErrTooLong).
Proof. vm_compute. reflexivity. Qed.

Lemma ParseSegments_resolves_short_lines_witness :
  Parser.ParseSegments "#EXTM3U
http://host/a.ts
  b.ts
" "http://host/dir/" = (["http://host/a.ts"; "http://host/dir/b.ts"], None).
Proof.
  rewrite (proj1 (ParseSegments_resolves_short_lines _ "http://host/dir/")).
  - vm_compute. reflexivity.
  - unfold Parser.short. vm_compute. repeat (constructor; [reflexivity|]). constructor.
Defined.

(** ** The file system *)

Section os_facts.
Implicit Types (fs : gmap string bytes) (p name : string).

Lemma append_length (s1 s2 : string) :
  String.length (s1 +:+ s2) = String.length s1 + String.length s2.
Proof. induction s1 as [|c s1 IH]; simpl; [done|]. by rewrite IH. Qed.

Lemma tmp_ne (s : string) : s +:+ ".tmp" <> s.
Proof.
  intros Heq. apply (f_equal String.length) in Heq.
  rewrite append_length in Heq. simpl in Heq. lia.
Qed.

Lemma Remove_lookup_ne fault name fs p :
  p <> name -> (OS.Remove fault name fs).2 !! p = fs !! p.
Proof.
  intros Hne. unfold OS.Remove. destruct fault; [done|].
  destruct (fs !! name); [|done]. simpl. by rewrite lookup_delete_ne.
Qed.

Lemma Remove_lookup_eq name fs :
  (OS.Remove false name fs).2 !! name = None.
Proof.
  unfold OS.Remove. destruct (fs !! name) eqn:Hn; simpl; [|done].
  apply lookup_delete_eq.
Qed.

Lemma Append_lookup_ne name data fs p :
  p <> name -> OS.Append name data fs !! p = fs !! p.
Proof. intros Hne. unfold OS.Append. by rewrite lookup_alter_ne. Qed.

Lemma Append_lookup_eq name data fs :
  OS.Append name data fs !! name = (fun old => old ++ data) <$> fs !! name.
Proof. unfold OS.Append. by rewrite lookup_alter_eq. Qed.

Lemma Create_lookup_ne name fs p :
  p <> name -> OS.Create name fs !! p = fs !! p.
Proof. intros Hne. unfold OS.Create. by rewrite lookup_insert_ne. Qed.

Lemma Create_lookup_eq name fs : OS.Create name fs !! name = Some [].
Proof. unfold OS.Create. by rewrite lookup_insert_eq. Qed.

End os_facts.

(** ** The Segment Fetcher *)

Section fetcher_facts.
Import Downloader.

(** What a call of [downloadFile] does to the file system. *)
Lemma downloadFile_effect e url fileName fs :
  let tempFileName := fileName +:+ ".tmp" in
  let '(err, fs') := downloadFile e url fileName fs in
  (forall p, p <> fileName -> p <> tempFileName -> fs' !! p = fs !! p) /\
  match err with
  | None => fs' !! fileName = Some (body e) /\ fs' !! tempFileName = None
  | Some _ =>
      fs' !! fileName = fs !! fileName /\
      (fs' = fs \/ (remove_err e = false -> fs' !! tempFileName = None))
  end.
Proof.
  intros tmp. pose proof (tmp_ne fileName) as Hne.
  assert (fileName <> tmp) as Hne' by (intros Heq; by apply Hne).
  unfold downloadFile. fold tmp.
  destruct (request_err e); [by auto|].
  destruct (do_err e); [by auto|].
  destruct (negb _); [by auto|].
  destruct (create_err e); [by auto|].
  destruct (copy_err e) as [k|].
  { split; [|split].
    - intros p H1 H2. by rewrite Remove_lookup_ne, Append_lookup_ne, Create_lookup_ne.
    - by rewrite Remove_lookup_ne, Append_lookup_ne, Create_lookup_ne.
    - right. intros ->. apply Remove_lookup_eq. }
  destruct (flush_err e) as [k|].
  { split; [|split].
    - intros p H1 H2. by rewrite Remove_lookup_ne, Append_lookup_ne, Create_lookup_ne.
    - by rewrite Remove_lookup_ne, Append_lookup_ne, Create_lookup_ne.
    - right. intros ->. apply Remove_lookup_eq. }
  unfold OS.Rename. destruct (rename_err e).
  { split; [|split].
    - intros p H1 H2. by rewrite Remove_lookup_ne, Append_lookup_ne, Create_lookup_ne.
    - by rewrite Remove_lookup_ne, Append_lookup_ne, Create_lookup_ne.
    - right. intros ->. apply Remove_lookup_eq. }
  rewrite Append_lookup_eq, Create_lookup_eq. simpl. split; [|split].
  - intros p H1 H2.
    by rewrite lookup_insert_ne, lookup_delete_ne, Append_lookup_ne, Create_lookup_ne.
  - by rewrite lookup_insert_eq.
  - rewrite lookup_insert_ne by done. apply lookup_delete_eq.
Qed.


End fetcher_facts.

(** ** The Merger *)

Section merger_facts.
Import Downloader.
Context `{GoLib}.
Variable cfg : Config.
Variable E : Env.

Abbreviation tmp := (tempOutputFile cfg).

Lemma tempOutputFile_ne : tmp <> Output cfg.
Proof. apply tmp_ne. Qed.

Lemma take_nil_inv {A} (l : list A) : take mergeBufferSize l = [] -> l = [].
Proof.
  unfold mergeBufferSize. destruct l as [|x l]; [done|].
  change (1 * 1024 * 1024) with (S (1024 * 1024 - 1)). done.
Qed.

Lemma copy_chunks_spec file i k remaining fs :
  let r := copy_chunks cfg E file i k remaining fs in
  (forall p, p <> tmp -> r.2 !! p = fs !! p) /\
  (is_Some (fs !! tmp) -> is_Some (r.2 !! tmp)) /\
  (r.1 = None -> r.2 !! tmp = (fun old => old ++ remaining) <$> fs !! tmp) /\
  (m_read_err (merge E) i = None -> m_write_err (merge E) i = None -> r.1 = None).
Proof.
  funelim (copy_chunks cfg E file i k remaining fs); cbn zeta in *; cbn [fst snd];
    repeat match goal with Hd : decide _ = _ |- _ => clear Hd end;
    try match goal with Hc : _ = copy_chunks _ _ _ _ _ _ _ |- _ => clear Hc end.
  - split; [done|]. split; [done|]. split; [done|]. intros Hr. congruence.
  - match goal with Ht : take _ _ = [] |- _ => apply take_nil_inv in Ht; subst end.
    split; [done|]. split; [done|].
    split; [|done]. intros _. destruct (fs !! tmp); simpl; [|done]. by rewrite app_nil_r.
  - split; [done|]. split; [done|]. split; [done|]. intros _ Hw. congruence.
  - match goal with IH : _ /\ _ |- _ =>
      destruct IH as (Hother & Hsome & Hok & Htot) end.
    split; [|split; [|split]].
    + intros p Hp. by rewrite Hother, Append_lookup_ne.
    + intros Hs. apply Hsome. rewrite Append_lookup_eq. by apply fmap_is_Some.
    + intros Hnone. rewrite Hok by done. rewrite Append_lookup_eq.
      destruct (fs !! tmp) as [old|]; simpl; [|done].
      by rewrite <- app_assoc, take_drop.
    + done.
Qed.

Lemma Remove_present name (fs : gmap string bytes) content :
  fs !! name = Some content -> OS.Remove false name fs = (None, delete name fs).
Proof. intros Hn. unfold OS.Remove. by rewrite Hn. Qed.

Lemma Remove_fault name (fs : gmap string bytes) :
  OS.Remove true name fs = (Some (ErrSys "remove" name), fs).
Proof. done. Qed.

Lemma discard_temp_spec err fs :
  let r := discard_temp cfg E err fs in
  r.1 = Some err /\
  (forall p, p <> tmp -> r.2 !! p = fs !! p) /\
  (m_remove_temp_err (merge E) = false -> r.2 !! tmp = None).
Proof.
  unfold discard_temp. cbn zeta. cbn [fst snd]. split; [done|]. split.
  - intros p Hp. by apply Remove_lookup_ne.
  - intros ->. apply Remove_lookup_eq.
Qed.

Lemma merge_loop_spec inputs : forall i fs,
  let r := merge_loop cfg E i inputs fs in
  (forall p, p <> tmp -> r.2 !! p = fs !! p) /\
  (r.1 = None -> tmp ∉ inputs -> forall acc, fs !! tmp = Some acc ->
     exists contents,
       Forall2 (fun file content => fs !! file = Some content) inputs contents /\
       r.2 !! tmp = Some (acc ++ concat contents)) /\
  (r.1 <> None -> m_remove_temp_err (merge E) = false -> r.2 !! tmp = None) /\
  (merge_runs_clean E -> Forall (fun file => is_Some (fs !! file)) inputs ->
     r.1 = None) /\
  (r.1 = None -> is_Some (fs !! tmp) -> is_Some (r.2 !! tmp)).
Proof.
  induction inputs as [|file rest IH]; intros i fs; cbn zeta; simpl.
  { split; [done|]. split; [|done]. intros _ _ acc Hacc. exists [].
    split; [constructor|]. by rewrite app_nil_r. }
  unfold OS.NotExist. case_bool_decide as Hex.
  { destruct (discard_temp_spec (ErrSegmentFileMissing file) fs) as (He & Ho & Ht).
    split; [done|]. split; [by rewrite He|]. split; [done|].
    split; [|by rewrite He].
    intros _ Hall. inversion Hall as [|? ? [c Hc] _]; subst. congruence. }
  destruct (fs !! file) as [content|] eqn:Hfile; [|done]. clear Hex.
  destruct (m_open_err (merge E) i) eqn:Hopen.
  { destruct (discard_temp_spec (ErrSys "open" file) fs) as (He & Ho & Ht).
    split; [done|]. split; [by rewrite He|]. split; [done|].
    split; [|by rewrite He].
    intros (_ & Hi & _) _. destruct (Hi i) as (? & _). congruence. }
  pose proof (copy_chunks_spec file i 0 content fs) as Hcopy. cbn zeta in Hcopy.
  destruct (copy_chunks cfg E file i 0 content fs) as [[err|] fs1] eqn:Hc;
    cbn [fst snd] in Hcopy; destruct Hcopy as (Hother & Hsome & Hok & Htot).
  { destruct (discard_temp_spec err fs1) as (He & Ho & Ht).
    split; [intros p Hp; by rewrite Ho, Hother|]. split; [by rewrite He|].
    split; [done|]. split; [|by rewrite He].
    intros (_ & Hi & _) _. destruct (Hi i) as (_ & ? & ? & _).
    exfalso. by specialize (Htot ltac:(done) ltac:(done)). }
  destruct (m_flush_err (merge E) i) eqn:Hflush.
  { destruct (discard_temp_spec (ErrSys "flush" tmp) fs1) as (He & Ho & Ht).
    split; [intros p Hp; by rewrite Ho, Hother|]. split; [by rewrite He|].
    split; [done|]. split; [|by rewrite He].
    intros (_ & Hi & _) _. destruct (Hi i) as (_ & _ & _ & ?). congruence. }
  specialize (IH (S i) fs1). cbn zeta in IH.
  destruct IH as (IHo & IHok & IHerr & IHtot & IHsome).
  split; [intros p Hp; by rewrite IHo, Hother|]. split; [|split; [|split]].
  - intros Hnone Hnin acc Hacc.
    apply not_elem_of_cons in Hnin as [Hne Hnin].
    specialize (Hok eq_refl). rewrite Hacc in Hok. simpl in Hok.
    destruct (IHok Hnone Hnin _ Hok) as (contents & Hall & Hfinal).
    exists (content :: contents). split.
    + constructor; [done|].
      apply Forall2_same_length_lookup. split; [by eapply Forall2_length|].
      intros j f c Hf Hcj.
      rewrite <- Hother.
      * exact (Forall2_lookup_lr _ _ _ _ _ _ Hall Hf Hcj).
      * intros ->. apply Hnin. by eapply list_elem_of_lookup_2.
    + rewrite Hfinal. simpl. by rewrite <- app_assoc.
  - done.
  - intros Hclean Hall. apply IHtot; [done|].
    inversion Hall as [|? ? _ Hrest]; subst.
    eapply Forall_impl; [exact Hrest|]. intros f Hf. simpl in Hf.
    destruct (decide (f = tmp)) as [->|Hne]; [by apply Hsome|by rewrite Hother].
  - intros Hnone Hs. apply IHsome; [done|]. by apply Hsome.
Qed.

Lemma mergeSegments_spec segmentFiles fs :
  let r := mergeSegments cfg E segmentFiles fs in
  (forall p, p <> tmp -> p <> Output cfg -> r.2 !! p = fs !! p) /\
  (r.1 = None -> tmp ∉ segmentFiles ->
     exists contents,
       Forall2 (fun file content => fs !! file = Some content)
         segmentFiles contents /\
       r.2 !! Output cfg = Some (concat contents) /\
       r.2 !! tmp = None) /\
  (r.1 <> None ->
     (r.2 !! Output cfg = fs !! Output cfg \/ r.2 !! Output cfg = None) /\
     (r.2 = fs \/ (m_remove_temp_err (merge E) = false -> r.2 !! tmp = None))) /\
  (merge_runs_clean E -> Forall (fun file => is_Some (fs !! file)) segmentFiles ->
     r.1 = None).
Proof.
  pose proof tempOutputFile_ne as Hne.
  assert (Output cfg <> tmp) as Hne' by (intros Heq; by apply Hne).
  cbn zeta. unfold mergeSegments.
  destruct (m_create_err (merge E)) eqn:Hcreate.
  { cbn [fst snd]. split; [done|]. split; [done|]. split; [auto|].
    intros (? & _) _. congruence. }
  pose proof (merge_loop_spec segmentFiles 0 (OS.Create tmp fs)) as Hloop.
  cbn zeta in Hloop.
  destruct (merge_loop cfg E 0 segmentFiles (OS.Create tmp fs)) as [[err|] fs1] eqn:Hl;
    cbn [fst snd] in Hloop; destruct Hloop as (Hother & Hok & Herr & Htot & Hsome).
  { cbn [fst snd]. split; [intros p H1 H2; by rewrite Hother, Create_lookup_ne|].
    split; [done|]. split.
    - intros _. split; [left; by rewrite Hother, Create_lookup_ne|].
      right. intros Hr. by apply Herr.
    - intros Hclean Hall. exfalso.
      assert (Some err = None) as Habs; [|done]. apply Htot; [done|].
      eapply Forall_impl; [exact Hall|]. intros f Hf. simpl in Hf.
      destruct (decide (f = tmp)) as [->|Hft];
        [by rewrite Create_lookup_eq|by rewrite Create_lookup_ne]. }
  destruct (m_final_flush_err (merge E)) eqn:Hff.
  { destruct (discard_temp_spec (ErrSys "flush" tmp) fs1) as (He & Ho & Ht).
    split; [intros p H1 H2; by rewrite Ho, Hother, Create_lookup_ne|].
    split; [by rewrite He|]. split.
    - intros _. split; [left; by rewrite Ho, Hother, Create_lookup_ne|by right].
    - intros (_ & _ & ? & _) _. congruence. }
  destruct (Hsome eq_refl) as [merged Hmerged]; [by rewrite Create_lookup_eq|].
  assert (tmp ∉ segmentFiles -> exists contents,
            Forall2 (fun file content => fs !! file = Some content)
              segmentFiles contents /\ merged = concat contents) as Hcontents.
  { intros Hnin.
    destruct (Hok eq_refl Hnin [] (Create_lookup_eq _ _)) as (contents & Hall & Hc).
    exists contents. split; [|simpl in Hc; congruence].
    apply Forall2_same_length_lookup. split; [by eapply Forall2_length|].
    intros j f c Hf Hcj. rewrite <- (Create_lookup_ne tmp).
    - exact (Forall2_lookup_lr _ _ _ _ _ _ Hall Hf Hcj).
    - intros ->. apply Hnin. by eapply list_elem_of_lookup_2. }
  assert (fs1 !! Output cfg = fs !! Output cfg) as Hout
    by (by rewrite Hother, Create_lookup_ne).
  unfold OS.Stat, OS.Rename.
  destruct (fs1 !! Output cfg) as [old|] eqn:Hold.
  - destruct (m_stat_output_err (merge E)).
    + (* the Stat fails: no removal, the rename replaces the output *)
      destruct (m_rename_err (merge E)) eqn:Hren; cbn [fst snd].
      * split; [intros p H1 H2; by rewrite Remove_lookup_ne, Hother, Create_lookup_ne|].
        split; [done|]. split.
        -- intros _. split; [left; by rewrite Remove_lookup_ne, Hold|].
           right. intros ->. apply Remove_lookup_eq.
        -- intros (_ & _ & _ & _ & ?) _. congruence.
      * rewrite Hmerged. cbn [fst snd].
        split; [intros p H1 H2;
                by rewrite lookup_insert_ne, lookup_delete_ne, Hother, Create_lookup_ne|].
        split; [|done]. intros _ Hnin.
        destruct (Hcontents Hnin) as (contents & Hall & ->).
        exists contents. split; [done|]. split; [by rewrite lookup_insert_eq|].
        rewrite lookup_insert_ne by done. apply lookup_delete_eq.
    + destruct (m_remove_output_err (merge E)) eqn:Hrm; cbn [fst snd].
      * rewrite Remove_fault. cbv beta iota. cbn [fst snd].
        split; [intros p H1 H2; by rewrite Remove_lookup_ne, Hother, Create_lookup_ne|].
        split; [done|]. split.
        -- intros _. split; [left; by rewrite Remove_lookup_ne, Hold|].
           right. intros ->. apply Remove_lookup_eq.
        -- intros (_ & _ & _ & ? & _) _. congruence.
      * rewrite (Remove_present _ _ _ Hold). cbv beta iota.
        destruct (m_rename_err (merge E)) eqn:Hren; cbn [fst snd].
        -- split; [intros p H1 H2;
                   by rewrite Remove_lookup_ne, lookup_delete_ne, Hother, Create_lookup_ne|].
           split; [done|]. split.
           ++ intros _. split; [right; rewrite Remove_lookup_ne by done;
                                 apply lookup_delete_eq|].
              right. intros ->. apply Remove_lookup_eq.
           ++ intros (_ & _ & _ & _ & ?) _. congruence.
        -- rewrite lookup_delete_ne, Hmerged by done. cbn [fst snd].
           split; [intros p H1 H2;
                   by rewrite lookup_insert_ne, !lookup_delete_ne, Hother, Create_lookup_ne|].
           split; [|done]. intros _ Hnin.
           destruct (Hcontents Hnin) as (contents & Hall & ->).
           exists contents. split; [done|]. split; [by rewrite lookup_insert_eq|].
           rewrite lookup_insert_ne by done. apply lookup_delete_eq.
  - destruct (m_rename_err (merge E)) eqn:Hren; cbn [fst snd].
    + split; [intros p H1 H2; by rewrite Remove_lookup_ne, Hother, Create_lookup_ne|].
      split; [done|]. split.
      * intros _. split; [left; by rewrite Remove_lookup_ne, Hold|].
        right. intros ->. apply Remove_lookup_eq.
      * intros (_ & _ & _ & _ & ?) _. congruence.
    + rewrite Hmerged. cbn [fst snd].
      split; [intros p H1 H2;
              by rewrite lookup_insert_ne, lookup_delete_ne, Hother, Create_lookup_ne|].
      split; [|done]. intros _ Hnin.
      destruct (Hcontents Hnin) as (contents & Hall & ->).
      exists contents. split; [done|]. split; [by rewrite lookup_insert_eq|].
      rewrite lookup_insert_ne by done. apply lookup_delete_eq.
Qed.
End merger_facts.

(** ** The Acquisition Scheduler *)

Section scheduler_facts.
Import Downloader.
Context `{GoLib}.
Variable cfg : Config.
Variable E : Env.

Abbreviation path := (segment_path cfg).

Lemma downloadFile_ok e url fileName fs :
  (downloadFile e url fileName fs).1 = None <-> fetch_ok e = true.
Proof.
  unfold downloadFile, fetch_ok.
  destruct (request_err e); [done|]. destruct (do_err e); [done|].
  destruct (status e =? 200)%Z; [|done]. destruct (create_err e); [done|].
  destruct (copy_err e); [done|]. destruct (flush_err e); [done|].
  unfold OS.Rename. destruct (rename_err e); [done|].
  rewrite Append_lookup_eq, Create_lookup_eq. done.
Qed.

Lemma downloadFile_runs_its_calls e url fileName fs :
  (downloadFile e url fileName fs).2 =
    foldl (do_call e) fs (downloadFile_calls e fileName).
Proof.
  unfold downloadFile, downloadFile_calls.
  destruct (request_err e); [done|]. destruct (do_err e); [done|].
  destruct (negb _); [done|]. cbv zeta.
  destruct (create_err e) eqn:Hc; [simpl; by rewrite Hc|].
  destruct (copy_err e) as [k|]; [simpl; by rewrite Hc|].
  destruct (flush_err e) as [k|]; [simpl; by rewrite Hc|].
  destruct (rename_err e) eqn:Hr; simpl; rewrite Hc, Hr; unfold OS.Rename;
    [done|].
  by rewrite Append_lookup_eq, Create_lookup_eq.
Qed.

(** The runs of [downloadFile], by the calls made. *)
Lemma downloadFile_calls_cases e url fileName fs :
  let tempFileName := fileName +:+ ".tmp" in
  let r := downloadFile e url fileName fs in
  let calls := downloadFile_calls e fileName in
  (calls = [] /\ r.1 <> None) \/
  (calls = [CallCreate tempFileName] /\ r.1 <> None /\ create_err e = true) \/
  (exists k, calls = [CallCreate tempFileName;
                      CallWrite tempFileName (take k (body e));
                      CallRemove tempFileName] /\
             r.1 <> None /\ create_err e = false) \/
  (calls = [CallCreate tempFileName; CallWrite tempFileName (body e);
            CallRename tempFileName fileName] /\
   r.1 = None /\ create_err e = false) \/
  (calls = [CallCreate tempFileName; CallWrite tempFileName (body e);
            CallRename tempFileName fileName; CallRemove tempFileName] /\
   r.1 <> None /\ create_err e = false).
Proof.
  cbv zeta. unfold downloadFile, downloadFile_calls.
  destruct (request_err e); [by left|]. destruct (do_err e); [by left|].
  destruct (negb _); [by left|]. cbv zeta.
  destruct (create_err e) eqn:Hc; [right; left; done|].
  destruct (copy_err e) as [k|]; [right; right; left; by exists k|].
  destruct (flush_err e) as [k|]; [right; right; left; by exists k|].
  unfold OS.Rename. rewrite Append_lookup_eq, Create_lookup_eq.
  destruct (rename_err e); simpl; [right; right; right; right; done|].
  right; right; right; left; done.
Qed.

Ltac call_shape :=
  repeat (apply Forall_cons; split;
          [first [by left | by right; left; eexists
                 | by right; right; left | by right; right; right]|]);
  apply Forall_nil_2.

(** C5 as amended.  A call of [downloadFile] succeeds exactly when the request,
    the response status, the creation of the temporary file, the copy, the
    flush and the rename all work.  It touches no path but the destination
    and the temporary path next to it, which is another path.  Every call it
    makes to the operating system creates, writes or removes the temporary
    file, or renames it to the destination: the body is written to the
    temporary file, and the destination is written by the rename alone,
    which comes after the whole body is in the temporary file and is
    followed by nothing but the removal of the temporary file when the
    rename fails.  When the call succeeds the destination holds the whole
    response body and the temporary path is gone.  When it fails the
    destination is as it was before the call (absent if it was absent, its
    old content if it was there), its last call to the operating system is
    the removal of the temporary file unless the file could not be created,
    and the temporary file is gone once its removal works. *)
Theorem downloadFile_publishes_by_rename e url fileName fs :
  let tempFileName := fileName +:+ ".tmp" in
  let r := downloadFile e url fileName fs in
  let calls := downloadFile_calls e fileName in
  (r.1 = None <-> fetch_ok e = true) /\
  (forall p, p <> fileName -> p <> tempFileName -> r.2 !! p = fs !! p) /\
  (r.1 = None ->
     r.2 !! fileName = Some (body e) /\ r.2 !! tempFileName = None) /\
  (r.1 <> None ->
     r.2 !! fileName = fs !! fileName /\
     (r.2 = fs \/ (remove_err e = false -> r.2 !! tempFileName = None))) /\
  tempFileName <> fileName /\
  r.2 = foldl (do_call e) fs calls /\
  Forall (fun c => c = CallCreate tempFileName \/
                   (exists data, c = CallWrite tempFileName data) \/
                   c = CallRename tempFileName fileName \/
                   c = CallRemove tempFileName) calls /\
  (forall before after,
     calls = before ++ CallRename tempFileName fileName :: after ->
     before = [CallCreate tempFileName; CallWrite tempFileName (body e)] /\
     foldl (do_call e) fs before !! tempFileName = Some (body e) /\
     foldl (do_call e) fs before !! fileName = fs !! fileName /\
     ((r.1 = None /\ after = []) \/
      (r.1 <> None /\ after = [CallRemove tempFileName]))) /\
  (r.1 = None ->
     calls = [CallCreate tempFileName; CallWrite tempFileName (body e);
              CallRename tempFileName fileName]) /\
  (r.1 <> None ->
     calls = [] \/ calls = [CallCreate tempFileName] \/
     exists written, calls = written ++ [CallRemove tempFileName]).
Proof.
  intros tempFileName r calls.
  pose proof (downloadFile_effect e url fileName fs) as Heff. cbv zeta in Heff.
  pose proof (downloadFile_ok e url fileName fs) as Hok.
  pose proof (downloadFile_runs_its_calls e url fileName fs) as Hrun.
  pose proof (downloadFile_calls_cases e url fileName fs) as Hcases.
  cbv zeta in Hcases.
  pose proof (tmp_ne fileName) as Hne.
  fold tempFileName in Hne, Heff, Hcases. fold r in Hok, Hrun, Hcases.
  fold calls in Hrun, Hcases.
  split; [done|].
  assert ((forall p, p <> fileName -> p <> tempFileName -> r.2 !! p = fs !! p) /\
          (r.1 = None ->
             r.2 !! fileName = Some (body e) /\ r.2 !! tempFileName = None) /\
          (r.1 <> None ->
             r.2 !! fileName = fs !! fileName /\
             (r.2 = fs \/ (remove_err e = false -> r.2 !! tempFileName = None))))
    as (H2 & H3 & H4).
  { subst r. destruct (downloadFile e url fileName fs) as [[err|] fs'];
      cbn [fst snd] in *; destruct Heff as [Hother Hres].
    - split; [done|]. split; [done|]. by intros _.
    - split; [done|]. split; [by intros _|done]. }
  split; [done|]. split; [done|]. split; [done|].
  split; [done|]. split; [done|].
  clearbody r calls. clear Heff Hrun H2 H3 H4 Hok.
  assert (forall data, foldl (do_call e) fs
            [CallCreate tempFileName; CallWrite tempFileName data] !! tempFileName
            = if create_err e then (fun old => old ++ data) <$> fs !! tempFileName
              else Some data) as Htmp.
  { intros data. simpl. rewrite Append_lookup_eq.
    destruct (create_err e); [done|]. by rewrite Create_lookup_eq. }
  assert (forall data, foldl (do_call e) fs
            [CallCreate tempFileName; CallWrite tempFileName data] !! fileName
            = fs !! fileName) as Hdest.
  { intros data. simpl. rewrite Append_lookup_ne by done.
    destruct (create_err e); [done|]. by rewrite Create_lookup_ne. }
  destruct Hcases as [[-> Hr]|[(-> & Hr & Hc)|[(k & -> & Hr & Hc)|
                      [(-> & Hr & Hc)|(-> & Hr & Hc)]]]].
  - split; [call_shape|]. split; [by intros [|? ?] ?|]. split; [done|]. by left.
  - split; [call_shape|]. split; [by intros [|? [|? ?]] ?|].
    split; [done|]. intros _. right. by left.
  - split; [call_shape|].
    split; [by intros [|? [|? [|? [|? ?]]]] ?|]. split; [done|].
    intros _. right. right. by eexists [_; _].
  - split; [call_shape|]. split; [|done].
    intros [|? [|? [|? [|? ?]]]] after Heq; try done.
    injection Heq as <- <- <-. split; [done|].
    split; [by rewrite Htmp, Hc|]. split; [by rewrite Hdest|]. by left.
  - split; [call_shape|]. split; [|split; [done|]].
    + intros [|? [|? [|? [|? [|? ?]]]]] after Heq; try done.
      injection Heq as <- <- <-. split; [done|].
      split; [by rewrite Htmp, Hc|]. split; [by rewrite Hdest|]. by right.
    + intros _. right. right. by eexists [_; _; _].
Qed.

(** C5 as stated fails: a destination left by an earlier run is still there
    after a call that failed while writing. *)
Lemma downloadFile_failure_keeps_old_destination :
  let fs := {[ "downloads/segment_00000.ts" := [x01] ]} in
  let r := downloadFile (Inputs.fetch_cut Inputs.packet) "http://host/dir/0.ts"
             "downloads/segment_00000.ts" fs in
  r.1 = Some (ErrSys "copy" "downloads/segment_00000.ts.tmp") /\
  r.2 !! "downloads/segment_00000.ts" = Some [x01].
Proof. vm_compute. split; reflexivity. Qed.

Lemma downloadFile_publishes_by_rename_witness :
  let r := downloadFile (Inputs.fetch_cut Inputs.packet) "http://host/dir/0.ts"
             "downloads/segment_00000.ts" ∅ in
  r.2 !! "downloads/segment_00000.ts" = None /\
  r.2 !! "downloads/segment_00000.ts.tmp" = None.
Proof.
  intros r.
  destruct (downloadFile_publishes_by_rename
    (Inputs.fetch_cut Inputs.packet) "http://host/dir/0.ts"
    "downloads/segment_00000.ts" ∅) as (_ & _ & _ & Hfail & _).
  fold r in Hfail. destruct Hfail as (Hd & [Hsame|Ht]).
  - vm_compute. discriminate.
  - split; [exact Hd|]. rewrite Hsame. reflexivity.
  - split; [exact Hd|]. exact (Ht eq_refl).
Defined.

Lemma downloadFile_error_indep e url fileName fs1 fs2 :
  (downloadFile e url fileName fs1).1 = (downloadFile e url fileName fs2).1.
Proof.
  unfold downloadFile.
  destruct (request_err e); [done|]. destruct (do_err e); [done|].
  destruct (negb _); [done|]. destruct (create_err e); [done|].
  destruct (copy_err e); [done|]. destruct (flush_err e); [done|].
  unfold OS.Rename. destruct (rename_err e); [done|].
  rewrite !Append_lookup_eq, !Create_lookup_eq. done.
Qed.

Lemma attempt_error_ok segments r i :
  attempt_error cfg E segments r i = None <-> fetch_ok (fetch E r i) = true.
Proof. apply downloadFile_ok. Qed.

(** What one worker does to the shared variables. *)
Lemma worker_spec segments r st i :
  let st' := worker cfg E false segments r st i in
  trace st' = trace st ++ [Fetch r i (attempt_error cfg E segments r i)] /\
  segmentFiles st' =
    (if fetch_ok (fetch E r i) then <[i := path i]> (segmentFiles st)
     else segmentFiles st) /\
  failedSegments st' =
    failedSegments st ++ (if fetch_ok (fetch E r i) then [] else [i]) /\
  files st' = (downloadFile (fetch E r i) (segments !!! i) (path i) (files st)).2.
Proof.
  cbn zeta. unfold worker.
  pose proof (downloadFile_ok (fetch E r i) (segments !!! i) (path i) (files st)) as Hok.
  pose proof (downloadFile_error_indep (fetch E r i) (segments !!! i) (path i)
                (files st) ∅) as Hind.
  fold (attempt_error cfg E segments r i) in Hind.
  destruct (downloadFile _ _ _ _) as [[err|] fs'] eqn:Hd; cbn [fst snd] in *.
  - destruct (fetch_ok (fetch E r i)); [by destruct Hok as [_ Hok]; specialize (Hok eq_refl)|].
    simpl. by rewrite Hind.
  - destruct Hok as [Hok _]. rewrite (Hok eq_refl). simpl. by rewrite <- Hind, app_nil_r.
Qed.

Lemma workers_spec segments r order : forall st,
  let st' := foldl (worker cfg E false segments r) st order in
  trace st' =
    trace st ++ ((fun i => Fetch r i (attempt_error cfg E segments r i)) <$> order) /\
  segmentFiles st' = foldl (fill cfg E r) (segmentFiles st) order /\
  failedSegments st' =
    failedSegments st ++ filter (fun i => fetch_ok (fetch E r i) = false) order.
Proof.
  induction order as [|i order IH]; intros st; cbn zeta; cbn [foldl fmap list_fmap].
  - by rewrite filter_nil, !app_nil_r.
  - specialize (IH (worker cfg E false segments r st i)). cbn zeta in IH.
    destruct IH as (-> & -> & ->).
    destruct (worker_spec segments r st i) as (-> & -> & -> & _).
    rewrite <- !app_assoc. simpl. split; [done|]. split; [done|].
    rewrite filter_cons.
    destruct (fetch_ok (fetch E r i)); case_decide; try done; simpl;
      by rewrite ?app_nil_r.
Qed.

Lemma run_round_spec segments r tasks st :
  let st' := run_round cfg E segments r tasks st in
  let order := completion E r tasks in
  trace st' =
    trace st ++ ((fun i => Fetch r i (attempt_error cfg E segments r i)) <$> order) /\
  segmentFiles st' = foldl (fill cfg E r) (segmentFiles st) order /\
  failedSegments st' = filter (fun i => fetch_ok (fetch E r i) = false) order.
Proof.
  cbn zeta. unfold run_round.
  by destruct (workers_spec segments r (completion E r tasks)
    {| files := files st; trace := trace st;
       segmentFiles := segmentFiles st; failedSegments := [] |}) as (-> & -> & ->).
Qed.

Lemma fill_length r order : forall slots,
  length (foldl (fill cfg E r) slots order) = length slots.
Proof.
  induction order as [|i order IH]; intros slots; simpl; [done|].
  rewrite IH. unfold fill. destruct (fetch_ok _); [by rewrite length_insert|done].
Qed.

Lemma fill_lookup r order : forall slots j,
  foldl (fill cfg E r) slots order !! j =
    if decide (j ∈ order /\ fetch_ok (fetch E r j) = true /\ j < length slots)
    then Some (path j) else slots !! j.
Proof.
  induction order as [|i order IH]; intros slots j; cbn [foldl].
  - case_decide as Hd; [|done]. destruct Hd as (Hin & _). by apply not_elem_of_nil in Hin.
  - rewrite IH. unfold fill.
    destruct (fetch_ok (fetch E r i)) eqn:Hi.
    + rewrite length_insert. destruct (decide (i = j)) as [->|Hne].
      * destruct (decide (j < length slots)) as [Hlt|Hge].
        -- rewrite list_lookup_insert_eq by done.
           rewrite (decide_True (P := j ∈ j :: order /\ _)) by (split; [left|done]).
           by case_decide.
        -- rewrite list_insert_ge by lia. rewrite !decide_False by tauto. done.
      * rewrite list_lookup_insert_ne by done.
        apply decide_ext. rewrite elem_of_cons. intuition congruence.
    + destruct (decide (i = j)) as [->|Hne].
      * rewrite !decide_False; [done| |]; intros (_ & ? & _); congruence.
      * apply decide_ext. rewrite elem_of_cons. intuition congruence.
Qed.

(** Induction over the rounds of the retry loop. *)
Lemma retry_loop_ind segments (P : Z -> state -> Prop) :
  (forall r st, P r st -> (r <= MaxRetry cfg)%Z -> failedSegments st <> [] ->
     P (r + 1)%Z (run_round cfg E segments r (failedSegments st) (sleep r st))) ->
  forall r st, P r st ->
    exists r', P r' (retry_loop cfg E segments r st) /\ (r <= r')%Z /\
               (failedSegments (retry_loop cfg E segments r st) = [] \/
                (MaxRetry cfg < r')%Z).
Proof.
  intros Hstep r st. funelim (retry_loop cfg E segments r st);
    try match goal with Hc : _ = retry_loop _ _ _ _ _ |- _ => clear Hc end;
    intros HP.
  - case_bool_decide as Hlen.
    + exists retryCount. split; [done|]. split; [lia|]. left.
      by apply nil_length_inv.
    + match goal with IH : forall P : Z -> state -> Prop, _ |- _ =>
        destruct (IH P Hstep) as (r' & HP' & Hle & Hend) end.
      * apply Hstep; [done..|]. intros Hnil. by rewrite Hnil in Hlen.
      * exists r'. split; [done|]. split; [lia|done].
  - exists retryCount. split; [done|]. split; [lia|]. right. lia.
Qed.

(** The retry loop does what the specification says of the retry phase. *)
Lemma retry_loop_rounds segments :
  fair_completion E ->
  forall r st,
    exists tr,
      trace (retry_loop cfg E segments r st) = trace st ++ tr /\
      retry_rounds cfg E segments r (failedSegments st) tr
        (failedSegments (retry_loop cfg E segments r st)).
Proof.
  intros Hfair r st. funelim (retry_loop cfg E segments r st);
    try match goal with Hc : _ = retry_loop _ _ _ _ _ |- _ => clear Hc end.
  - case_bool_decide as Hlen.
    + exists []. rewrite app_nil_r. split; [done|].
      apply nil_length_inv in Hlen. rewrite Hlen. constructor.
    + match goal with IH : fair_completion _ -> _ |- _ =>
        destruct (IH Hfair) as (tr & Htr & Hrounds) end.
      destruct (run_round_spec segments retryCount (failedSegments st)
                  (sleep retryCount st)) as (Ht & _ & Hf).
      cbn zeta in Ht, Hf. rewrite Hf in Hrounds. rewrite Htr, Ht. simpl.
      eexists. split; [by rewrite <- !app_assoc|]. simpl.
      apply retry_round; [done| |apply Hfair|done].
      intros Hnil. by rewrite Hnil in Hlen.
  - exists []. rewrite app_nil_r. split; [done|]. apply retry_stop_budget. lia.
Qed.

Lemma segment_path_elem n i : i < n -> path i ∈ segment_paths cfg n.
Proof.
  intros Hi. unfold segment_paths. apply list_elem_of_fmap. exists i.
  split; [done|]. apply elem_of_seq. lia.
Qed.

Lemma segment_temp_path_elem n i :
  i < n -> path i +:+ ".tmp" ∈ segment_temp_paths cfg n.
Proof.
  intros Hi. unfold segment_temp_paths. apply list_elem_of_fmap. exists i.
  split; [done|]. apply elem_of_seq. lia.
Qed.

Lemma tasks_ok_filter n (P : nat -> Prop) `{!forall i, Decision (P i)} order tasks :
  order ≡ₚ tasks -> tasks_ok n tasks -> tasks_ok n (filter P order).
Proof.
  intros Hperm [Hnd Hlt]. split.
  - apply NoDup_filter. by rewrite Hperm.
  - intros j Hj. apply list_elem_of_filter in Hj as [_ Hj]. apply Hlt.
    by rewrite <- Hperm.
Qed.

Lemma sleep_inv n r st : sched_inv cfg n st -> sched_inv cfg n (sleep r st).
Proof.
  intros (Hlen & Hslots & Hdone). split; [done|]. split; [done|].
  intros r' j Hin Hj. simpl in Hin. apply elem_of_app in Hin as [Hin|Hin].
  - by eapply Hdone.
  - apply list_elem_of_singleton in Hin. discriminate.
Qed.

Lemma run_round_inv n segments r tasks st :
  fair_completion E -> sched_inv cfg n st -> tasks_ok n tasks ->
  sched_inv cfg n (run_round cfg E segments r tasks st) /\
  tasks_ok n (failedSegments (run_round cfg E segments r tasks st)).
Proof.
  intros Hfair (Hlen & Hslots & Hdone) Htasks.
  destruct (run_round_spec segments r tasks st) as (Ht & Hs & Hf).
  cbn zeta in *. split; [|rewrite Hf; eapply tasks_ok_filter; [apply Hfair|done]].
  unfold sched_inv. rewrite Ht, Hs.
  split; [by rewrite fill_length|]. split.
  - intros j x. rewrite fill_lookup. case_decide; [|by apply Hslots].
    intros [= <-]. by right.
  - intros r' j Hin Hj. rewrite fill_lookup.
    case_decide as Hd; [done|]. apply elem_of_app in Hin as [Hin|Hin].
    + by eapply Hdone.
    + exfalso. apply Hd. apply list_elem_of_fmap in Hin as (i & Hev & Hi).
      injection Hev as -> -> Hnone. split; [done|].
      split; [by eapply attempt_error_ok|lia].
Qed.

(** The state of the scheduler after the first pass and the retry rounds. *)
Lemma download_phases_inv segments fs :
  fair_completion E ->
  let st := download_phases cfg E segments fs in
  sched_inv cfg (length segments) st /\
  tasks_ok (length segments) (failedSegments st).
Proof.
  intros Hfair. cbn zeta. unfold download_phases, first_pass.
  set (st0 := {| files := fs; trace := []; segmentFiles := _; failedSegments := [] |}).
  assert (sched_inv cfg (length segments) st0) as Hinv0.
  { unfold sched_inv, st0. simpl. split; [by rewrite length_replicate|]. split.
    - intros j x Hj. apply lookup_replicate in Hj as [-> _]. by left.
    - intros r j Hin. by apply not_elem_of_nil in Hin. }
  assert (tasks_ok (length segments) (seq 0 (length segments))) as Htasks.
  { split; [apply NoDup_seq|]. intros j Hj. apply elem_of_seq in Hj. lia. }
  destruct (run_round_inv _ segments 0 _ st0 Hfair Hinv0 Htasks) as [Hinv1 Ht1].
  destruct (retry_loop_ind segments
    (fun _ st => sched_inv cfg (length segments) st /\
                 tasks_ok (length segments) (failedSegments st))) with
    (r := 1%Z) (st := run_round cfg E segments 0 (seq 0 (length segments)) st0)
    as (r' & Hfinal & _); [|done|done].
  intros r st [Hi Ht] _ _. apply run_round_inv; [done| |done]. by apply sleep_inv.
Qed.

(** Without any assumption on the completion order: slots keep their length
    and hold nothing but the path of their own ordinal. *)
Lemma download_phases_slots segments fs :
  let st := download_phases cfg E segments fs in
  length (segmentFiles st) = length segments /\
  (forall j x, segmentFiles st !! j = Some x -> x = "" \/ x = path j).
Proof.
  cbn zeta. unfold download_phases, first_pass.
  set (st0 := {| files := fs; trace := []; segmentFiles := _; failedSegments := [] |}).
  set (P := fun st => length (segmentFiles st) = length segments /\
     (forall j x, segmentFiles st !! j = Some x -> x = "" \/ x = path j)).
  assert (forall r tasks st, P st -> P (run_round cfg E segments r tasks st)) as Hround.
  { intros r tasks st [Hlen Hslots].
    destruct (run_round_spec segments r tasks st) as (_ & Hs & _).
    cbn zeta in Hs. unfold P. rewrite Hs. split; [by rewrite fill_length|].
    intros j x. rewrite fill_lookup. case_decide; [|by apply Hslots].
    intros [= <-]. by right. }
  assert (P st0) as HP0.
  { unfold P, st0. simpl. split; [by rewrite length_replicate|].
    intros j x Hj. apply lookup_replicate in Hj as [-> _]. by left. }
  destruct (retry_loop_ind segments (fun _ st => P st)) with
    (r := 1%Z) (st := run_round cfg E segments 0 (seq 0 (length segments)) st0)
    as (r' & Hfinal & _); [|by apply Hround|done].
  intros r st HP _ _. by apply Hround.
Qed.
End scheduler_facts.

Section verify_facts.
Import Downloader.
Context `{GoLib}.
Variable cfg : Config.
Variable E : Env.

Lemma verify_loop_step fs i file rest :
  slot_passes cfg E fs i file ->
  verify_loop cfg E fs i (file :: rest) = verify_loop cfg E fs (S i) rest.
Proof.
  intros (Hne & content & Hf & Hstat & Hc & Hv). simpl.
  rewrite bool_decide_eq_false_2 by done. unfold OS.Stat. rewrite Hf, Hstat.
  destruct content as [|b content]; [done|].
  destruct (Z.eqb_spec (Z.of_nat (length (b :: content))) 0) as [Hz|_];
    [simpl in Hz; lia|].
  destruct (ValidateFiles cfg); [|done]. by rewrite Hv.
Qed.

Lemma verify_loop_head fs i file rest :
  verify_loop cfg E fs i (file :: rest) = None -> slot_passes cfg E fs i file.
Proof.
  simpl. case_bool_decide as Hne; [done|]. unfold OS.Stat.
  destruct (fs !! file) as [content|] eqn:Hf; [|done].
  destruct (stat_err E i) eqn:Hstat; [done|].
  destruct (Z.eqb_spec (Z.of_nat (length content)) 0) as [Hz|Hz]; [done|].
  intros Hv. split; [done|]. exists content. split; [done|]. split; [done|].
  split; [intros ->; by apply Hz|].
  intros Hval. rewrite Hval in Hv. by destruct (Validator.ValidateTS _ _ _).
Qed.

(** The verify loop passes exactly when every slot passes its checks. *)
Lemma verify_loop_None fs slots : forall i,
  verify_loop cfg E fs i slots = None <->
  forall k file, slots !! k = Some file -> slot_passes cfg E fs (i + k) file.
Proof.
  induction slots as [|file rest IH]; intros i.
  - split; [intros _ k file Hk; by rewrite lookup_nil in Hk|done].
  - split.
    + intros Hv. pose proof (verify_loop_head _ _ _ _ Hv) as Hp.
      rewrite (verify_loop_step _ _ _ _ Hp) in Hv.
      intros [|k] f Hk; simpl in Hk.
      * injection Hk as <-. by rewrite Nat.add_0_r.
      * replace (i + S k) with (S i + k) by lia. by eapply IH.
    + intros Hall. rewrite verify_loop_step.
      * apply IH. intros k f Hk. replace (S i + k) with (i + S k) by lia.
        by apply Hall.
      * specialize (Hall 0 file eq_refl). by rewrite Nat.add_0_r in Hall.
Qed.

(** The first empty slot is reported when the slots before it pass. *)
Lemma verify_loop_missing fs slots : forall i k,
  slots !! k = Some "" ->
  (forall k' file, k' < k -> slots !! k' = Some file ->
     slot_passes cfg E fs (i + k') file) ->
  verify_loop cfg E fs i slots = Some (ErrMissing (Z.of_nat (i + k) + 1)).
Proof.
  induction slots as [|file rest IH]; intros i k Hk Hbefore; [done|].
  destruct k as [|k]; simpl in Hk.
  - injection Hk as ->. simpl. by rewrite Nat.add_0_r.
  - rewrite verify_loop_step.
    + replace (i + S k) with (S i + k) by lia. apply IH; [done|].
      intros k' f Hlt Hf. replace (S i + k') with (i + S k') by lia.
      apply Hbefore; [lia|done].
    + specialize (Hbefore 0 file ltac:(lia) eq_refl). by rewrite Nat.add_0_r in Hbefore.
Qed.

(** What a worker, a round and the two phases do to the file system. *)
Lemma worker_files n segments r st i fs0 :
  i < n -> files_inv cfg E n fs0 (files st) ->
  files_inv cfg E n fs0 (files (worker cfg E false segments r st i)).
Proof.
  intros Hi [Hframe Htemp].
  destruct (worker_spec cfg E segments r st i) as (_ & _ & _ & ->).
  pose proof (downloadFile_effect (fetch E r i) (segments !!! i)
                (segment_path cfg i) (files st)) as Hd. cbv zeta in Hd.
  destruct (downloadFile _ _ _ _) as [err fs'] eqn:Hdl. cbn [snd].
  destruct Hd as [Hother Hres]. split.
  - intros p Hp1 Hp2. rewrite Hother; [by apply Hframe| |].
    + intros ->. by apply Hp1, segment_path_elem.
    + intros ->. by apply Hp2, segment_temp_path_elem.
  - intros Hrm q Hq1 Hq2.
    destruct (decide (q = segment_path cfg i +:+ ".tmp")) as [->|Hne].
    + destruct err as [e|].
      * destruct Hres as [_ [->|Hgone]]; [by apply Htemp|].
        left. apply Hgone. apply Hrm.
      * left. apply Hres.
    + rewrite Hother; [by apply Htemp| |done].
      intros ->. by apply Hq2, segment_path_elem.
Qed.

Lemma workers_files n segments r fs0 order : forall st,
  (forall i, i ∈ order -> i < n) -> files_inv cfg E n fs0 (files st) ->
  files_inv cfg E n fs0 (files (foldl (worker cfg E false segments r) st order)).
Proof.
  induction order as [|i order IH]; intros st Hlt Hinv; [done|].
  cbn [foldl]. apply IH.
  - intros j Hj. apply Hlt. by right.
  - apply worker_files; [|done]. apply Hlt. by left.
Qed.

Lemma run_round_files n segments r tasks st fs0 :
  fair_completion E -> tasks_ok n tasks ->
  files_inv cfg E n fs0 (files st) ->
  files_inv cfg E n fs0 (files (run_round cfg E segments r tasks st)).
Proof.
  intros Hfair [_ Hlt] Hinv. unfold run_round. apply workers_files; [|done].
  intros i Hi. apply Hlt. by rewrite <- (Hfair r tasks).
Qed.

Lemma download_phases_files segments fs :
  fair_completion E ->
  files_inv cfg E (length segments) fs
    (files (download_phases cfg E segments fs)).
Proof.
  intros Hfair. unfold download_phases, first_pass.
  set (st0 := {| files := fs; trace := []; segmentFiles := _; failedSegments := [] |}).
  assert (tasks_ok (length segments) (seq 0 (length segments))) as Htasks.
  { split; [apply NoDup_seq|]. intros j Hj. apply elem_of_seq in Hj. lia. }
  assert (files_inv cfg E (length segments) fs (files st0)) as Hinv0.
  { split; [done|]. intros _ q _ _. by right. }
  assert (sched_inv cfg (length segments) st0) as Hs0.
  { unfold sched_inv, st0. simpl. split; [by rewrite length_replicate|]. split.
    - intros j x Hj. apply lookup_replicate in Hj as [-> _]. by left.
    - intros r j Hin. by apply not_elem_of_nil in Hin. }
  destruct (run_round_inv cfg E _ segments 0 _ st0 Hfair Hs0 Htasks) as [Hs1 Ht1].
  destruct (retry_loop_ind cfg E segments
    (fun _ st => files_inv cfg E (length segments) fs (files st) /\
                 sched_inv cfg (length segments) st /\
                 tasks_ok (length segments) (failedSegments st))) with
    (r := 1%Z) (st := run_round cfg E segments 0 (seq 0 (length segments)) st0)
    as (r' & (Hfinal & _) & _); [| |done].
  - intros r st (Hf & Hs & Ht) _ _.
    split; [by apply run_round_files|].
    apply run_round_inv; [done| |done]. by apply sleep_inv.
  - split; [by apply run_round_files|done].
Qed.

End verify_facts.

(** ** The first slot that fails its checks *)

Section verify_first.
Import Downloader.
Context `{GoLib}.
Variable cfg : Config.
Variable E : Env.

Abbreviation check_slot := (Downloader.check_slot cfg E).

Lemma verify_loop_cons fs i file rest :
  verify_loop cfg E fs i (file :: rest) =
    match check_slot fs i file with
    | Some err => Some err
    | None => verify_loop cfg E fs (S i) rest
    end.
Proof.
  simpl. unfold check_slot. case_bool_decide; [done|].
  destruct (OS.Stat _ _ _) as [size|err]; [|done].
  destruct (size =? 0)%Z; [done|].
  destruct (ValidateFiles cfg); [|done].
  by destruct (Validator.ValidateTS _ _ _).
Qed.

Lemma check_slot_None fs i file :
  check_slot fs i file = None <-> slot_passes cfg E fs i file.
Proof.
  pose proof (verify_loop_cons fs i file []) as Hc. split.
  - intros Hn. rewrite Hn in Hc. simpl in Hc. by apply (verify_loop_head cfg E fs i file []).
  - intros Hp. rewrite (verify_loop_step cfg E fs i file [] Hp) in Hc. simpl in Hc.
    by destruct (check_slot fs i file).
Qed.

(** The error of the verify loop is the error of the first slot that fails
    its checks. *)
Lemma verify_loop_first fs slots : forall i err,
  verify_loop cfg E fs i slots = Some err ->
  exists j file,
    slots !! j = Some file /\
    (forall j' file', j' < j -> slots !! j' = Some file' ->
       slot_passes cfg E fs (i + j') file') /\
    check_slot fs (i + j) file = Some err.
Proof.
  induction slots as [|file rest IH]; intros i err; [done|].
  rewrite verify_loop_cons. destruct (check_slot fs i file) as [e|] eqn:Hc.
  - intros [= <-]. exists 0, file. split; [done|]. split; [intros; lia|].
    by rewrite Nat.add_0_r.
  - intros Hv. destruct (IH (S i) err Hv) as (j & f & Hj & Hbefore & Herr).
    exists (S j), f. split; [done|]. split.
    + intros [|j'] f' Hlt Hf'; simpl in Hf'.
      * injection Hf' as <-. rewrite Nat.add_0_r. by apply check_slot_None.
      * replace (i + S j') with (S i + j') by lia. apply Hbefore; [lia|done].
    + by replace (i + S j) with (S i + j) by lia.
Qed.

(** The errors a slot can fail its checks with. *)
Lemma check_slot_Some fs i file err :
  check_slot fs i file = Some err ->
  (file = "" /\ err = ErrMissing (Z.of_nat i + 1)) \/
  (file <> "" /\
   ((exists cause, OS.Stat (stat_err E i) file fs = inr cause /\
                   err = ErrCannotAccess (Z.of_nat i + 1) cause) \/
    (OS.Stat (stat_err E i) file fs = inl 0%Z /\
     err = ErrEmpty (Z.of_nat i + 1)) \/
    (exists size cause,
       OS.Stat (stat_err E i) file fs = inl size /\ size <> 0%Z /\
       ValidateFiles cfg = true /\
       Validator.ValidateTS (validate E i) file fs = Some cause /\
       err = ErrIntegrity (Z.of_nat i + 1) cause))).
Proof.
  unfold check_slot. case_bool_decide as Hf; [intros [= <-]; by left|].
  intros Hc. right. split; [done|].
  destruct (OS.Stat _ _ _) as [size|cause] eqn:Hs;
    [|injection Hc as <-; left; eauto].
  destruct (Z.eqb_spec size 0) as [->|Hnz];
    [injection Hc as <-; right; left; eauto|].
  destruct (ValidateFiles cfg) eqn:Hv; [|done].
  destruct (Validator.ValidateTS _ _ _) as [cause|] eqn:Hval; [|done].
  injection Hc as <-. right. right. exists size, cause. done.
Qed.

End verify_first.

(** ** The effects of the scheduler *)

Section trace_facts.
Import Downloader.
Context `{GoLib}.
Variable cfg : Config.
Variable E : Env.

Abbreviation ev_of segments r :=
  (fun i => Fetch r i (attempt_error cfg E segments r i)).

Lemma no_fetch_in_round segments r i (order : list nat) :
  i ∉ order -> Forall (fun ev => ~ fetches i ev) (ev_of segments r <$> order).
Proof.
  intros Hi. apply Forall_fmap, Forall_forall. intros j Hj. simpl.
  intros ->. done.
Qed.

Lemma success_last_sleep tr failed d :
  success_last tr failed -> success_last (tr ++ [Sleep d]) failed.
Proof.
  intros Hsl tr1 r i tr2 Heq.
  destruct tr2 as [|ev tr2 _] using rev_ind.
  - apply (f_equal (@last event)) in Heq. rewrite !last_snoc in Heq. discriminate.
  - rewrite app_comm_cons, app_assoc in Heq.
    apply app_inj_tail in Heq as [Heq <-].
    destruct (Hsl _ _ _ _ Heq) as [Hf Hn]. split; [|done].
    apply Forall_app. split; [done|]. constructor; [|constructor]. simpl. tauto.
Qed.

Lemma success_last_round segments r tr failed order :
  success_last tr failed -> NoDup order ->
  (forall i, i ∈ order -> i ∈ failed) ->
  success_last (tr ++ (ev_of segments r <$> order))
    (filter (fun i => fetch_ok (fetch E r i) = false) order).
Proof.
  intros Hsl Hnd Hsub tr1 r' i tr2 Heq.
  apply app_eq_inv in Heq as [(k & Htr1 & Hk)|(k & Htr & Hk)].
  - (* the success is among the new calls *)
    destruct k as [|ev k].
    + rewrite app_nil_r in Htr1. subst tr1. simpl in Hk.
      destruct order as [|j order]; [done|]. simpl in Hk.
      injection Hk as Hr Hi Hok Htr2. subst r' i tr2.
      apply NoDup_cons in Hnd as [Hj Hnd]. split.
      * by apply no_fetch_in_round.
      * intros Hin. apply list_elem_of_filter in Hin as [Hfail _].
        symmetry in Hok. apply attempt_error_ok in Hok. congruence.
    + simpl in Hk. injection Hk as Hev Hk. subst ev.
      assert (i ∉ failed) as Hni.
      { destruct (Hsl tr1 r' i k) as [_ ?]; [|done]. by rewrite Htr1. }
      destruct (Hsl tr1 r' i k) as [Hf _]; [by rewrite Htr1|].
      split.
      * rewrite Hk. apply Forall_app. split; [done|].
        apply no_fetch_in_round. intros Hin. by apply Hni, Hsub.
      * intros Hin. apply list_elem_of_filter in Hin as [_ Hin].
        by apply Hni, Hsub.
  - apply fmap_app_inv in Hk as (o1 & o2 & Ho1 & Ho2 & ->).
    destruct o2 as [|j o2]; [done|]. simpl in Ho2.
    injection Ho2 as Hr Hi Hok Htr2. subst r' i tr2.
    apply NoDup_app in Hnd as (_ & _ & Hnd). apply NoDup_cons in Hnd as [Hj _].
    split; [by apply no_fetch_in_round|].
    intros Hin. apply list_elem_of_filter in Hin as [Hfail _].
    symmetry in Hok. apply attempt_error_ok in Hok. congruence.
Qed.

Lemma fetches_below_round segments r n tr (order : list nat) :
  fetches_below n tr -> (forall i, i ∈ order -> i < n) ->
  fetches_below n (tr ++ (ev_of segments r <$> order)).
Proof.
  intros Hb Hlt r' i e Hin. apply elem_of_app in Hin as [Hin|Hin]; [by eapply Hb|].
  apply list_elem_of_fmap in Hin as (j & Hev & Hj). injection Hev as -> -> _.
  by apply Hlt.
Qed.

Lemma run_round_run_inv n segments r tasks st :
  fair_completion E ->
  sched_inv cfg n st -> tasks_ok n tasks ->
  success_last (trace st) tasks -> fetches_below n (trace st) ->
  run_inv cfg n (run_round cfg E segments r tasks st).
Proof.
  intros Hfair Hs Ht Hsl Hb.
  destruct (run_round_inv cfg E n segments r tasks st Hfair Hs Ht) as [Hs' Ht'].
  destruct (run_round_spec cfg E segments r tasks st) as (Htr & _ & Hf).
  cbn zeta in Htr, Hf. split; [done|]. split; [done|]. rewrite Htr, Hf.
  destruct Ht as [Hnd Hlt]. split.
  - apply success_last_round with (failed := tasks);
      [done|by rewrite (Hfair r tasks)|].
    intros i Hi. by rewrite <- (Hfair r tasks).
  - apply fetches_below_round; [done|]. intros i Hi. apply Hlt.
    by rewrite <- (Hfair r tasks).
Qed.

Lemma download_phases_run_inv segments fs :
  fair_completion E ->
  run_inv cfg (length segments) (download_phases cfg E segments fs).
Proof.
  intros Hfair. unfold download_phases, first_pass.
  set (st0 := {| files := fs; trace := []; segmentFiles := _; failedSegments := [] |}).
  assert (run_inv cfg (length segments)
            (run_round cfg E segments 0 (seq 0 (length segments)) st0)) as Hinv1.
  { apply run_round_run_inv; [done| | | |].
    - unfold sched_inv, st0. simpl. split; [by rewrite length_replicate|]. split.
      + intros j x Hj. apply lookup_replicate in Hj as [-> _]. by left.
      + intros r j Hin. by apply not_elem_of_nil in Hin.
    - split; [apply NoDup_seq|]. intros j Hj. apply elem_of_seq in Hj. lia.
    - intros tr1 r i tr2 Heq. simpl in Heq. by destruct tr1.
    - intros r i e Hin. by apply not_elem_of_nil in Hin. }
  destruct (retry_loop_ind cfg E segments (fun _ st => run_inv cfg (length segments) st))
    with (r := 1%Z) (st := run_round cfg E segments 0 (seq 0 (length segments)) st0)
    as (r' & Hfinal & _); [|done|done].
  intros r st (Hs & Ht & Hsl & Hb) _ _.
  apply run_round_run_inv; [done|by apply sleep_inv|done| |].
  - simpl. by apply success_last_sleep.
  - simpl. intros r' i e Hin. apply elem_of_app in Hin as [Hin|Hin]; [by eapply Hb|].
    apply list_elem_of_singleton in Hin. discriminate.
Qed.

End trace_facts.

(** ** The claims about the scheduler and the pipeline *)

Section retry_claims.
Import Downloader.
Context `{GoLib}.
Variable cfg : Config.
Variable E : Env.

Lemma sleeps_fetches (f : nat -> event) (order : list nat) :
  (forall i, exists r e, f i = Fetch r i e) -> sleeps (f <$> order) = [].
Proof.
  intros Hf. unfold sleeps. induction order as [|i order IH]; [done|].
  simpl. destruct (Hf i) as (r & e & ->). done.
Qed.

Lemma retry_rounds_sleeps segments r failed tr failed' :
  retry_rounds cfg E segments r failed tr failed' ->
  exists k, sleeps tr = (fun j => (r + Z.of_nat j)%Z) <$> seq 0 k /\
            (Z.of_nat k <= Z.max 0 (MaxRetry cfg + 1 - r))%Z.
Proof.
  induction 1 as [r|r failed Hlt|r failed order tr failed' Hle Hne Hperm _ IH].
  - exists 0. split; [done|lia].
  - exists 0. split; [done|lia].
  - destruct IH as (k & Hs & Hk). exists (S k). split; [|lia].
    unfold sleeps in *. cbn [omap list_omap]. rewrite omap_app.
    fold (sleeps ((fun i => Fetch r i (attempt_error cfg E segments r i)) <$> order)).
    rewrite sleeps_fetches by eauto. simpl. rewrite Hs.
    f_equal; [f_equal; lia|]. rewrite <- fmap_S_seq, <- list_fmap_compose.
    apply list_fmap_ext. intros _ j _. simpl. lia.
Qed.

(** C4.  After the first pass the effects of [downloadSegments] are those of the
    retry phase of the specification: rounds [1, 2, ...] while the failure
    set is not empty and the round is at most [MaxRetry]; round [r] sleeps
    [r] seconds and then calls [downloadFile] once for each ordinal of the
    current failure set, and the next failure set holds those that failed
    again.  So there are at most [MaxRetry] sleeps, of 1, 2, ... seconds.
    And a successful call for an ordinal fills its slot, is the only
    successful call for it, and no call for it follows. *)
Theorem retry_phase_follows_the_rounds segments fs :
  fair_completion E ->
  let st0 := first_pass cfg E segments fs in
  let st := retry_loop cfg E segments 1 st0 in
  exists tr,
    trace st = trace st0 ++ tr /\
    retry_rounds cfg E segments 1 (failedSegments st0) tr (failedSegments st) /\
    (exists k, sleeps tr = Z.of_nat <$> seq 1 k /\
               (Z.of_nat k <= Z.max 0 (MaxRetry cfg))%Z) /\
    (forall tr1 r i tr2, trace st = tr1 ++ Fetch r i None :: tr2 ->
       segmentFiles st !! i = Some (segment_path cfg i) /\
       Forall (fun ev => ~ fetches i ev) tr2 /\
       (forall r', Fetch r' i None ∉ tr1) /\
       i ∉ failedSegments st).
Proof.
  intros Hfair st0 st.
  destruct (retry_loop_rounds cfg E segments Hfair 1 st0) as (tr & Htr & Hrounds).
  exists tr. split; [done|]. split; [done|]. split.
  - destruct (retry_rounds_sleeps _ _ _ _ _ Hrounds) as (k & Hs & Hk).
    exists k. split; [|lia]. rewrite Hs, <- fmap_S_seq, <- list_fmap_compose.
    apply list_fmap_ext. intros _ j _. simpl. lia.
  - destruct (download_phases_run_inv cfg E segments fs Hfair)
      as ((_ & _ & Hfilled) & _ & Hlast & Hbelow).
    fold st0 in Hfilled, Hlast, Hbelow.
    change (download_phases cfg E segments fs) with st in *.
    intros tr1 r i tr2 Heq. destruct (Hlast _ _ _ _ Heq) as [Hafter Hnf].
    assert (Fetch r i None ∈ trace st) as Hin.
    { rewrite Heq. apply elem_of_app. right. by left. }
    split; [apply (Hfilled r); [done|by eapply Hbelow]|].
    split; [done|]. split; [|done].
    intros r' Hin'. apply list_elem_of_split in Hin' as (a & b & ->).
    rewrite <- app_assoc in Heq. simpl in Heq.
    destruct (Hlast _ _ _ _ Heq) as [Hall _].
    apply Forall_app in Hall as [_ Hall]. inversion Hall as [|? ? Hno _]; subst.
    by apply Hno.
Qed.
End retry_claims.

Section pipeline_claims.
Import Downloader.
Context `{GoLib}.
Variable cfg : Config.
Variable E : Env.

Lemma downloadSegments_unfold segments fs :
  (0 < Threads cfg)%Z ->
  downloadSegments cfg E segments fs =
    let st := download_phases cfg E segments fs in
    match verify_loop cfg E (files st) 0 (segmentFiles st) with
    | Some err => Some ([], Some err, st)
    | None => Some (segmentFiles st, None, st)
    end.
Proof.
  intros Ht. unfold downloadSegments.
  rewrite decide_False by lia. rewrite decide_False by (intros [? _]; lia). done.
Qed.

Lemma downloadSegments_Some segments fs files err st :
  downloadSegments cfg E segments fs = Some (files, err, st) ->
  st = download_phases cfg E segments fs /\
  err = verify_loop cfg E (Downloader.files st) 0 (segmentFiles st) /\
  files = match err with Some _ => [] | None => segmentFiles st end.
Proof.
  unfold downloadSegments. case_decide; [done|]. case_decide; [done|].
  destruct (verify_loop _ _ _ _ _) as [e|] eqn:Hv; intros [= <- <- <-];
    by rewrite Hv.
Qed.

(** C1.  A merge that returns no error leaves at the output path the
    concatenation, in list order, of what the input files held; a merge whose
    inputs exist and that meets no fault of the operating system returns no
    error; and the list [downloadSegments] hands to the merge is the list of
    the segment paths in ascending ordinal order, whatever the environment,
    so whatever the order in which the downloads completed. *)
Theorem merge_output_is_ordered_concatenation inputs fs segments fs0 :
  (tempOutputFile cfg ∉ inputs ->
   forall fs', mergeSegments cfg E inputs fs = (None, fs') ->
     exists contents,
       Forall2 (fun file content => fs !! file = Some content)
         inputs contents /\
       fs' !! Output cfg = Some (concat contents)) /\
  (merge_runs_clean E ->
   Forall (fun file => is_Some (fs !! file)) inputs ->
   exists fs', mergeSegments cfg E inputs fs = (None, fs')) /\
  (forall files st,
     downloadSegments cfg E segments fs0 = Some (files, None, st) ->
     files = segment_path cfg <$> seq 0 (length segments)).
Proof.
  pose proof (mergeSegments_spec cfg E inputs fs) as Hm. cbn zeta in Hm.
  destruct Hm as (_ & Hok & _ & Htot). split; [|split].
  - intros Hnin fs' Heq. rewrite Heq in Hok. cbn [fst snd] in Hok.
    destruct (Hok eq_refl Hnin) as (contents & Hall & Hout & _). eauto.
  - intros Hclean Hall. specialize (Htot Hclean Hall).
    destruct (mergeSegments cfg E inputs fs) as [err fs'].
    simpl in Htot. subst err. eauto.
  - intros files st Hd. apply downloadSegments_Some in Hd as (-> & Hv & ->).
    symmetry in Hv.
    destruct (download_phases_slots cfg E segments fs0) as [Hlen Hslots].
    pose proof (proj1 (verify_loop_None cfg E _ _ _) Hv) as Hpass.
    apply list_eq. intros j. rewrite list_lookup_fmap.
    destruct (decide (j < length segments)) as [Hj|Hj].
    + rewrite lookup_seq_lt by done. simpl.
      destruct (lookup_lt_is_Some_2 (segmentFiles (download_phases cfg E segments fs0)) j)
        as [x Hx]; [lia|].
      rewrite Hx. f_equal. destruct (Hslots _ _ Hx) as [->|]; [|done].
      by destruct (Hpass _ _ Hx) as [? _].
    + rewrite lookup_seq_ge by lia. simpl. apply lookup_ge_None. lia.
Qed.

(** C2 as amended.  When a slot is still empty after the two download phases,
    [downloadSegments] returns an error and no list, and [Download] returns
    that error without calling the merge.  The error is that of the first
    slot that fails its checks, which is the empty slot or a slot before it:
    "segment k+1 failed to download" for the first empty slot [k] when the
    slots before it pass their checks; otherwise the error of the first
    slot [j] before it that fails a check, which names [j+1]: its file cannot
    be accessed, is empty, or fails the integrity check.  And the output
    path is as it was when it is no staging path. *)
Theorem missing_segment_aborts_the_run segments fs content baseURL k :
  fair_completion E -> (0 < Threads cfg)%Z ->
  let st := download_phases cfg E segments fs in
  segmentFiles st !! k = Some "" ->
  exists err,
    downloadSegments cfg E segments fs = Some ([], Some err, st) /\
    ((forall k' file, k' < k -> segmentFiles st !! k' = Some file ->
        slot_passes cfg E (files st) k' file) ->
     err = ErrMissing (Z.of_nat k + 1)) /\
    (exists j file,
       j <= k /\ segmentFiles st !! j = Some file /\
       (forall j' file', j' < j -> segmentFiles st !! j' = Some file' ->
          slot_passes cfg E (files st) j' file') /\
       ~ slot_passes cfg E (files st) j file /\
       check_slot cfg E (files st) j file = Some err /\
       (j = k -> err = ErrMissing (Z.of_nat k + 1)) /\
       (j < k ->
          (file = "" /\ err = ErrMissing (Z.of_nat j + 1)) \/
          (file = segment_path cfg j /\ file <> "" /\
           ((exists cause, OS.Stat (stat_err E j) file (files st) = inr cause /\
                           err = ErrCannotAccess (Z.of_nat j + 1) cause) \/
            (OS.Stat (stat_err E j) file (files st) = inl 0%Z /\
             err = ErrEmpty (Z.of_nat j + 1)) \/
            (exists size cause,
               OS.Stat (stat_err E j) file (files st) = inl size /\
               size <> 0%Z /\ ValidateFiles cfg = true /\
               Validator.ValidateTS (validate E j) file (files st) = Some cause /\
               err = ErrIntegrity (Z.of_nat j + 1) cause))))) /\
    (Parser.ParseSegments content baseURL = (segments, None) ->
     Download cfg E content baseURL fs =
       Some (Some (ErrWrap "error downloading segments" err),
             files st, trace st)) /\
    (Output cfg ∉ segment_paths cfg (length segments) ->
     Output cfg ∉ segment_temp_paths cfg (length segments) ->
     files st !! Output cfg = fs !! Output cfg).
Proof.
  intros Hfair Ht st Hk.
  assert (verify_loop cfg E (files st) 0 (segmentFiles st) <> None) as Hv.
  { intros Hv. pose proof (proj1 (verify_loop_None cfg E _ _ _) Hv _ _ Hk) as [? _].
    done. }
  destruct (verify_loop cfg E (files st) 0 (segmentFiles st)) as [err|] eqn:Hverify;
    [clear Hv|done].
  assert (downloadSegments cfg E segments fs = Some ([], Some err, st)) as Hd.
  { rewrite downloadSegments_unfold by done. cbn zeta. fold st. by rewrite Hverify. }
  exists err. split; [done|]. split; [|split; [|split]].
  - intros Hbefore.
    pose proof (verify_loop_missing cfg E (files st) (segmentFiles st) 0 k Hk Hbefore)
      as Hm. simpl in Hm. congruence.
  - destruct (verify_loop_first cfg E _ _ 0 err Hverify) as (j & file & Hj & Hbefore & Herr).
    simpl in Herr.
    assert (~ slot_passes cfg E (files st) j file) as Hfail.
    { intros Hp. apply (check_slot_None cfg E) in Hp. congruence. }
    assert (j <= k) as Hle.
    { destruct (decide (j <= k)) as [|Hgt]; [done|]. exfalso.
      destruct (Hbefore k "" ltac:(lia) Hk) as [? _]. done. }
    exists j, file. split; [done|]. split; [done|]. split; [done|].
    split; [done|]. split; [done|]. split.
    + intros ->. rewrite Hk in Hj. injection Hj as <-.
      unfold Downloader.check_slot in Herr. rewrite bool_decide_eq_true_2 in Herr by done.
      congruence.
    + intros Hlt. destruct (check_slot_Some cfg E _ _ _ _ Herr) as [Hm|[Hne Hcases]];
        [by left|right].
      split; [|done].
      destruct (download_phases_slots cfg E segments fs) as [_ Hslots].
      destruct (Hslots j file Hj) as [Hx | Hx]; subst file; done.
  - intros Hparse. unfold Download. rewrite Hparse.
    rewrite bool_decide_eq_false_2; [by rewrite Hd|].
    destruct (download_phases_slots cfg E segments fs) as [Hlen _].
    apply lookup_lt_Some in Hk. fold st in Hlen. lia.
  - intros Ho1 Ho2.
    destruct (download_phases_files cfg E segments fs Hfair) as [Hframe _].
    by apply Hframe.
Qed.

(** C6.  After the download phases a filled slot whose file is empty, or fails
    the validator when validation is on, makes [downloadSegments] return an
    error, which [Download] returns as it returns a download failure, with
    the effects of the download phases and nothing more: no call of
    [downloadFile] follows the successful one of that ordinal.  And when
    [downloadSegments] returns no error every slot passed its checks. *)
Theorem bad_segment_aborts_without_retry segments fs content baseURL :
  fair_completion E -> (0 < Threads cfg)%Z ->
  let st := download_phases cfg E segments fs in
  (forall k file,
     segmentFiles st !! k = Some file -> file <> "" ->
     files st !! file = Some [] \/
     (ValidateFiles cfg = true /\
      Validator.ValidateTS (validate E k) file (files st) <> None) ->
     exists err,
       downloadSegments cfg E segments fs = Some ([], Some err, st) /\
       (Parser.ParseSegments content baseURL = (segments, None) ->
        Download cfg E content baseURL fs =
          Some (Some (ErrWrap "error downloading segments" err),
                files st, trace st)) /\
       (forall tr1 r tr2, trace st = tr1 ++ Fetch r k None :: tr2 ->
          Forall (fun ev => ~ fetches k ev) tr2)) /\
  (forall files' st',
     downloadSegments cfg E segments fs = Some (files', None, st') ->
     forall k file, files' !! k = Some file ->
       slot_passes cfg E (files st) k file).
Proof.
  intros Hfair Ht st. split.
  - intros k file Hk Hne Hbad.
    assert (verify_loop cfg E (files st) 0 (segmentFiles st) <> None) as Hv.
    { intros Hv.
      pose proof (proj1 (verify_loop_None cfg E _ _ _) Hv _ _ Hk)
        as (_ & c & Hc & _ & Hnil & Hval).
      destruct Hbad as [Hempty|[Hon Hfail]]; [congruence|]. by apply Hfail, Hval. }
    destruct (verify_loop cfg E (files st) 0 (segmentFiles st)) as [err|] eqn:Hverify;
      [clear Hv|done].
    assert (downloadSegments cfg E segments fs = Some ([], Some err, st)) as Hd.
    { rewrite downloadSegments_unfold by done. cbn zeta. fold st. by rewrite Hverify. }
    exists err. split; [done|]. split.
    + intros Hparse. unfold Download. rewrite Hparse.
      rewrite bool_decide_eq_false_2; [by rewrite Hd|].
      destruct (download_phases_slots cfg E segments fs) as [Hlen _].
      apply lookup_lt_Some in Hk. fold st in Hlen. lia.
    + intros tr1 r tr2 Heq.
      destruct (download_phases_run_inv cfg E segments fs Hfair)
        as (_ & _ & Hlast & _).
      by destruct (Hlast _ _ _ _ Heq).
  - intros files' st' Hd k file Hk.
    apply downloadSegments_Some in Hd as (-> & Hv & ->). symmetry in Hv.
    by apply (proj1 (verify_loop_None cfg E _ _ _) Hv k file).
Qed.

End pipeline_claims.



(** ** Sample runs *)

Section sample_runs.
Import Downloader.

Lemma reversed_fair answers :
  fair_completion (Inputs.env answers Inputs.reversed).
Proof. intros r tasks. apply reverse_Permutation. Qed.

Lemma sample_removals_work upto :
  removals_work (Inputs.env (Inputs.second_refused upto) Inputs.reversed).
Proof.
  split; [|done]. intros r i. unfold Inputs.env, Inputs.second_refused. simpl.
  by destruct (_ && _).
Qed.

(** C2 as stated fails: with the first segment downloaded as an empty file and
    the second one missing, the error names segment 1 as empty, not the
    missing segment 2. *)
Lemma empty_file_reported_before_missing_segment :
  (fun r => (r.1, segmentFiles r.2)) <$>
    downloadSegments (Inputs.cfg 1 false)
      (Inputs.env Inputs.first_empty Inputs.reversed) Inputs.segments ∅ =
  Some ([], Some (ErrEmpty 1), ["downloads/segment_00000.ts"; ""]).
Proof. vm_compute. reflexivity. Qed.



Lemma sample_merge_clean answers :
  merge_runs_clean (Inputs.env answers Inputs.reversed).
Proof. repeat split. Qed.

Lemma sample_separate_paths maxRetry validate :
  separate_paths (Inputs.cfg maxRetry validate) 2.
Proof. unfold separate_paths. apply (bool_decide_unpack _). vm_compute. exact I. Qed.

Lemma merge_output_is_ordered_concatenation_witness :
  exists fs',
    mergeSegments (Inputs.cfg 1 false)
      (Inputs.env (Inputs.second_refused 0) Inputs.reversed)
      ["downloads/segment_00000.ts"; "downloads/segment_00001.ts"]
      {[ "downloads/segment_00000.ts" := Inputs.packet;
         "downloads/segment_00001.ts" := Inputs.packet ]} = (None, fs').
Proof.
  apply (merge_output_is_ordered_concatenation (Inputs.cfg 1 false)
           (Inputs.env (Inputs.second_refused 0) Inputs.reversed) _ _ [] ∅).
  - apply sample_merge_clean.
  - repeat constructor; by eexists.
Defined.

Lemma retry_phase_follows_the_rounds_witness :
  let cfg := Inputs.cfg 2 false in
  let E := Inputs.env (Inputs.second_refused 1) Inputs.reversed in
  exists tr,
    trace (retry_loop cfg E Inputs.segments 1 (first_pass cfg E Inputs.segments ∅))
    = trace (first_pass cfg E Inputs.segments ∅) ++ tr /\
    sleeps tr = [1%Z].
Proof.
  intros cfg E.
  destruct (retry_phase_follows_the_rounds cfg E Inputs.segments ∅
              (reversed_fair _)) as (tr & Htr & _ & _ & _).
  exists tr. split; [done|].
  vm_compute in Htr. injection Htr as <-. reflexivity.
Defined.

Lemma missing_segment_aborts_the_run_witness :
  let cfg := Inputs.cfg 1 false in
  let E := Inputs.env (Inputs.second_refused 100) Inputs.reversed in
  downloadSegments cfg E Inputs.segments ∅ =
    Some ([], Some (ErrMissing 2), download_phases cfg E Inputs.segments ∅).
Proof.
  intros cfg E.
  destruct (missing_segment_aborts_the_run cfg E Inputs.segments ∅
              Inputs.playlist Inputs.base 1 (reversed_fair _))
    as (err & Hd & Hfirst & _).
  - reflexivity.
  - vm_compute. reflexivity.
  - rewrite Hd. rewrite Hfirst; [done|].
    intros [|k'] file Hlt Hk; [|lia].
    vm_compute in Hk. injection Hk as <-.
    split; [done|]. exists Inputs.packet. repeat split; try done.
Defined.

Lemma bad_segment_aborts_without_retry_witness :
  let cfg := Inputs.cfg 1 false in
  let E := Inputs.env Inputs.first_empty Inputs.reversed in
  exists err,
    downloadSegments cfg E Inputs.segments ∅ =
      Some ([], Some err, download_phases cfg E Inputs.segments ∅).
Proof.
  intros cfg E.
  destruct (proj1 (bad_segment_aborts_without_retry cfg E Inputs.segments ∅
              Inputs.playlist Inputs.base (reversed_fair _) eq_refl)
              0 "downloads/segment_00000.ts")
    as (err & Hd & _).
  - vm_compute. reflexivity.
  - done.
  - left. vm_compute. reflexivity.
  - by exists err.
Defined.

End sample_runs.

(** * Further properties of the code *)

(** ** The worker pool *)
Section pool_extras.
Import Pool.

Lemma start_inv Threads p0 :
  start Threads = Some p0 -> pool_inv p0 /\ capacity p0 = Z.to_nat Threads.
Proof.
  unfold start. case_decide; [done|]. intros [= <-]. split; [|done].
  split; simpl; [done|lia].
Qed.

Lemma holder_exists p :
  0 < holders p -> exists w c, workers p !! w = Some c /\ holds_slot c.
Proof.
  unfold holders. intros Hpos.
  destruct (filter holds_slot (workers p)) as [|c l] eqn:Hf; [simpl in Hpos; lia|].
  assert (c ∈ filter holds_slot (workers p)) as Hin by (rewrite Hf; left).
  apply list_elem_of_filter in Hin as [Hc Hin].
  apply list_elem_of_lookup in Hin as [w Hw]. eauto.
Qed.

Lemma holder_steps p w c :
  workers p !! w = Some c -> holds_slot c -> is_Some (step_worker p w).
Proof.
  intros Hw [-> | ->]; unfold step_worker; rewrite Hw; [destruct (ctx_done p)|]; eauto.
Qed.

(** X1.  The pool cannot get stuck while work is left: from any state that
    launches, cancellations and worker moves lead to from the start with a
    capacity above zero, if some worker has not finished then some worker
    can move. *)
Theorem pool_never_deadlocks Threads acts p0 p w c :
  start Threads = Some p0 -> (0 < Threads)%Z -> run p0 acts = Some p ->
  workers p !! w = Some c -> c <> Finished ->
  exists w', is_Some (step_worker p w').
Proof.
  intros Hstart Hpos Hrun Hw Hc.
  destruct (start_inv _ _ Hstart) as [Hinv0 Hcap0].
  destruct (pool_run_inv acts _ _ Hinv0 Hrun) as [[Ht Hle] Hcap].
  destruct (decide (0 < holders p)) as [Hh|Hh].
  - destruct (holder_exists p Hh) as (w' & c' & Hw' & Hc').
    exists w'. by eapply holder_steps.
  - destruct c; [| | |done].
    + exists w. unfold step_worker. rewrite Hw. rewrite decide_True; [eauto|]. lia.
    + exists w. eapply holder_steps; [done|by left].
    + exists w. eapply holder_steps; [done|by right].
Qed.

Lemma exec_blocked p a p' :
  capacity p = 0 -> tokens p = 0 -> Forall (eq Queued) (workers p) ->
  exec p a = Some p' ->
  capacity p' = 0 /\ tokens p' = 0 /\ Forall (eq Queued) (workers p').
Proof.
  intros Hc Ht Hq. destruct a as [| |w]; simpl.
  - intros [= <-]. simpl. split; [done|]. split; [done|].
    apply Forall_app. split; [done|]. by repeat constructor.
  - by intros [= <-].
  - unfold step_worker. destruct (workers p !! w) as [c|] eqn:Hw; [|done].
    eapply Forall_lookup_1 in Hq; [|done]. subst c.
    case_decide; [lia|done].
Qed.

Lemma run_blocked acts : forall p p',
  capacity p = 0 -> tokens p = 0 -> Forall (eq Queued) (workers p) ->
  run p acts = Some p' ->
  capacity p' = 0 /\ tokens p' = 0 /\ Forall (eq Queued) (workers p').
Proof.
  induction acts as [|a acts IH]; intros p p' Hc Ht Hq; simpl.
  - by intros [= <-].
  - destruct (exec p a) as [q|] eqn:Hexec; [|done].
    destruct (exec_blocked _ _ _ Hc Ht Hq Hexec) as (? & ? & ?). by apply IH.
Qed.

(** X2.  With [Threads] at zero the semaphore has no slot: whatever is
    launched or cancelled, every worker stays queued, none is in flight and
    none can ever move, so [wg.Wait()] does not return. *)
Theorem zero_threads_blocks_every_worker acts p0 p :
  start 0 = Some p0 -> run p0 acts = Some p ->
  Forall (eq Queued) (workers p) /\ in_flight p = 0 /\
  forall w, step_worker p w = None.
Proof.
  intros Hstart Hrun. injection Hstart as <-.
  destruct (run_blocked acts
              {| capacity := Z.to_nat 0; tokens := 0; ctx_done := false;
                 workers := [] |} p eq_refl eq_refl (Forall_nil_2 _) Hrun)
    as (Hc & Ht & Hq).
  split; [done|]. split.
  - unfold in_flight, count_at.
    induction Hq as [|c l <- _ IH]; [done|]. by rewrite filter_cons, decide_False.
  - intros w. unfold step_worker. destruct (workers p !! w) as [c|] eqn:Hw; [|done].
    eapply Forall_lookup_1 in Hq; [|done]. subst c. rewrite decide_False; [done|lia].
Qed.

(** X3.  Every slot is given back: when all the workers that were launched
    have finished, the semaphore is empty. *)
Theorem finished_pool_holds_no_token Threads acts p0 p :
  start Threads = Some p0 -> run p0 acts = Some p ->
  Forall (eq Finished) (workers p) -> tokens p = 0.
Proof.
  intros Hstart Hrun Hfin.
  destruct (start_inv _ _ Hstart) as [Hinv0 _].
  destruct (pool_run_inv acts _ _ Hinv0 Hrun) as [[Ht _] _].
  rewrite Ht. unfold holders.
  induction Hfin as [|c l <- _ IH]; [done|].
  rewrite filter_cons, decide_False; [done|]. intros [?|?]; discriminate.
Qed.

End pool_extras.

Section progress_facts.
Import Pool Progress.

Lemma work_left_insert l : forall w c c',
  l !! w = Some c ->
  foldr (fun c n => moves_left c + n) 0 (<[w := c']> l) + moves_left c =
  foldr (fun c n => moves_left c + n) 0 l + moves_left c'.
Proof.
  induction l as [|x l IH]; intros w c c' Hw; [done|].
  destruct w as [|w]; simpl in *.
  - injection Hw as ->. lia.
  - specialize (IH w c c' Hw). lia.
Qed.

Lemma step_worker_work p w p' :
  step_worker p w = Some p' ->
  work_left p' < work_left p /\ length (workers p') = length (workers p).
Proof.
  unfold step_worker, work_left.
  destruct (workers p !! w) as [c|] eqn:Hw; [|done].
  destruct c; [case_decide; [|done]|destruct (ctx_done p)| |done];
    intros [= <-]; simpl; rewrite length_insert;
    (split; [|done]);
    match goal with |- context [<[w := ?c']> _] =>
      pose proof (work_left_insert (workers p) w _ c' Hw) as Hm end;
    simpl in Hm; lia.
Qed.

Lemma work_left_launch l :
  foldr (fun c n => moves_left c + n) 0 (l ++ [Queued]) =
  foldr (fun c n => moves_left c + n) 0 l + 3.
Proof. induction l as [|x l IH]; simpl; [done|]. rewrite IH. lia. Qed.

Lemma run_work acts : forall p p',
  run p acts = Some p' ->
  moves acts + work_left p' <= work_left p + 3 * launches acts /\
  length (workers p') = length (workers p) + launches acts.
Proof.
  induction acts as [|a acts IH]; intros p p'; simpl.
  - intros [= <-]. lia.
  - destruct (exec p a) as [q|] eqn:He; [|done]. intros Hr.
    destruct (IH _ _ Hr) as [H3 H4]. destruct a as [| |w]; simpl in He.
    + injection He as <-. unfold work_left in *. simpl in *.
      rewrite work_left_launch in H3. rewrite length_app in H4. simpl in H4. lia.
    + injection He as <-. unfold work_left in *. simpl in *. lia.
    + destruct (step_worker_work _ _ _ He) as [Hlt Hlen]. lia.
Qed.

(** X19.  No worker makes more than three moves (acquire, fetch or skip,
    release): after any launches, cancellations and worker moves from the
    start, the moves made and the moves still open add up to at most three
    per launched worker, and once three moves per worker are made every
    worker has finished.  With X1 this is the termination of the pool. *)
Theorem pool_moves_are_bounded Threads acts p0 p :
  start Threads = Some p0 -> run p0 acts = Some p ->
  moves acts + work_left p <= 3 * length (workers p) /\
  (moves acts = 3 * length (workers p) -> Forall (eq Finished) (workers p)).
Proof.
  intros Hstart Hrun.
  assert (work_left p0 = 0 /\ workers p0 = []) as [Hw0 Hl0].
  { unfold start in Hstart. case_decide; [done|]. by injection Hstart as <-. }
  destruct (run_work acts _ _ Hrun) as [Hle Hlen].
  rewrite Hw0 in Hle. rewrite Hl0 in Hlen. simpl in Hlen.
  split; [lia|]. intros Hall.
  assert (work_left p = 0) as Hz by lia.
  unfold work_left in Hz. clear -Hz.
  induction (workers p) as [|c l IH]; [done|]. simpl in Hz.
  constructor; [destruct c; simpl in Hz; done || lia|]. apply IH. lia.
Qed.

End progress_facts.

(** ** The merger *)

Section merger_extras.
Import Downloader Outcome.
Context `{GoLib}.
Variable cfg : Config.
Variable E : Env.

Lemma merge_loop_clean inputs : forall i fs,
  copies_clean E ->
  Forall (fun file => is_Some (fs !! file)) inputs ->
  (merge_loop cfg E i inputs fs).1 = None.
Proof.
  induction inputs as [|file rest IH]; intros i fs Hclean Hall; [done|].
  inversion Hall as [|? ? [content Hfile] Hrest]; subst. simpl.
  unfold OS.NotExist. rewrite bool_decide_eq_false_2 by congruence.
  destruct (Hclean i) as (-> & Hr & Hw & Hf). rewrite Hfile.
  pose proof (copy_chunks_spec cfg E file i 0 content fs) as Hcopy.
  cbn zeta in Hcopy. destruct Hcopy as (Hother & Hsome & _ & Htot).
  specialize (Htot Hr Hw).
  destruct (copy_chunks cfg E file i 0 content fs) as [err fs1].
  cbn [fst snd] in *. subst err. rewrite Hf. apply IH; [done|].
  eapply Forall_impl; [exact Hrest|]. intros f Hex. simpl in Hex.
  destruct (decide (f = tempOutputFile cfg)) as [->|Hne];
    [by apply Hsome|by rewrite Hother].
Qed.

Lemma merge_loop_missing pre : forall i fs file post,
  copies_clean E ->
  Forall (fun f => is_Some (fs !! f)) pre ->
  fs !! file = None -> file <> tempOutputFile cfg ->
  (merge_loop cfg E i (pre ++ file :: post) fs).1 =
    Some (ErrSegmentFileMissing file).
Proof.
  induction pre as [|f pre IH]; intros i fs file post Hclean Hall Hfile Hne.
  - simpl. unfold OS.NotExist. by rewrite bool_decide_eq_true_2.
  - inversion Hall as [|? ? [content Hf] Hrest]; subst. simpl.
    unfold OS.NotExist. rewrite bool_decide_eq_false_2 by congruence.
    destruct (Hclean i) as (-> & Hr & Hw & Hfl). rewrite Hf.
    pose proof (copy_chunks_spec cfg E f i 0 content fs) as Hcopy.
    cbn zeta in Hcopy. destruct Hcopy as (Hother & Hsome & _ & Htot).
    specialize (Htot Hr Hw).
    destruct (copy_chunks cfg E f i 0 content fs) as [err fs1].
    cbn [fst snd] in *. subst err. rewrite Hfl. apply IH; [done| | |done].
    + eapply Forall_impl; [exact Hrest|]. intros g Hex. simpl in Hex.
      destruct (decide (g = tempOutputFile cfg)) as [->|Hg];
        [by apply Hsome|by rewrite Hother].
    + by rewrite Hother.
Qed.

(** X4.  An input of the merge that is not on disk makes [mergeSegments]
    fail and leaves every path but its temporary output as it was, the
    output path included; when the inputs before it are there and the
    operating system raises no fault while they are copied, the error names
    that input and the temporary output is removed. *)
Theorem merge_stops_at_missing_input inputs fs file :
  file ∈ inputs -> fs !! file = None -> tempOutputFile cfg ∉ inputs ->
  let r := mergeSegments cfg E inputs fs in
  r.1 <> None /\
  (forall p, p <> tempOutputFile cfg -> r.2 !! p = fs !! p) /\
  (forall pre post,
     inputs = pre ++ file :: post ->
     Forall (fun f => is_Some (fs !! f)) pre ->
     m_create_err (merge E) = false -> copies_clean E ->
     r.1 = Some (ErrSegmentFileMissing file) /\
     (m_remove_temp_err (merge E) = false -> r.2 !! tempOutputFile cfg = None)).
Proof.
  intros Hin Hfile Hnin r.
  assert (file <> tempOutputFile cfg) as Hne by (intros ->; done).
  pose proof (tempOutputFile_ne cfg) as Hto.
  subst r. unfold mergeSegments.
  destruct (m_create_err (merge E)) eqn:Hcreate.
  { cbn [fst snd]. split; [done|]. split; [done|]. intros; congruence. }
  pose proof (merge_loop_spec cfg E inputs 0 (OS.Create (tempOutputFile cfg) fs))
    as Hloop. cbn zeta in Hloop.
  destruct (merge_loop cfg E 0 inputs (OS.Create (tempOutputFile cfg) fs))
    as [[err|] fs1] eqn:Hl; cbn [fst snd] in Hloop;
    destruct Hloop as (Hother & Hok & Herr & _ & _).
  - cbn [fst snd]. split; [done|]. split.
    + intros p Hp. by rewrite Hother, Create_lookup_ne.
    + intros pre post -> Hpre _ Hclean.
      pose proof (merge_loop_missing pre 0 (OS.Create (tempOutputFile cfg) fs)
                    file post Hclean) as Hm.
      rewrite Hl in Hm. cbn [fst] in Hm. split.
      * apply Hm; [|by rewrite Create_lookup_ne|done].
        eapply Forall_impl; [exact Hpre|]. intros g Hex. simpl in Hex.
        destruct (decide (g = tempOutputFile cfg)) as [->|Hg];
          [by rewrite Create_lookup_eq|by rewrite Create_lookup_ne].
      * intros Hrm. by apply Herr.
  - exfalso.
    destruct (Hok eq_refl Hnin [] (Create_lookup_eq _ _)) as (contents & Hall & _).
    apply list_elem_of_lookup in Hin as [j Hj].
    destruct (Forall2_lookup_l _ _ _ _ _ Hall Hj) as (c & _ & Hc).
    rewrite Create_lookup_ne in Hc by done. congruence.
Qed.

(** Up to the final removal and rename the merge works. *)
Lemma merge_reaches_the_final_step inputs fs :
  m_create_err (merge E) = false -> copies_clean E ->
  m_final_flush_err (merge E) = false ->
  Forall (fun f => is_Some (fs !! f)) inputs ->
  exists fs1 merged,
    merge_loop cfg E 0 inputs (OS.Create (tempOutputFile cfg) fs) = (None, fs1) /\
    fs1 !! tempOutputFile cfg = Some merged /\
    (forall p, p <> tempOutputFile cfg -> fs1 !! p = fs !! p).
Proof.
  intros Hcreate Hclean Hff Hall.
  assert (Forall (fun f => is_Some (OS.Create (tempOutputFile cfg) fs !! f)) inputs)
    as Hall'.
  { eapply Forall_impl; [exact Hall|]. intros g Hex. simpl in Hex.
    destruct (decide (g = tempOutputFile cfg)) as [->|Hg];
      [by rewrite Create_lookup_eq|by rewrite Create_lookup_ne]. }
  pose proof (merge_loop_spec cfg E inputs 0 (OS.Create (tempOutputFile cfg) fs))
    as Hloop. cbn zeta in Hloop.
  pose proof (merge_loop_clean inputs 0 _ Hclean Hall') as Hnone.
  destruct (merge_loop cfg E 0 inputs (OS.Create (tempOutputFile cfg) fs))
    as [err fs1]. cbn [fst snd] in *. subst err.
  destruct Hloop as (Hother & _ & _ & _ & Hsome).
  destruct (Hsome eq_refl) as [merged Hm]; [by rewrite Create_lookup_eq|].
  exists fs1, merged. split; [done|]. split; [done|].
  intros p Hp. by rewrite Hother, Create_lookup_ne.
Qed.

(** X5.  When the output of an earlier run cannot be removed,
    [mergeSegments] reports it, the old output stays as it was and the
    merged data is dropped with the temporary output. *)
Theorem old_output_survives_failed_removal inputs fs old :
  m_create_err (merge E) = false -> copies_clean E ->
  m_final_flush_err (merge E) = false ->
  Forall (fun f => is_Some (fs !! f)) inputs ->
  fs !! Output cfg = Some old ->
  m_stat_output_err (merge E) = false ->
  m_remove_output_err (merge E) = true ->
  let r := mergeSegments cfg E inputs fs in
  r.1 = Some (ErrRemoveExisting (ErrSys "remove" (Output cfg))) /\
  r.2 !! Output cfg = Some old /\
  (forall p, p <> tempOutputFile cfg -> r.2 !! p = fs !! p) /\
  (m_remove_temp_err (merge E) = false -> r.2 !! tempOutputFile cfg = None).
Proof.
  intros Hcreate Hclean Hff Hall Hold Hstat Hrm r.
  pose proof (tempOutputFile_ne cfg) as Hto.
  destruct (merge_reaches_the_final_step inputs fs Hcreate Hclean Hff Hall)
    as (fs1 & merged & Hloop & Hmerged & Hother).
  subst r. unfold mergeSegments. rewrite Hcreate, Hloop, Hff.
  unfold OS.Stat. rewrite Hother, Hold, Hstat, Hrm by done.
  rewrite Remove_fault. cbv beta iota. cbn [fst snd].
  split; [done|]. split; [by rewrite Remove_lookup_ne, Hother|].
  split; [intros p Hp; by rewrite Remove_lookup_ne, Hother|].
  intros ->. apply Remove_lookup_eq.
Qed.

(** X6.  When the final rename fails, the output of an earlier run is
    already gone: [mergeSegments] removes it before the rename, so the run
    ends with an error and with no file at the output path. *)
Theorem failed_rename_loses_old_output inputs fs :
  m_create_err (merge E) = false -> copies_clean E ->
  m_final_flush_err (merge E) = false ->
  Forall (fun f => is_Some (fs !! f)) inputs ->
  m_stat_output_err (merge E) = false ->
  m_remove_output_err (merge E) = false ->
  m_rename_err (merge E) = true ->
  let r := mergeSegments cfg E inputs fs in
  r.1 = Some (ErrRenameTemp (ErrSys "rename" (tempOutputFile cfg))) /\
  r.2 !! Output cfg = None /\
  (forall p, p <> tempOutputFile cfg -> p <> Output cfg -> r.2 !! p = fs !! p) /\
  (m_remove_temp_err (merge E) = false -> r.2 !! tempOutputFile cfg = None).
Proof.
  intros Hcreate Hclean Hff Hall Hstat Hrm Hren r.
  pose proof (tempOutputFile_ne cfg) as Hto.
  assert (Output cfg <> tempOutputFile cfg) as Hto' by (intros Heq; by apply Hto).
  destruct (merge_reaches_the_final_step inputs fs Hcreate Hclean Hff Hall)
    as (fs1 & merged & Hloop & Hmerged & Hother).
  subst r. unfold mergeSegments. rewrite Hcreate, Hloop, Hff.
  unfold OS.Stat. rewrite Hstat, Hrm.
  destruct (fs1 !! Output cfg) as [old|] eqn:Hold.
  - rewrite (Remove_present _ _ _ Hold). cbv beta iota.
    unfold OS.Rename. rewrite Hren. cbn [fst snd].
    split; [done|]. split; [rewrite Remove_lookup_ne by done; apply lookup_delete_eq|].
    split.
    + intros p H1 H2. by rewrite Remove_lookup_ne, lookup_delete_ne, Hother.
    + intros ->. apply Remove_lookup_eq.
  - unfold OS.Rename. rewrite Hren. cbn [fst snd].
    split; [done|]. split; [by rewrite Remove_lookup_ne|].
    split.
    + intros p H1 H2. by rewrite Remove_lookup_ne, Hother.
    + intros ->. apply Remove_lookup_eq.
Qed.

End merger_extras.

(** ** The validator *)

Section validator_extras.
Import Validator.

Lemma read_header_take content :
  read_header content = read_header (take header_size content).
Proof.
  unfold read_header. rewrite length_take.
  rewrite Nat.min_assoc, Nat.min_id. f_equal. f_equal.
  rewrite take_take. f_equal. lia.
Qed.

(** X7.  [ValidateTS] looks at the first 564 bytes only: two files that
    agree on them get the same answer. *)
Theorem ValidateTS_reads_only_the_header e fileName fs1 fs2 content1 content2 :
  fs1 !! fileName = Some content1 -> fs2 !! fileName = Some content2 ->
  take (3 * 188) content1 = take (3 * 188) content2 ->
  ValidateTS e fileName fs1 = ValidateTS e fileName fs2.
Proof.
  intros H1 H2 Htake. unfold ValidateTS. rewrite H1, H2.
  rewrite (read_header_take content1), (read_header_take content2).
  unfold header_size. replace (188 * 3) with (3 * 188) by lia. by rewrite Htake.
Qed.
End validator_extras.


(** ** The scheduler in closed form *)

Section outcome_facts.
Import Downloader Outcome.
Context `{GoLib}.
Variable cfg : Config.
Variable E : Env.

Abbreviation succeeds_by := (Outcome.succeeds_by E).
Abbreviation attempts_allowed := (Outcome.attempts_allowed cfg).
Abbreviation rounds_needed := (Outcome.rounds_needed E).
Abbreviation closed_form := (Outcome.closed_form cfg E).
Abbreviation delivered := (Outcome.delivered cfg E).
Abbreviation distinct_paths := (Outcome.distinct_paths cfg).
Abbreviation content_inv := (Outcome.content_inv cfg E).

Lemma succeeds_by_S i k :
  succeeds_by i (S k) = succeeds_by i k || fetch_ok (fetch E (Z.of_nat k) i).
Proof.
  unfold Outcome.succeeds_by. rewrite seq_S, existsb_app. simpl. by rewrite orb_false_r.
Qed.

Lemma succeeds_by_mono i k k' :
  k <= k' -> succeeds_by i k = true -> succeeds_by i k' = true.
Proof.
  induction 1 as [|k' _ IH]; [done|]. intros Hk. rewrite succeeds_by_S, IH; done.
Qed.

Lemma rounds_needed_S i k :
  rounds_needed i (S k) =
    rounds_needed i k + (if succeeds_by i k then 0 else 1).
Proof.
  unfold Outcome.rounds_needed. rewrite seq_S, filter_app, length_app. simpl.
  rewrite filter_cons, filter_nil. destruct (succeeds_by i k); by case_decide.
Qed.

Lemma rounds_needed_done i k k' :
  k <= k' -> succeeds_by i k = true -> rounds_needed i k' = rounds_needed i k.
Proof.
  induction 1 as [|k' Hle IH]; [done|]. intros Hk.
  rewrite rounds_needed_S, IH by done. rewrite (succeeds_by_mono i k k') by done. lia.
Qed.

Lemma calls_for_app i tr1 tr2 :
  calls_for i (tr1 ++ tr2) = calls_for i tr1 + calls_for i tr2.
Proof. unfold calls_for. by rewrite filter_app, length_app. Qed.

Lemma calls_for_round segments r i (order : list nat) :
  NoDup order ->
  calls_for i ((fun j => Fetch r j (attempt_error cfg E segments r j)) <$> order)
  = if decide (i ∈ order) then 1 else 0.
Proof.
  unfold calls_for. induction 1 as [|j order Hj Hnd IH]; [done|].
  rewrite fmap_cons, filter_cons. simpl. destruct (decide (j = i)) as [->|Hne].
  - rewrite decide_True by left. simpl. rewrite IH. by rewrite decide_False.
  - rewrite IH. apply decide_ext. rewrite elem_of_cons. intuition congruence.
Qed.

Lemma closed_form_round n segments r st tasks tr0 slots0 :
  fair_completion E ->
  (0 <= r)%Z -> NoDup tasks -> (forall i, i ∈ tasks -> i < n) ->
  length slots0 = n ->
  (forall i, i < n ->
     (i ∈ tasks <-> succeeds_by i (Z.to_nat r) = false) /\
     slots0 !! i =
       Some (if succeeds_by i (Z.to_nat r) then segment_path cfg i else "") /\
     calls_for i tr0 = rounds_needed i (Z.to_nat r)) ->
  segmentFiles st = slots0 -> trace st = tr0 -> 
  let st' := run_round cfg E segments r tasks st in
  NoDup (failedSegments st') /\
  (forall i, i ∈ failedSegments st' -> i < n) /\
  length (segmentFiles st') = n /\
  forall i, i < n ->
    (i ∈ failedSegments st' <-> succeeds_by i (Z.to_nat (r + 1)) = false) /\
    segmentFiles st' !! i =
      Some (if succeeds_by i (Z.to_nat (r + 1)) then segment_path cfg i else "") /\
    calls_for i (trace st') = rounds_needed i (Z.to_nat (r + 1)).
Proof.
  intros Hfair Hr Hnd Hlt Hlen Hall Hs Htr st'.
  destruct (run_round_spec cfg E segments r tasks st) as (Ht' & Hs' & Hf').
  cbn zeta in Ht', Hs', Hf'. subst st'. rewrite Ht', Hs', Hf', Hs, Htr.
  pose proof (Hfair r tasks) as Hperm.
  assert (NoDup (completion E r tasks)) as Hnd' by (by rewrite Hperm).
  replace (Z.to_nat (r + 1)) with (S (Z.to_nat r)) by lia.
  split; [by apply NoDup_filter|]. split.
  { intros i Hi. apply list_elem_of_filter in Hi as [_ Hi]. apply Hlt.
    by rewrite <- Hperm. }
  split; [by rewrite fill_length|].
  intros i Hi. destruct (Hall i Hi) as (Hin & Hslot & Hcalls).
  assert (i ∈ completion E r tasks <-> i ∈ tasks) as Hmem by (by rewrite Hperm).
  rewrite succeeds_by_S, rounds_needed_S, Z2Nat.id by done.
  rewrite list_elem_of_filter, fill_lookup, Hlen, Hslot.
  rewrite calls_for_app, calls_for_round, Hcalls by done.
  destruct (succeeds_by i (Z.to_nat r)) eqn:Hsb; simpl.
  - assert (i ∉ completion E r tasks) as Hni.
    { intros Hd. apply Hmem, Hin in Hd. done. }
    split; [split; [intros [_ ?]; done|done]|].
    split; [rewrite decide_False; [done|]; intros (? & _); done|].
    by rewrite decide_False.
  - assert (i ∈ completion E r tasks) as Hit by (by apply Hmem, Hin).
    split; [split; [by intros [? _]|done]|]. split.
    + destruct (fetch_ok (fetch E r i)).
      * by rewrite decide_True.
      * rewrite decide_False; [done|]. intros (_ & ? & _). done.
    + by rewrite decide_True.
Qed.

Lemma calls_for_sleep i tr d : calls_for i (tr ++ [Sleep d]) = calls_for i tr.
Proof.
  rewrite calls_for_app. unfold calls_for at 2.
  rewrite filter_cons, filter_nil, decide_False by (simpl; tauto). simpl. lia.
Qed.

Lemma succeeds_by_0 i : succeeds_by i 0 = false.
Proof. done. Qed.

Lemma closed_form_first segments fs :
  fair_completion E ->
  closed_form (length segments) 1 (first_pass cfg E segments fs).
Proof.
  intros Hfair. unfold first_pass. split; [lia|]. split; [lia|].
  apply (closed_form_round (length segments) segments 0 _ (seq 0 (length segments))
           [] (replicate (length segments) "")); try done.
  - apply NoDup_seq.
  - intros i Hi. apply elem_of_seq in Hi. lia.
  - apply length_replicate.
  - intros i Hi. simpl. split; [|split; [|done]].
    + split; [done|]. intros _. apply elem_of_seq. lia.
    + by apply lookup_replicate_2.
Qed.

Lemma closed_form_step n segments r st :
  fair_completion E ->
  closed_form n r st -> (r <= MaxRetry cfg)%Z ->
  closed_form n (r + 1)
    (run_round cfg E segments r (failedSegments st) (sleep r st)).
Proof.
  intros Hfair (Hr1 & Hr2 & Hnd & Hlt & Hlen & Hall) Hle.
  split; [lia|]. split; [lia|].
  apply (closed_form_round n segments r (sleep r st)
           (failedSegments st) (trace st ++ [Sleep r]) (segmentFiles st));
    try done; [lia|].
  intros i Hi. destruct (Hall i Hi) as (? & ? & ?).
  split; [done|]. split; [done|]. by rewrite calls_for_sleep.
Qed.

Lemma download_phases_closed_form segments fs :
  fair_completion E ->
  exists r, closed_form (length segments) r (download_phases cfg E segments fs) /\
            (failedSegments (download_phases cfg E segments fs) = [] \/
             (MaxRetry cfg < r)%Z).
Proof.
  intros Hfair. unfold download_phases.
  destruct (retry_loop_ind cfg E segments (closed_form (length segments)))
    with (r := 1%Z) (st := first_pass cfg E segments fs) as (r & Hr & _ & Hend);
    [|by apply closed_form_first|by exists r].
  intros r st Hcf Hle _. by apply closed_form_step.
Qed.

Lemma closed_form_final n r st :
  closed_form n r st -> failedSegments st = [] \/ (MaxRetry cfg < r)%Z ->
  forall i, i < n ->
    succeeds_by i (Z.to_nat r) = succeeds_by i attempts_allowed /\
    rounds_needed i (Z.to_nat r) = rounds_needed i attempts_allowed.
Proof.
  intros (Hr1 & Hr2 & _ & _ & _ & Hall) Hend i Hi. unfold Outcome.attempts_allowed.
  destruct Hend as [Hnil|Hlt].
  - destruct (Hall i Hi) as (Hin & _). rewrite Hnil in Hin.
    destruct (succeeds_by i (Z.to_nat r)) eqn:Hsb.
    + assert (Z.to_nat r <= S (Z.to_nat (MaxRetry cfg))) as Hle by lia.
      split; [symmetry; by eapply succeeds_by_mono|].
      symmetry. by apply rounds_needed_done.
    + exfalso. destruct Hin as [_ Hin]. specialize (Hin eq_refl).
      by apply not_elem_of_nil in Hin.
  - by replace (Z.to_nat r) with (S (Z.to_nat (MaxRetry cfg))) by lia.
Qed.

Lemma download_phases_slot segments fs i :
  fair_completion E -> i < length segments ->
  segmentFiles (download_phases cfg E segments fs) !! i =
    Some (if succeeds_by i attempts_allowed then segment_path cfg i else "").
Proof.
  intros Hfair Hi.
  destruct (download_phases_closed_form segments fs Hfair) as (r & Hcf & Hend).
  destruct (closed_form_final _ _ _ Hcf Hend i Hi) as [<- _].
  destruct Hcf as (_ & _ & _ & _ & _ & Hall). by destruct (Hall i Hi) as (_ & ? & _).
Qed.

(** X8.  The scheduler after the two download phases, in closed form: the
    slot of a segment holds the path of its file exactly when one of the
    calls the scheduler may make for it, the first attempt and [MaxRetry]
    retries, works, and is empty otherwise; the failure set holds exactly
    the segments for which none of these calls works.  The order in which
    the workers complete plays no part. *)
Theorem slot_filled_iff_an_attempt_works segments fs i :
  fair_completion E -> i < length segments ->
  let st := download_phases cfg E segments fs in
  segmentFiles st !! i =
    Some (if succeeds_by i attempts_allowed then segment_path cfg i else "") /\
  (i ∈ failedSegments st <-> succeeds_by i attempts_allowed = false).
Proof.
  intros Hfair Hi st. subst st.
  destruct (download_phases_closed_form segments fs Hfair) as (r & Hcf & Hend).
  destruct (closed_form_final _ _ _ Hcf Hend i Hi) as [Hsb _].
  destruct Hcf as (_ & _ & _ & _ & _ & Hall).
  destruct (Hall i Hi) as (Hfailed & Hslot & _).
  rewrite <- Hsb. by split.
Qed.

Lemma download_phases_calls segments fs i :
  fair_completion E -> i < length segments ->
  let n := calls_for i (trace (download_phases cfg E segments fs)) in
  n = rounds_needed i attempts_allowed /\ 1 <= n <= attempts_allowed.
Proof.
  intros Hfair Hi n.
  destruct (download_phases_closed_form segments fs Hfair) as (r & Hcf & Hend).
  destruct (closed_form_final _ _ _ Hcf Hend i Hi) as [_ Hrn].
  destruct Hcf as (_ & _ & _ & _ & _ & Hall). destruct (Hall i Hi) as (_ & _ & Hc).
  subst n. rewrite Hc, Hrn. split; [done|]. unfold Outcome.attempts_allowed. split.
  - rewrite (rounds_needed_S i (Z.to_nat (MaxRetry cfg))).
    induction (Z.to_nat (MaxRetry cfg)) as [|k IH]; [simpl; lia|].
    rewrite rounds_needed_S. lia.
  - unfold Outcome.rounds_needed.
    etransitivity; [apply length_filter|]. by rewrite length_seq.
Qed.

(** X9.  The calls of [downloadFile] for one segment, when [downloadSegments]
    returns (with or without an error): [Threads] is positive, and the calls
    for the segment are one in each round up to the first in which a call
    for it works, so at least one and at most [MaxRetry + 1], and none after
    a call that worked.  (With [Threads] at zero or below
    [downloadSegments] does not return and calls [downloadFile] for
    nothing.) *)
Theorem calls_per_segment segments fs inputs err st i :
  fair_completion E ->
  downloadSegments cfg E segments fs = Some (inputs, err, st) ->
  i < length segments ->
  (0 < Threads cfg)%Z /\
  let n := calls_for i (trace st) in
  n = rounds_needed i attempts_allowed /\ 1 <= n <= attempts_allowed.
Proof.
  intros Hfair Hd Hi. split.
  - unfold downloadSegments in Hd. case_decide as Hneg; [done|].
    case_decide as Hzero; [done|].
    destruct (decide (Threads cfg = 0%Z)) as [Hz|Hz]; [|lia].
    exfalso. apply Hzero. split; [done|]. intros ->. simpl in Hi. lia.
  - apply downloadSegments_Some in Hd as (-> & _ & _).
    by apply download_phases_calls.
Qed.

Lemma sum_sleeps k :
  (2 * foldr Z.add 0 ((fun j => 1 + Z.of_nat j) <$> seq 0 k) =
   Z.of_nat k * (Z.of_nat k + 1))%Z.
Proof.
  induction k as [|k IH]; [done|].
  rewrite seq_S, fmap_app, foldr_app. simpl.
  assert (forall (l : list Z) a,
            foldr Z.add a l = (foldr Z.add 0 l + a)%Z) as Hshift.
  { induction l as [|x l IHl]; intros a; simpl; [lia|]. rewrite IHl. lia. }
  rewrite Hshift. lia.
Qed.

(** X10.  The time slept between the rounds: with [m] the retry budget (zero
    when [MaxRetry] is negative), the seconds slept add up to at most
    [m (m + 1) / 2]. *)
Theorem total_backoff_is_bounded segments fs :
  fair_completion E ->
  let slept := foldr Z.add 0%Z (sleeps (trace (download_phases cfg E segments fs))) in
  let m := Z.max 0 (MaxRetry cfg) in
  (0 <= slept /\ 2 * slept <= m * (m + 1))%Z.
Proof.
  intros Hfair slept m. subst slept. unfold download_phases.
  destruct (retry_loop_rounds cfg E segments Hfair 1 (first_pass cfg E segments fs))
    as (tr & -> & Hrounds).
  destruct (retry_rounds_sleeps cfg E _ _ _ _ _ Hrounds) as (k & Hs & Hk).
  destruct (run_round_spec cfg E segments 0 (seq 0 (length segments))
    {| files := fs; trace := []; segmentFiles := replicate (length segments) "";
       failedSegments := [] |}) as (Ht & _ & _).
  cbn zeta in Ht. unfold first_pass. rewrite Ht. simpl.
  unfold sleeps in *. rewrite omap_app.
  fold (sleeps ((fun i => Fetch 0 i (attempt_error cfg E segments 0 i)) <$>
                  completion E 0 (seq 0 (length segments)))).
  rewrite sleeps_fetches by eauto. simpl. rewrite Hs.
  pose proof (sum_sleeps k). nia.
Qed.

(** X11.  When every first attempt works there is no retry round: the
    scheduler calls [downloadFile] once per segment, never sleeps and ends
    with an empty failure set. *)
Theorem no_retry_when_first_pass_works segments fs :
  fair_completion E ->
  (forall i, i < length segments -> fetch_ok (fetch E 0 i) = true) ->
  trace (download_phases cfg E segments fs) =
    (fun i => Fetch 0 i None) <$> completion E 0 (seq 0 (length segments)) /\
  failedSegments (download_phases cfg E segments fs) = [].
Proof.
  intros Hfair Hok. unfold download_phases.
  destruct (run_round_spec cfg E segments 0 (seq 0 (length segments))
    {| files := fs; trace := []; segmentFiles := replicate (length segments) "";
       failedSegments := [] |}) as (Ht & _ & Hf).
  cbn zeta in Ht, Hf. fold (first_pass cfg E segments fs) in Ht, Hf.
  assert (forall i, i ∈ completion E 0 (seq 0 (length segments)) ->
            fetch_ok (fetch E 0 i) = true) as Hok'.
  { intros i Hi. apply Hok. rewrite (Hfair 0%Z _) in Hi.
    apply elem_of_seq in Hi. lia. }
  assert (failedSegments (first_pass cfg E segments fs) = []) as Hnil.
  { rewrite Hf. revert Hok'. clear.
    induction (completion E 0 (seq 0 (length segments))) as [|i l IH];
      intros Hok'; [done|].
    rewrite filter_cons, decide_False.
    - apply IH. intros j Hj. apply Hok'. apply elem_of_cons. by right.
    - rewrite Hok'; [done|]. apply elem_of_cons. by left. }
  assert (retry_loop cfg E segments 1 (first_pass cfg E segments fs) =
          first_pass cfg E segments fs) as ->.
  { simp retry_loop. destruct (decide (1 <= MaxRetry cfg)%Z); simpl; [|done].
    by rewrite Hnil. }
  split; [|done]. rewrite Ht. simpl. apply list_fmap_ext. 
  intros k i Hk. f_equal. apply attempt_error_ok, Hok'.
  apply list_elem_of_lookup. by exists k.
Qed.

(** *** What the segment files hold *)

Lemma rounds_needed_all i k :
  succeeds_by i k = false -> rounds_needed i k = k.
Proof.
  induction k as [|k IH]; [done|].
  rewrite succeeds_by_S, rounds_needed_S. intros Hs.
  apply orb_false_iff in Hs as [Hs _]. rewrite Hs, IH by done. lia.
Qed.

Lemma path_ne n i j :
  distinct_paths n -> i < n -> j < n -> i <> j ->
  segment_path cfg i <> segment_path cfg j.
Proof.
  intros Hnd Hi Hj Hne Heq. apply Hne.
  apply (NoDup_lookup _ i j (segment_path cfg i) Hnd); unfold segment_paths;
    rewrite list_lookup_fmap, lookup_seq_lt by done; simpl; congruence.
Qed.

Lemma temp_ne_path n i j :
  separate_paths cfg n -> i < n -> j < n ->
  segment_path cfg i <> segment_path cfg j +:+ ".tmp".
Proof.
  intros (_ & _ & _ & _ & Hall) Hi Hj Heq.
  rewrite Forall_forall in Hall.
  apply (Hall (segment_path cfg j +:+ ".tmp")).
  - by apply segment_temp_path_elem.
  - rewrite <- Heq. by apply segment_path_elem.
Qed.

Lemma worker_content n segments r st j i :
  distinct_paths n -> separate_paths cfg n -> i < n -> j < n ->
  files (worker cfg E false segments r st j) !! segment_path cfg i =
    if decide (i = j /\ fetch_ok (fetch E r j) = true)
    then Some (body (fetch E r j)) else files st !! segment_path cfg i.
Proof.
  intros Hnd Hsep Hi Hj.
  destruct (worker_spec cfg E segments r st j) as (_ & _ & _ & ->).
  pose proof (downloadFile_effect (fetch E r j) (segments !!! j)
                (segment_path cfg j) (files st)) as Hd. cbv zeta in Hd.
  pose proof (downloadFile_ok (fetch E r j) (segments !!! j)
                (segment_path cfg j) (files st)) as Hok.
  destruct (downloadFile _ _ _ _) as [err fs'] eqn:Hdl. cbn [fst snd] in *.
  destruct Hd as [Hother Hres].
  destruct (decide (i = j)) as [->|Hne].
  - destruct err as [e|].
    + rewrite decide_False; [by destruct Hres as [-> _]|].
      intros [_ Hf]. apply Hok in Hf. done.
    + rewrite decide_True; [by destruct Hres as [-> _]|].
      split; [done|]. by apply Hok.
  - rewrite decide_False by (intros [? _]; done).
    apply Hother; [by eapply path_ne|by eapply temp_ne_path].
Qed.

Lemma workers_content n segments r order : forall st,
  distinct_paths n -> separate_paths cfg n -> (forall j, j ∈ order -> j < n) ->
  forall i, i < n ->
  files (foldl (worker cfg E false segments r) st order) !! segment_path cfg i =
    if decide (i ∈ order /\ fetch_ok (fetch E r i) = true)
    then Some (body (fetch E r i)) else files st !! segment_path cfg i.
Proof.
  induction order as [|j order IH]; intros st Hnd Hsep Hlt i Hi.
  - cbn [foldl]. rewrite decide_False; [done|]. intros [Hin _].
    by apply not_elem_of_nil in Hin.
  - cbn [foldl]. rewrite IH; [|done|done| |done].
    2: { intros k Hk. apply Hlt. apply elem_of_cons. by right. }
    rewrite (worker_content n); [|done|done|done|].
    2: { apply Hlt. apply elem_of_cons. by left. }
    destruct (decide (i ∈ order /\ fetch_ok (fetch E r i) = true)) as [[Hin Hok]|Hno].
    + rewrite decide_True; [done|]. split; [|done]. apply elem_of_cons. by right.
    + destruct (decide (i = j /\ fetch_ok (fetch E r j) = true)) as [[-> Hok]|Hno'].
      * rewrite decide_True; [done|]. split; [|done]. apply elem_of_cons. by left.
      * rewrite decide_False; [done|]. intros [Hin Hok].
        apply elem_of_cons in Hin as [->|Hin]; [by apply Hno'|by apply Hno].
Qed.

Lemma content_round n segments r st tasks :
  fair_completion E -> distinct_paths n -> separate_paths cfg n ->
  (0 <= r)%Z -> (forall i, i ∈ tasks -> i < n) ->
  (forall i, i < n -> (i ∈ tasks <-> succeeds_by i (Z.to_nat r) = false)) ->
  content_inv n r st ->
  content_inv n (r + 1) (run_round cfg E segments r tasks st).
Proof.
  intros Hfair Hnd Hsep Hr Hlt Hin Hinv i Hi.
  replace (Z.to_nat (r + 1)) with (S (Z.to_nat r)) by lia.
  rewrite succeeds_by_S, rounds_needed_S, Z2Nat.id by done.
  unfold run_round. rewrite (workers_content n); [|done|done| |done].
  2: { intros j Hj. apply Hlt. by rewrite <- (Hfair r tasks). }
  cbn [files].
  assert (i ∈ completion E r tasks <-> i ∈ tasks) as Hmem
    by (by rewrite (Hfair r tasks)).
  destruct (succeeds_by i (Z.to_nat r)) eqn:Hsb; simpl.
  - intros _. rewrite decide_False.
    + rewrite Nat.add_0_r. by apply Hinv.
    + intros [Hd _]. apply Hmem, Hin in Hd; [|done]. congruence.
  - intros Hok. rewrite decide_True.
    + rewrite rounds_needed_all by done.
      replace (Z.to_nat r + 1 - 1) with (Z.to_nat r) by lia.
      by rewrite Z2Nat.id.
    + split; [|done]. apply Hmem, Hin; done.
Qed.

Lemma download_phases_delivered segments fs :
  fair_completion E ->
  distinct_paths (length segments) -> separate_paths cfg (length segments) ->
  forall i, i < length segments -> succeeds_by i attempts_allowed = true ->
    files (download_phases cfg E segments fs) !! segment_path cfg i =
      Some (delivered i).
Proof.
  intros Hfair Hnd Hsep.
  set (n := length segments).
  assert (exists r, (closed_form n r (download_phases cfg E segments fs) /\
                     content_inv n r (download_phases cfg E segments fs)) /\
            (failedSegments (download_phases cfg E segments fs) = [] \/
             (MaxRetry cfg < r)%Z)) as (r & [Hcf Hci] & Hend).
  { unfold download_phases.
    destruct (retry_loop_ind cfg E segments
                (fun r st => closed_form n r st /\ content_inv n r st))
      with (r := 1%Z) (st := first_pass cfg E segments fs)
      as (r & Hr & _ & Hend); [| |by exists r].
    - intros r st [Hcf Hci] Hle Hne. split; [by apply closed_form_step|].
      destruct Hcf as (Hr1 & _ & _ & Hlt & _ & Hall).
      apply content_round; try done; [lia|].
      intros i Hi. by destruct (Hall i Hi) as (? & _).
    - split; [by apply closed_form_first|].
      unfold first_pass. apply (content_round n segments 0); try done.
      + intros i Hi. apply elem_of_seq in Hi. lia.
      + intros i Hi. split; [done|]. intros _. apply elem_of_seq. lia. }
  intros i Hi Hs.
  destruct (closed_form_final _ _ _ Hcf Hend i Hi) as [Hsb Hrn].
  unfold Outcome.delivered. rewrite <- Hrn. apply Hci; [done|]. by rewrite Hsb.
Qed.


(** *** The whole run *)

Lemma remove_segments_lookup_ne inputs : forall k fs p,
  p ∉ inputs -> remove_segments E k inputs fs !! p = fs !! p.
Proof.
  induction inputs as [|file rest IH]; intros k fs p Hp; [done|].
  apply not_elem_of_cons in Hp as [Hne Hp]. simpl.
  rewrite IH by done. by apply Remove_lookup_ne.
Qed.

Lemma remove_segments_None inputs : forall k fs p,
  fs !! p = None -> remove_segments E k inputs fs !! p = None.
Proof.
  induction inputs as [|file rest IH]; intros k fs p Hp; [done|].
  simpl. apply IH. unfold OS.Remove.
  destruct (cleanup_remove_err E k); [done|].
  destruct (fs !! file); [|done]. simpl.
  destruct (decide (p = file)) as [->|Hne];
    [apply lookup_delete_eq|by rewrite lookup_delete_ne].
Qed.

Lemma remove_segments_gone inputs : forall k fs j p,
  inputs !! j = Some p -> cleanup_remove_err E (k + j) = false ->
  remove_segments E k inputs fs !! p = None.
Proof.
  induction inputs as [|file rest IH]; intros k fs j p Hj Hrm; [done|].
  destruct j as [|j]; simpl in Hj |- *.
  - injection Hj as ->. rewrite Nat.add_0_r in Hrm. rewrite Hrm.
    apply remove_segments_None, Remove_lookup_eq.
  - apply (IH (S k) _ j); [done|]. by replace (S k + j) with (k + S j) by lia.
Qed.

Lemma RemoveAll_lookup dir (fs : gmap string bytes) p :
  RemoveAll E dir fs !! p =
    if negb (path_within dir p) || removeall_keeps E p then fs !! p else None.
Proof.
  unfold RemoveAll.
  destruct (negb (path_within dir p) || removeall_keeps E p) eqn:Hk.
  - destruct (fs !! p) as [x|] eqn:Hp.
    + apply map_lookup_filter_Some. by split.
    + apply map_lookup_filter_None. by left.
  - apply map_lookup_filter_None. right. intros x _. simpl. by rewrite Hk.
Qed.

(** What a run that returns no error went through. *)
Lemma Download_success content baseURL fs fs' tr :
  Download cfg E content baseURL fs = Some (None, fs', tr) ->
  exists segments st fs1,
    Parser.ParseSegments content baseURL = (segments, None) /\
    segments <> [] /\
    downloadSegments cfg E segments fs = Some (segmentFiles st, None, st) /\
    st = download_phases cfg E segments fs /\
    verify_loop cfg E (files st) 0 (segmentFiles st) = None /\
    mergeSegments cfg E (segmentFiles st) (files st) = (None, fs1) /\
    fs' = RemoveAll E (OutputDir cfg) (remove_segments E 0 (segmentFiles st) fs1) /\
    tr = trace st.
Proof.
  unfold Download.
  destruct (Parser.ParseSegments content baseURL) as [segments [e|]]; [done|].
  case_bool_decide as Hlen; [done|].
  destruct (downloadSegments cfg E segments fs) as [[[inputs [e|]] st]|] eqn:Hd;
    [done| |done].
  destruct (mergeSegments cfg E inputs (files st)) as [[e|] fs1] eqn:Hm; [done|].
  intros [= <- <-].
  destruct (downloadSegments_Some cfg E _ _ _ _ _ Hd) as (Hst & Hv & Hin).
  subst inputs. exists segments, st, fs1. split; [done|].
  split; [by intros ->|]. by rewrite Hd, Hm.
Qed.

(** The slots of a run whose verify loop passes. *)
Lemma verified_slots segments fs :
  fair_completion E ->
  let st := download_phases cfg E segments fs in
  verify_loop cfg E (files st) 0 (segmentFiles st) = None ->
  segmentFiles st = segment_paths cfg (length segments) /\
  forall i, i < length segments ->
    succeeds_by i attempts_allowed = true /\
    slot_passes cfg E (files st) i (segment_path cfg i).
Proof.
  intros Hfair st Hv.
  pose proof (proj1 (verify_loop_None cfg E _ _ _) Hv) as Hpass.
  assert (forall i, i < length segments ->
            succeeds_by i attempts_allowed = true /\
            segmentFiles st !! i = Some (segment_path cfg i)) as Hslots.
  { intros i Hi.
    pose proof (download_phases_slot segments fs i Hfair Hi) as Hs.
    fold st in Hs. destruct (succeeds_by i attempts_allowed); [done|].
    by destruct (Hpass i "" Hs) as [? _]. }
  split.
  - destruct (download_phases_slots cfg E segments fs) as [Hlen _]. fold st in Hlen.
    apply list_eq. intros j. unfold segment_paths. rewrite list_lookup_fmap.
    destruct (decide (j < length segments)) as [Hj|Hj].
    + rewrite lookup_seq_lt by done. by destruct (Hslots j Hj) as [_ ->].
    + rewrite lookup_seq_ge by lia. simpl. apply lookup_ge_None. lia.
  - intros i Hi. destruct (Hslots i Hi) as [Hs Hl]. split; [done|].
    by apply (Hpass i _ Hl).
Qed.

(** X12.  A run of [Download] that returns no error had at least one
    segment, got every segment in one of its calls and with a body that is
    not empty, and leaves at the output path the bodies that were delivered,
    concatenated in playlist order - unless the output path lies in the
    staging directory: then the final [os.RemoveAll] deletes the output the
    run has just written. *)
Theorem successful_run_output content baseURL fs fs' tr :
  let n := length (Parser.ParseSegments content baseURL).1 in
  fair_completion E -> distinct_paths n -> separate_paths cfg n ->
  Download cfg E content baseURL fs = Some (None, fs', tr) ->
  0 < n /\
  (forall i, i < n ->
     succeeds_by i attempts_allowed = true /\ delivered i <> []) /\
  fs' !! Output cfg =
    if negb (path_within (OutputDir cfg) (Output cfg)) ||
       removeall_keeps E (Output cfg)
    then Some (concat (delivered <$> seq 0 n)) else None.
Proof.
  intros n Hfair Hnd Hsep Hrun.
  destruct (Download_success _ _ _ _ _ Hrun)
    as (segments & st & fs1 & Hparse & Hne & _ & Hst & Hv & Hm & -> & _).
  subst n. rewrite Hparse in *. cbn [fst] in *. subst st.
  destruct (verified_slots segments fs Hfair Hv) as [Hfiles Hslots].
  rewrite Hfiles in Hm.
  assert (forall i, i < length segments ->
            files (download_phases cfg E segments fs) !! segment_path cfg i =
              Some (delivered i)) as Hcontent.
  { intros i Hi. apply download_phases_delivered; try done.
    by destruct (Hslots i Hi). }
  split; [destruct segments; [done|simpl; lia]|]. split.
  { intros i Hi. destruct (Hslots i Hi) as [Hs (_ & c & Hc & _ & Hcne & _)].
    split; [done|]. rewrite Hcontent in Hc by done. by injection Hc as ->. }
  rewrite RemoveAll_lookup. destruct (_ || _); [|done].
  destruct Hsep as (Hout & _ & Htmp & _).
  rewrite remove_segments_lookup_ne by (by rewrite Hfiles).
  pose proof (mergeSegments_spec cfg E (segment_paths cfg (length segments))
                (files (download_phases cfg E segments fs))) as Hspec.
  cbn zeta in Hspec. rewrite Hm in Hspec. cbn [fst snd] in Hspec.
  destruct Hspec as (_ & Hok & _).
  destruct (Hok eq_refl Htmp) as (contents & Hall & -> & _).
  f_equal. f_equal. apply list_eq. intros j.
  rewrite list_lookup_fmap.
  destruct (decide (j < length segments)) as [Hj|Hj].
  - rewrite lookup_seq_lt by done. simpl.
    destruct (Forall2_lookup_l _ _ _ j (segment_path cfg j) Hall)
      as (c & Hc & Hfc).
    { unfold segment_paths. by rewrite list_lookup_fmap, lookup_seq_lt. }
    rewrite Hc. rewrite Hcontent in Hfc by done. done.
  - rewrite lookup_seq_ge by lia. simpl. apply lookup_ge_None.
    rewrite <- (Forall2_length _ _ _ Hall). unfold segment_paths.
    rewrite length_fmap, length_seq. lia.
Qed.

(** X13.  After a run of [Download] that returns no error: nothing that
    [os.RemoveAll] can delete is left in the staging directory, the segment
    files whose removal works are gone, the temporary output is gone, and a
    path outside the staging directory that is no staging path and not the
    output is as it was before the run. *)
Theorem successful_run_cleans_up content baseURL fs fs' tr :
  let n := length (Parser.ParseSegments content baseURL).1 in
  fair_completion E -> separate_paths cfg n ->
  Download cfg E content baseURL fs = Some (None, fs', tr) ->
  (forall p, path_within (OutputDir cfg) p = true ->
     removeall_keeps E p = false -> fs' !! p = None) /\
  (forall i, i < n -> cleanup_remove_err E i = false ->
     fs' !! segment_path cfg i = None) /\
  fs' !! tempOutputFile cfg = None /\
  (forall p, p ∉ segment_paths cfg n -> p ∉ segment_temp_paths cfg n ->
     p <> Output cfg -> p <> tempOutputFile cfg ->
     path_within (OutputDir cfg) p = false -> fs' !! p = fs !! p).
Proof.
  intros n Hfair Hsep Hrun.
  destruct (Download_success _ _ _ _ _ Hrun)
    as (segments & st & fs1 & Hparse & Hne & _ & Hst & Hv & Hm & -> & _).
  subst n. rewrite Hparse in *. cbn [fst] in *. subst st.
  destruct (verified_slots segments fs Hfair Hv) as [Hfiles _].
  rewrite Hfiles in *.
  pose proof (mergeSegments_spec cfg E (segment_paths cfg (length segments))
                (files (download_phases cfg E segments fs))) as Hspec.
  cbn zeta in Hspec. rewrite Hm in Hspec. cbn [fst snd] in Hspec.
  destruct Hspec as (Hother & Hok & _).
  destruct Hsep as (_ & _ & Htmp & _).
  split; [|split; [|split]].
  - intros p Hin Hk. by rewrite RemoveAll_lookup, Hin, Hk.
  - intros i Hi Hrm. rewrite RemoveAll_lookup.
    destruct (_ || _); [|done].
    apply (remove_segments_gone _ 0 _ i); [|done].
    unfold segment_paths. by rewrite list_lookup_fmap, lookup_seq_lt.
  - rewrite RemoveAll_lookup. destruct (_ || _); [|done].
    apply remove_segments_None.
    by destruct (Hok eq_refl Htmp) as (_ & _ & _ & ?).
  - intros p Hp1 Hp2 Hp3 Hp4 Hp5.
    rewrite RemoveAll_lookup, Hp5. simpl.
    rewrite remove_segments_lookup_ne, Hother by done.
    by apply (download_phases_files cfg E segments fs Hfair).
Qed.

(** X14.  [Download] returns and reports no error when the playlist parses
    to at least one segment, [Threads] is positive, every segment is
    delivered in one of the calls the scheduler may make for it, with a body
    that is not empty and that validates when validation is on, and neither
    the verify loop nor the merge meets a fault of the operating system. *)
Theorem run_succeeds_when_segments_arrive content baseURL fs :
  let segments := (Parser.ParseSegments content baseURL).1 in
  let n := length segments in
  fair_completion E -> distinct_paths n -> separate_paths cfg n ->
  (0 < Threads cfg)%Z ->
  (Parser.ParseSegments content baseURL).2 = None -> 0 < n ->
  (forall i, i < n ->
     succeeds_by i attempts_allowed = true /\ delivered i <> [] /\
     segment_path cfg i <> "" /\ stat_err E i = false /\
     (ValidateFiles cfg = true ->
        forall fs1, fs1 !! segment_path cfg i = Some (delivered i) ->
          Validator.ValidateTS (validate E i) (segment_path cfg i) fs1 = None)) ->
  merge_runs_clean E ->
  exists fs',
    Download cfg E content baseURL fs =
      Some (None, fs', trace (download_phases cfg E segments fs)).
Proof.
  intros segments n Hfair Hnd Hsep Hthreads Hparse Hn Hall Hclean.
  subst n segments. unfold Download.
  destruct (Parser.ParseSegments content baseURL) as [segments err].
  cbn [fst snd] in *. subst err.
  rewrite bool_decide_eq_false_2 by lia.
  rewrite downloadSegments_unfold by done. cbv zeta.
  set (st := download_phases cfg E segments fs).
  assert (forall i, i < length segments ->
            segmentFiles st !! i = Some (segment_path cfg i)) as Hslots.
  { intros i Hi. unfold st.
    rewrite download_phases_slot by done.
    by destruct (Hall i Hi) as (-> & _). }
  assert (forall i, i < length segments ->
            files st !! segment_path cfg i = Some (delivered i)) as Hcontent.
  { intros i Hi. apply download_phases_delivered; try done.
    by destruct (Hall i Hi). }
  assert (length (segmentFiles st) = length segments) as Hlen
    by apply (download_phases_slots cfg E segments fs).
  assert (verify_loop cfg E (files st) 0 (segmentFiles st) = None) as Hv.
  { apply verify_loop_None. intros k file Hk. simpl.
    assert (k < length segments) as Hlt.
    { rewrite <- Hlen. by eapply lookup_lt_Some. }
    rewrite (Hslots k Hlt) in Hk. injection Hk as <-.
    destruct (Hall k Hlt) as (_ & Hne & Hp & Hstat & Hval).
    split; [done|]. exists (delivered k). split; [by apply Hcontent|].
    split; [done|]. split; [done|]. intros Hvf. apply Hval; [done|].
    by apply Hcontent. }
  rewrite Hv.
  pose proof (mergeSegments_spec cfg E (segmentFiles st) (files st)) as Hspec.
  cbn zeta in Hspec. destruct Hspec as (_ & _ & _ & Htot).
  destruct (mergeSegments cfg E (segmentFiles st) (files st)) as [err fs1].
  cbn [fst] in Htot. rewrite Htot; [by eexists|done|].
  apply Forall_lookup. intros k file Hk.
  assert (k < length segments) as Hlt.
  { rewrite <- Hlen. by eapply lookup_lt_Some. }
  rewrite (Hslots k Hlt) in Hk. injection Hk as <-.
  rewrite Hcontent by done. by eexists.
Qed.

End outcome_facts.

(** ** A run that fails *)

Section failure_claims.
Import Downloader Outcome.
Context `{GoLib}.
Variable cfg : Config.
Variable E : Env.

(** Where a failed merge leaves the output path: as it was, unless the
    failure is that of the final rename, which comes after the removal of
    the old output. *)
Lemma mergeSegments_output_on_error inputs fs err :
  let r := mergeSegments cfg E inputs fs in
  r.1 = Some err ->
  r.2 !! Output cfg = fs !! Output cfg \/
  (r.2 !! Output cfg = None /\ exists cause, err = ErrRenameTemp cause).
Proof.
  pose proof (tempOutputFile_ne cfg) as Hto.
  assert (Output cfg <> tempOutputFile cfg) as Hto' by (intros Heq; by apply Hto).
  cbn zeta. unfold mergeSegments.
  destruct (m_create_err (merge E)); [by left|].
  pose proof (merge_loop_spec cfg E inputs 0 (OS.Create (tempOutputFile cfg) fs))
    as Hloop. cbn zeta in Hloop.
  destruct (merge_loop cfg E 0 inputs (OS.Create (tempOutputFile cfg) fs))
    as [[e|] fs1]; cbn [fst snd] in *; destruct Hloop as (Hother & _).
  { intros _. left. by rewrite Hother, Create_lookup_ne. }
  destruct (m_final_flush_err (merge E)).
  { intros _. left. unfold discard_temp. cbn [snd].
    by rewrite Remove_lookup_ne, Hother, Create_lookup_ne. }
  assert (fs1 !! Output cfg = fs !! Output cfg) as Hout
    by (by rewrite Hother, Create_lookup_ne).
  assert (forall fs2 : gmap string bytes,
            match OS.Rename (m_rename_err (merge E)) (tempOutputFile cfg)
                    (Output cfg) fs2 with
            | (Some e, fs3) =>
                (Some (ErrRenameTemp e),
                 (OS.Remove (m_remove_temp_err (merge E)) (tempOutputFile cfg) fs3).2)
            | (None, fs3) => (None, fs3)
            end.1 = Some err ->
            (exists cause, err = ErrRenameTemp cause) /\
            match OS.Rename (m_rename_err (merge E)) (tempOutputFile cfg)
                    (Output cfg) fs2 with
            | (Some e, fs3) =>
                (Some (ErrRenameTemp e),
                 (OS.Remove (m_remove_temp_err (merge E)) (tempOutputFile cfg) fs3).2)
            | (None, fs3) => (None, fs3)
            end.2 !! Output cfg = fs2 !! Output cfg) as Hrename.
  { intros fs2. unfold OS.Rename.
    destruct (m_rename_err (merge E)); cbn [fst snd].
    - intros [= <-]. split; [eauto|]. by rewrite Remove_lookup_ne.
    - destruct (fs2 !! tempOutputFile cfg); cbn [fst snd]; [done|].
      intros [= <-]. split; [eauto|]. by rewrite Remove_lookup_ne. }
  unfold OS.Stat.
  destruct (fs1 !! Output cfg) as [old|] eqn:Hold.
  - destruct (m_stat_output_err (merge E)).
    + intros Herr. destruct (Hrename fs1 Herr) as [_ ->]. left. congruence.
    + destruct (m_remove_output_err (merge E)).
      * rewrite Remove_fault. cbv beta iota. cbn [fst snd]. intros _. left.
        rewrite Remove_lookup_ne by done. congruence.
      * rewrite (Remove_present _ _ _ Hold). cbv beta iota.
        intros Herr. destruct (Hrename _ Herr) as [Hcause ->]. right.
        split; [apply lookup_delete_eq|done].
  - intros Herr. destruct (Hrename fs1 Herr) as [_ ->]. left. congruence.
Qed.


End failure_claims.

(** ** The variant selector *)

Section master_facts.
Import Parser Master.
Context `{GoLib}.
Variable Sscanf_d : string -> option Z.

Abbreviation bw := (parseBandwidth Sscanf_d).
Abbreviation pick := (Master.pick Sscanf_d).

Lemma select_loop_variants lines : forall st,
  let st' := select_loop Sscanf_d lines st in
  (highestBandwidth st', selectedURL st') =
    foldl pick (highestBandwidth st, selectedURL st)
      (variants lines (streamInfo st)).
Proof.
  induction lines as [|raw rest IH]; intros st; cbn zeta; [done|].
  cbn [select_loop variants].
  destruct (MaxScanTokenSize <=? _)%N; [done|]. cbv zeta.
  destruct (HasPrefix (dropCR raw) "#EXT-X-STREAM-INF") eqn:Hinfo.
  { by rewrite IH. }
  destruct (HasPrefix (dropCR raw) "#") eqn:Htag.
  { rewrite andb_false_r. by rewrite IH. }
  rewrite andb_true_r. case_bool_decide as Hpending; cbn [negb].
  { rewrite IH. by rewrite Hpending. }
  cbn [foldl].
  assert (forall b u, pick (b, u) (streamInfo st, dropCR raw) =
            if (b <? bw (streamInfo st))%Z
            then (bw (streamInfo st), dropCR raw) else (b, u)) as -> by done.
  destruct (highestBandwidth st <? bw (streamInfo st))%Z; by rewrite IH.
Qed.

Lemma foldl_pick vs : forall floor url,
  let best := foldl pick (floor, url) vs in
  (best = (floor, url) /\ forall v, v ∈ vs -> (bw v.1 <= floor)%Z) \/
  (exists info uri, first_highest Sscanf_d floor vs info uri /\
                    best = (bw info, uri)).
Proof.
  induction vs as [|[info uri] vs IH]; intros floor url; cbn zeta.
  { left. split; [done|]. intros v Hv. by apply not_elem_of_nil in Hv. }
  cbn [foldl].
  assert (pick (floor, url) (info, uri) =
          if (floor <? bw info)%Z then (bw info, uri) else (floor, url)) as ->
    by done.
  destruct (Z.ltb_spec floor (bw info)) as [Hlt|Hge].
  - right. pose proof (IH (bw info) uri) as IH'. cbn zeta in IH'.
    destruct IH' as [[Hbest Hall]|(info' & uri' & Hfh & Hbest)]; rewrite Hbest.
    + exists info, uri. split; [|done]. exists [], vs. split; [done|].
      split; [done|]. split; [|done]. intros v Hv. by apply not_elem_of_nil in Hv.
    + exists info', uri'. split; [|done].
      destruct Hfh as (vs1 & vs2 & -> & Hlt' & H1 & H2).
      exists ((info, uri) :: vs1), vs2. split; [done|]. split; [lia|].
      split; [|done]. intros v Hv. apply elem_of_cons in Hv as [->|Hv];
        [done|by apply H1].
  - pose proof (IH floor url) as IH'. cbn zeta in IH'.
    destruct IH' as [[Hbest Hall]|(info' & uri' & Hfh & Hbest)]; rewrite Hbest.
    + left. split; [done|]. intros v Hv. apply elem_of_cons in Hv as [->|Hv];
        [done|by apply Hall].
    + right. exists info', uri'. split; [|done].
      destruct Hfh as (vs1 & vs2 & -> & Hlt' & H1 & H2).
      exists ((info, uri) :: vs1), vs2. split; [done|]. split; [done|].
      split; [|done]. intros v Hv. apply elem_of_cons in Hv as [->|Hv];
        [simpl; lia|by apply H1].
Qed.

(** X15.  [SelectVariantStream] returns the first variant of the highest
    bandwidth, kept as it is when it begins with "http" and resolved against
    the base URL otherwise.  It fails when no variant has a positive
    bandwidth, and also when the line of the variant it selected is
    empty. *)
Theorem SelectVariantStream_picks_first_highest content baseURL :
  let vs := variants (raw_lines content) "" in
  match SelectVariantStream Sscanf_d content baseURL with
  | (url, None) =>
      exists info uri,
        first_highest Sscanf_d 0 vs info uri /\ uri <> "" /\
        url = if HasPrefix uri "http" then uri else ResolveURL baseURL uri
  | (url, Some ErrNoValidStreams) =>
      url = "" /\
      ((forall v, v ∈ vs -> (bw v.1 <= 0)%Z) \/
       exists info, first_highest Sscanf_d 0 vs info "")
  end.
Proof.
  cbn zeta. unfold SelectVariantStream.
  pose proof (select_loop_variants (raw_lines content)
    {| highestBandwidth := 0; selectedURL := ""; streamInfo := "" |}) as Hloop.
  cbn zeta in Hloop. cbn [highestBandwidth selectedURL streamInfo] in Hloop.
  destruct (select_loop _ _ _) as [hb url info0]. cbn [selectedURL] in *.
  destruct (foldl_pick (variants (raw_lines content) "") 0 "")
    as [[Hbest Hall]|(info & uri & Hfh & Hbest)]; cbn zeta in Hbest;
    rewrite Hbest in Hloop; injection Hloop as -> ->.
  - rewrite bool_decide_eq_true_2 by done. split; [done|]. by left.
  - case_bool_decide as Huri.
    + split; [done|]. right. exists info. by subst uri.
    + exists info, uri. split; [done|]. split; [done|].
      by destruct (HasPrefix uri "http").
Qed.


Lemma select_loop_long pre long post : forall st,
  ~ short long ->
  select_loop Sscanf_d (pre ++ long :: post) st = select_loop Sscanf_d pre st.
Proof.
  intros st Hlong. revert st.
  induction pre as [|raw pre IH]; intros st.
  - simpl. destruct (N.leb_spec MaxScanTokenSize (N.of_nat (String.length long)))
      as [_|Hlt]; [done|]. by destruct Hlong.
  - cbn [app select_loop]. rewrite !IH. done.
Qed.

(** X16.  A line of 65536 bytes or more ends the reading of a master
    playlist without an error: [SelectVariantStream] answers as on the
    lines before it, and no variant after it is considered. *)
Theorem SelectVariantStream_stops_at_long_line content before baseURL pre long post :
  raw_lines content = pre ++ long :: post ->
  raw_lines before = pre ->
  ~ short long ->
  SelectVariantStream Sscanf_d content baseURL =
    SelectVariantStream Sscanf_d before baseURL.
Proof.
  intros Hc Hb Hlong. unfold SelectVariantStream.
  by rewrite Hc, Hb, select_loop_long.
Qed.

Lemma prefix_app (s t : string) : String.prefix s (s +:+ t) = true.
Proof.
  induction s as [|a s IH]; simpl; [by destruct t|].
  by destruct (ascii_dec a a).
Qed.

Lemma index_after (pat : string) c (pre rest : string) :
  Forall (fun a => a <> c) (list_ascii_of_string pre) ->
  forall pat', pat = String c pat' ->
  String.index 0 pat (pre +:+ pat +:+ rest) = Some (String.length pre).
Proof.
  intros Hpre pat' ->. induction pre as [|a pre IH].
  - simpl. destruct (ascii_dec c c); [|done]. by rewrite prefix_app.
  - simpl in Hpre. apply Forall_cons in Hpre as [Hne Hpre].
    simpl. destruct (ascii_dec c a) as [->|_]; [done|]. by rewrite IH.
Qed.

Lemma substring_all (s : string) : String.substring 0 (String.length s) s = s.
Proof. induction s as [|a s IH]; simpl; [done|]. by rewrite IH. Qed.

Lemma substring_skip (a b : string) m :
  String.substring (String.length a) m (a +:+ b) = String.substring 0 m b.
Proof. induction a as [|c a IH]; simpl; [done|]. apply IH. Qed.

Lemma slice_from_app (a b : string) :
  slice_from (String.length a) (a +:+ b) = b.
Proof.
  unfold slice_from. rewrite substring_skip, append_length.
  replace (String.length a + String.length b - String.length a)
    with (String.length b) by lia.
  apply substring_all.
Qed.

Lemma string_app_assoc (a b c : string) : (a +:+ b) +:+ c = a +:+ b +:+ c.
Proof.
  induction a as [|x a IH]; [done|].
  change (String x ((a +:+ b) +:+ c) = String x (a +:+ b +:+ c)). by rewrite IH.
Qed.

(** X17.  [parseBandwidth] reads the number after the first occurrence of
    the text "BANDWIDTH=" (what stands before it holds no letter B, so it is
    the first), also when that occurrence is the end of another attribute
    name such as AVERAGE-BANDWIDTH; text that [Sscanf] cannot read as a
    number counts as zero. *)
Theorem parseBandwidth_reads_first_occurrence pre rest :
  Forall (fun a => a <> "B"%char) (list_ascii_of_string pre) ->
  parseBandwidth Sscanf_d (pre +:+ "BANDWIDTH=" +:+ rest) =
    default 0%Z (Sscanf_d rest).
Proof.
  intros Hpre. unfold parseBandwidth, strings_Index.
  rewrite (index_after "BANDWIDTH=" "B" pre rest Hpre "ANDWIDTH=" eq_refl).
  cbv zeta.
  replace (String.length pre + 10) with (String.length (pre +:+ "BANDWIDTH="))
    by (rewrite append_length; done).
  replace (pre +:+ "BANDWIDTH=" +:+ rest) with ((pre +:+ "BANDWIDTH=") +:+ rest).
  - rewrite slice_from_app. by destruct (Sscanf_d rest).
  - apply string_app_assoc.
Qed.

End master_facts.

(** ** A playlist without segments *)

Section run_facts.
Import Downloader Parser Master Run.
Context `{GoURLPath}.
Variable Sscanf_d : string -> option Z.
Variable cfg : Config.
Variable E : Env.
Variable pages : nat -> page_env.

Lemma select_loop_no_uri lines : forall st,
  Forall (fun raw => dropCR raw = "" \/ HasPrefix (dropCR raw) "#" = true) lines ->
  selectedURL st = "" ->
  selectedURL (select_loop Sscanf_d lines st) = "".
Proof.
  induction lines as [|raw rest IH]; intros st Hall Hsel; [done|].
  inversion Hall as [|? ? Hraw Hrest]; subst. cbn [select_loop].
  destruct (MaxScanTokenSize <=? _)%N; [done|]. cbv zeta.
  destruct (HasPrefix (dropCR raw) "#EXT-X-STREAM-INF"); [by apply IH|].
  destruct Hraw as [Hempty|Htag].
  - rewrite Hempty.
    destruct (negb (bool_decide (streamInfo st = "")) && negb (HasPrefix "" "#"));
      [|by apply IH].
    destruct (highestBandwidth st <? _)%Z; by apply IH.
  - rewrite Htag, andb_false_r. by apply IH.
Qed.

End run_facts.

(** ** Sample runs of the further properties *)

Section further_runs.
Import Downloader Outcome.

Lemma pool_never_deadlocks_witness :
  exists w', is_Some (Pool.step_worker
    {| Pool.capacity := 1; Pool.tokens := 1; Pool.ctx_done := false;
       Pool.workers := [Pool.Fetching; Pool.Queued] |} w').
Proof.
  apply (pool_never_deadlocks 1
           [Pool.Launch; Pool.Launch; Pool.Step 0; Pool.Step 0] _ _ 1 Pool.Queued
           eq_refl eq_refl eq_refl eq_refl). discriminate.
Defined.

Lemma zero_threads_blocks_every_worker_witness :
  Pool.step_worker
    {| Pool.capacity := 0; Pool.tokens := 0; Pool.ctx_done := true;
       Pool.workers := [Pool.Queued; Pool.Queued] |} 1 = None.
Proof.
  exact (proj2 (proj2 (zero_threads_blocks_every_worker
                         [Pool.Launch; Pool.Cancel; Pool.Launch] _ _
                         eq_refl eq_refl)) 1).
Defined.

Lemma finished_pool_holds_no_token_witness :
  Pool.tokens {| Pool.capacity := 2; Pool.tokens := 0; Pool.ctx_done := false;
                 Pool.workers := [Pool.Finished; Pool.Finished] |} = 0.
Proof.
  apply (finished_pool_holds_no_token 2
           [Pool.Launch; Pool.Launch; Pool.Step 0; Pool.Step 1; Pool.Step 1;
            Pool.Step 0; Pool.Step 0; Pool.Step 1] _ _ eq_refl eq_refl).
  repeat constructor.
Defined.

Lemma pool_moves_are_bounded_witness :
  Forall (eq Pool.Finished)
    (Pool.workers {| Pool.capacity := 1; Pool.tokens := 0;
                     Pool.ctx_done := false;
                     Pool.workers := [Pool.Finished; Pool.Finished] |}).
Proof.
  apply (pool_moves_are_bounded 1
           [Pool.Launch; Pool.Step 0; Pool.Launch; Pool.Step 0; Pool.Step 0;
            Pool.Step 1; Pool.Step 1; Pool.Step 1] _ _ eq_refl eq_refl).
  reflexivity.
Defined.

Lemma sample_copies_clean m :
  (forall i, m_open_err m i = false /\ m_read_err m i = None /\
             m_write_err m i = None /\ m_flush_err m i = false) ->
  copies_clean (Faults.merging m).
Proof. done. Qed.

Lemma merge_stops_at_missing_input_witness :
  let r := mergeSegments (Inputs.cfg 1 false) (Faults.merging Inputs.merge_ok)
             ["downloads/segment_00000.ts"; "downloads/segment_00002.ts"]
             Faults.staged in
  r.1 = Some (ErrSegmentFileMissing "downloads/segment_00002.ts") /\
  r.2 !! "output.ts" = Some [x00].
Proof.
  intros r.
  destruct (merge_stops_at_missing_input (Inputs.cfg 1 false)
              (Faults.merging Inputs.merge_ok)
              ["downloads/segment_00000.ts"; "downloads/segment_00002.ts"]
              Faults.staged "downloads/segment_00002.ts")
    as (_ & Hother & Hnamed).
  - apply (bool_decide_unpack _). vm_compute. exact I.
  - vm_compute. reflexivity.
  - apply (bool_decide_unpack _). vm_compute. exact I.
  - split.
    + apply (Hnamed ["downloads/segment_00000.ts"] []); [reflexivity| |reflexivity|].
      * constructor; [|constructor]. exists Inputs.packet. vm_compute. reflexivity.
      * by apply sample_copies_clean.
    + subst r. rewrite Hother; [vm_compute; reflexivity|]. discriminate.
Defined.

Lemma old_output_survives_failed_removal_witness :
  let r := mergeSegments (Inputs.cfg 1 false)
             (Faults.merging Faults.merge_remove_fails)
             ["downloads/segment_00000.ts"; "downloads/segment_00001.ts"]
             Faults.staged in
  r.1 = Some (ErrRemoveExisting (ErrSys "remove" "output.ts")) /\
  r.2 !! "output.ts" = Some [x00].
Proof.
  intros r.
  destruct (old_output_survives_failed_removal (Inputs.cfg 1 false)
              (Faults.merging Faults.merge_remove_fails)
              ["downloads/segment_00000.ts"; "downloads/segment_00001.ts"]
              Faults.staged [x00]) as (Herr & Hold & _); try reflexivity.
  - by apply sample_copies_clean.
  - repeat constructor; exists Inputs.packet; vm_compute; reflexivity.
  - by split.
Defined.

Lemma failed_rename_loses_old_output_witness :
  let r := mergeSegments (Inputs.cfg 1 false)
             (Faults.merging Faults.merge_rename_fails)
             ["downloads/segment_00000.ts"; "downloads/segment_00001.ts"]
             Faults.staged in
  r.1 = Some (ErrRenameTemp (ErrSys "rename" "output.ts.tmp")) /\
  Faults.staged !! "output.ts" = Some [x00] /\
  r.2 !! "output.ts" = None.
Proof.
  intros r.
  destruct (failed_rename_loses_old_output (Inputs.cfg 1 false)
              (Faults.merging Faults.merge_rename_fails)
              ["downloads/segment_00000.ts"; "downloads/segment_00001.ts"]
              Faults.staged) as (Herr & Hgone & _); try reflexivity.
  - by apply sample_copies_clean.
  - repeat constructor; exists Inputs.packet; vm_compute; reflexivity.
  - split; [exact Herr|]. split; [vm_compute; reflexivity|exact Hgone].
Defined.

Lemma ValidateTS_reads_only_the_header_witness :
  let e := {| Validator.open_err := false; Validator.read_err := false |} in
  Validator.ValidateTS e "a.ts" {[ "a.ts" := replicate 564 x47 ++ [x00] ]} =
  Validator.ValidateTS e "a.ts" {[ "a.ts" := replicate 564 x47 ++ [x01; x02] ]}.
Proof.
  intros e.
  apply (ValidateTS_reads_only_the_header e "a.ts" _ _
           (replicate 564 x47 ++ [x00]) (replicate 564 x47 ++ [x01; x02])).
  - apply lookup_singleton_eq.
  - apply lookup_singleton_eq.
  - vm_compute. reflexivity.
Defined.

Lemma slot_filled_iff_an_attempt_works_witness :
  let cfg := Inputs.cfg 2 false in
  let E := Inputs.env (Inputs.second_refused 1) Inputs.reversed in
  segmentFiles (download_phases cfg E Inputs.segments ∅) !! 1 =
    Some "downloads/segment_00001.ts".
Proof.
  intros cfg E.
  destruct (slot_filled_iff_an_attempt_works cfg E Inputs.segments ∅ 1
              (reversed_fair _)) as [Hslot _]; [simpl; lia|].
  etransitivity; [exact Hslot|]. vm_compute. reflexivity.
Defined.

Lemma calls_per_segment_witness :
  match downloadSegments (Inputs.cfg 2 false)
          (Inputs.env (Inputs.second_refused 1) Inputs.reversed)
          Inputs.segments ∅ with
  | Some (_, _, st) => calls_for 1 (trace st) = 2
  | None => False
  end.
Proof.
  destruct (downloadSegments _ _ _ _) as [[[inputs err] st]|] eqn:Hd.
  - destruct (calls_per_segment (Inputs.cfg 2 false)
                (Inputs.env (Inputs.second_refused 1) Inputs.reversed)
                Inputs.segments ∅ inputs err st 1 (reversed_fair _) Hd)
      as (_ & Heq & _); [simpl; lia|].
    etransitivity; [exact Heq|]. vm_compute. reflexivity.
  - vm_compute in Hd. discriminate.
Defined.

Lemma total_backoff_is_bounded_witness :
  let cfg := Inputs.cfg 2 false in
  let E := Inputs.env (Inputs.second_refused 100) Inputs.reversed in
  (2 * foldr Z.add 0
         (sleeps (trace (download_phases cfg E Inputs.segments ∅))) <= 6)%Z.
Proof.
  intros cfg E.
  exact (proj2 (total_backoff_is_bounded cfg E Inputs.segments ∅ (reversed_fair _))).
Defined.

Lemma no_retry_when_first_pass_works_witness :
  let cfg := Inputs.cfg 2 false in
  let E := Inputs.env (Inputs.second_refused 0) Inputs.reversed in
  failedSegments (download_phases cfg E Inputs.segments ∅) = [].
Proof.
  intros cfg E.
  apply (no_retry_when_first_pass_works cfg E Inputs.segments ∅ (reversed_fair _)).
  intros [|[|i]] Hi; [reflexivity|reflexivity|simpl in Hi; lia].
Defined.

Lemma sample_distinct_paths maxRetry validate :
  distinct_paths (Inputs.cfg maxRetry validate) 2.
Proof.
  unfold distinct_paths. apply (bool_decide_unpack _). vm_compute. exact I.
Qed.

Lemma successful_run_output_witness :
  match Download (Inputs.cfg 2 false)
          (Inputs.env (Inputs.second_refused 1) Inputs.reversed)
          Inputs.playlist Inputs.base ∅ with
  | Some (None, fs', _) =>
      fs' !! "output.ts" = Some (Inputs.packet ++ Inputs.packet)
  | _ => False
  end.
Proof.
  destruct (Download _ _ _ _ _) as [[[[err|] fs'] tr]|] eqn:Hrun.
  - vm_compute in Hrun. discriminate.
  - destruct (successful_run_output (Inputs.cfg 2 false)
                (Inputs.env (Inputs.second_refused 1) Inputs.reversed)
                Inputs.playlist Inputs.base ∅ fs' tr (reversed_fair _)
                (sample_distinct_paths 2 false) (sample_separate_paths 2 false) Hrun)
      as (_ & _ & Hout).
    etransitivity; [exact Hout|]. vm_compute. reflexivity.
  - vm_compute in Hrun. discriminate.
Defined.

Lemma successful_run_cleans_up_witness :
  match Download (Inputs.cfg 2 false)
          (Inputs.env (Inputs.second_refused 1) Inputs.reversed)
          Inputs.playlist Inputs.base ∅ with
  | Some (None, fs', _) =>
      fs' !! "downloads/segment_00001.ts" = None /\ fs' !! "output.ts.tmp" = None
  | _ => False
  end.
Proof.
  destruct (Download _ _ _ _ _) as [[[[err|] fs'] tr]|] eqn:Hrun.
  - vm_compute in Hrun. discriminate.
  - destruct (successful_run_cleans_up (Inputs.cfg 2 false)
                (Inputs.env (Inputs.second_refused 1) Inputs.reversed)
                Inputs.playlist Inputs.base ∅ fs' tr (reversed_fair _)
                (sample_separate_paths 2 false) Hrun)
      as (_ & Hseg & Htmp & _).
    split; [|exact Htmp]. apply (Hseg 1); [simpl; lia|reflexivity].
  - vm_compute in Hrun. discriminate.
Defined.

Lemma run_succeeds_when_segments_arrive_witness :
  let cfg := Inputs.cfg 2 false in
  let E := Inputs.env (Inputs.second_refused 1) Inputs.reversed in
  exists fs',
    Download cfg E Inputs.playlist Inputs.base ∅ =
      Some (None, fs', trace (download_phases cfg E Inputs.segments ∅)).
Proof.
  intros cfg E.
  apply (run_succeeds_when_segments_arrive cfg E Inputs.playlist Inputs.base ∅
           (reversed_fair _) (sample_distinct_paths 2 false)
           (sample_separate_paths 2 false)).
  - reflexivity.
  - vm_compute. reflexivity.
  - simpl. lia.
  - intros [|[|i]] Hi; [| |simpl in Hi; lia].
    + split; [vm_compute; reflexivity|]. split; [vm_compute; discriminate|].
      split; [vm_compute; discriminate|]. split; [reflexivity|]. discriminate.
    + split; [vm_compute; reflexivity|]. split; [vm_compute; discriminate|].
      split; [vm_compute; discriminate|]. split; [reflexivity|]. discriminate.
  - apply sample_merge_clean.
Defined.

(** The sample master playlist: the second variant wins, with the number of
    its AVERAGE-BANDWIDTH attribute. *)
Example SelectVariantStream_sample :
  Master.IsMasterPlaylist Master.sample_playlist = true /\
  Master.SelectVariantStream Master.sample_Sscanf_d Master.sample_playlist
    "http://host/dir/" = ("http://cdn/high/index.m3u8", None) /\
  Master.variants (Parser.raw_lines Master.sample_playlist) "" =
    [("#EXT-X-STREAM-INF:BANDWIDTH=1280000,RESOLUTION=640x360", "low/index.m3u8");
     ("#EXT-X-STREAM-INF:AVERAGE-BANDWIDTH=2000000,BANDWIDTH=2560000",
      "http://cdn/high/index.m3u8")].
Proof. vm_compute. done. Qed.

Lemma SelectVariantStream_stops_at_long_line_witness :
  Master.SelectVariantStream Master.sample_Sscanf_d
    ("#EXT-X-STREAM-INF:BANDWIDTH=1
low.m3u8
" +:+ Sample.long_line +:+ "
#EXT-X-STREAM-INF:BANDWIDTH=9
high.m3u8
") "http://host/dir/" = ("http://host/dir/low.m3u8", None).
Proof.
  etransitivity;
    [apply (SelectVariantStream_stops_at_long_line Master.sample_Sscanf_d _
              "#EXT-X-STREAM-INF:BANDWIDTH=1
low.m3u8
" "http://host/dir/" ["#EXT-X-STREAM-INF:BANDWIDTH=1"; "low.m3u8"]
              Sample.long_line ["#EXT-X-STREAM-INF:BANDWIDTH=9"; "high.m3u8"])|].
  - apply (bool_decide_unpack _). vm_compute. exact I.
  - vm_compute. reflexivity.
  - unfold Parser.short. vm_compute. discriminate.
  - vm_compute. reflexivity.
Defined.

Lemma parseBandwidth_reads_first_occurrence_witness :
  Master.parseBandwidth Master.sample_Sscanf_d
    ("#EXT-X-STREAM-INF:AVERAGE-" +:+ "BANDWIDTH=" +:+ "2000000,BANDWIDTH=2560000")
  = 2000000%Z.
Proof.
  etransitivity;
    [apply (parseBandwidth_reads_first_occurrence Master.sample_Sscanf_d)|].
  - vm_compute. repeat (constructor; [discriminate|]). constructor.
  - vm_compute. reflexivity.
Defined.

Lemma sample_base :
  Run.GetBaseURL (Downloader.URL (Inputs.cfg 2 false)) = inl "http://host/dir/".
Proof. vm_compute. reflexivity. Qed.




(** A run on a master playlist: the better variant is fetched, its segments
    are resolved against its own base URL, and the output holds what was
    delivered. *)
Example Download_of_master_playlist :
  (fun r => (r.1.1, r.1.2 !! "output.ts")) <$>
    Run.Download Master.sample_Sscanf_d (Inputs.cfg 2 false)
      (Inputs.env (Inputs.second_refused 1) Inputs.reversed)
      (fun k => Run.page (if bool_decide (k = 0) then Master.sample_playlist
                          else Inputs.playlist)) ∅ =
  Some (None, Some (Inputs.packet ++ Inputs.packet)).
Proof. vm_compute. reflexivity. Qed.

End further_runs.
